(** * torchdyn.numerics: the integration drivers and their solvers

    A shallow embedding of [torchdyn/numerics/solvers.py] and
    [torchdyn/numerics/odeint.py].

    Scalars and tensor entries are real numbers: the development reads the
    floating-point program in exact arithmetic, so it speaks about the
    control flow and the algebra of the drivers, not about rounding, NaN or
    infinities.  What is stated about the times of an adaptive run does not
    rest on a sum such as [t + (T - t)] being [T], or on a step
    landing on a requested time; and what is stated about the error ratio of
    a trial step is stated for the steps on which the program divides by no
    zero and averages over an entry ([regular_error]).  Python's dynamic
    behaviour that the drivers rely on is kept:
    [None] is a value, a [step] returns a tuple whose length and slots the
    caller unpacks, and an operation that raises in Python returns [Raise]
    here.  Loops whose exit depends on the numbers ([while t < T]) take a
    fuel argument and return [Diverge] when it runs out. *)

From Stdlib Require Import Reals List Lia Lra ZArith Bool Arith.
Import ListNotations.
Open Scope R_scope.

(** ** Exceptions and results *)

Inductive exn : Type :=
| TypeError
| ValueError
| IndexError.

Inductive result (A : Type) : Type :=
| Ok (a : A)
| Raise (e : exn)
| Diverge.

Arguments Ok {A} a.
Arguments Raise {A} e.
Arguments Diverge {A}.

Definition bind {A B : Type} (m : result A) (k : A -> result B) : result B :=
  match m with
  | Ok a => k a
  | Raise e => Raise e
  | Diverge => Diverge
  end.

Notation "x <- m ;; k" := (bind m (fun x => k))
  (at level 61, m at next level, right associativity).
Notation "' p <- m ;; k" := (bind m (fun x => let 'p := x in k))
  (at level 61, p pattern, m at next level, right associativity).

(** ** Comparisons of scalars, as the booleans Python computes *)

Definition Rltb (a b : R) : bool := if Rlt_dec a b then true else false.
Definition Rleb (a b : R) : bool := if Rle_dec a b then true else false.
Definition Reqb (a b : R) : bool := if Req_dec_T a b then true else false.

(** ** Sequences of scalars: [t_span] and friends *)

(** [l[i]] for a non-negative [i]. *)
Definition idx (l : list R) (i : nat) : result R :=
  match nth_error l i with
  | Some v => Ok v
  | None => Raise IndexError
  end.

(** [l[-1]]. *)
Definition idx_last (l : list R) : result R :=
  match l with
  | [] => Raise IndexError
  | _ => Ok (last l 0)
  end.

(** ** Tensors

    A dense array: its [shape] and its entries in row-major order.  The
    first axis is axis 0; a state [x] of shape [[..., D]] has its state
    dimension last. *)

Record Tensor : Type := mkTensor { shape : list nat; data : list R }.

(** A one-dimensional tensor. *)
Definition vec (l : list R) : Tensor := mkTensor [length l] l.

Definition tmap (g : R -> R) (x : Tensor) : Tensor :=
  mkTensor (shape x) (map g (data x)).

Fixpoint zipWith (g : R -> R -> R) (l1 l2 : list R) : list R :=
  match l1, l2 with
  | a :: l1', b :: l2' => g a b :: zipWith g l1' l2'
  | _, _ => []
  end.

(** Elementwise operation on two tensors of one shape (a vector field
    returns an array of the shape of its state). *)
Definition tmap2 (g : R -> R -> R) (x y : Tensor) : Tensor :=
  mkTensor (shape x) (zipWith g (data x) (data y)).

Definition tadd : Tensor -> Tensor -> Tensor := tmap2 Rplus.
Definition tsub : Tensor -> Tensor -> Tensor := tmap2 Rminus.
Definition tdiv : Tensor -> Tensor -> Tensor := tmap2 Rdiv.
Definition tmax : Tensor -> Tensor -> Tensor := tmap2 Rmax.
Definition tabs : Tensor -> Tensor := tmap Rabs.
Definition tneg : Tensor -> Tensor := tmap Ropp.
(** [s * x] and [s + x] for a scalar [s]. *)
Definition tscale (s : R) : Tensor -> Tensor := tmap (Rmult s).
Definition tshift (s : R) : Tensor -> Tensor := tmap (Rplus s).
Definition zeros_like (x : Tensor) : Tensor := tmap (fun _ => 0) x.

Declare Scope tensor_scope.
Delimit Scope tensor_scope with T.
Bind Scope tensor_scope with Tensor.
Notation "x + y" := (tadd x y) : tensor_scope.
Notation "x - y" := (tsub x y) : tensor_scope.
Notation "s .* x" := (tscale s x) (at level 40, left associativity) : tensor_scope.

(** Number of entries of one row (one index of axis 0). *)
Definition row_size (x : Tensor) : nat := fold_right Nat.mul 1%nat (tl (shape x)).

(** [len(x)]: the length of axis 0. *)
Definition tlen (x : Tensor) : nat := hd 0%nat (shape x).

(** The stop bound of the slice [x[:d]] over an axis of length [n]:
    [None] is the whole axis, a negative [d] counts from the end. *)
Definition slice_stop (d : option Z) (n : nat) : nat :=
  match d with
  | None => n
  | Some z => if (z <? 0)%Z then Z.to_nat (Z.of_nat n + z) else Nat.min (Z.to_nat z) n
  end.

(** [x[:d]]: a slice of axis 0.  A zero-dimensional tensor cannot be sliced. *)
Definition slice0 (d : option Z) (x : Tensor) : result Tensor :=
  match shape x with
  | [] => Raise IndexError
  | n :: rest =>
      let k := slice_stop d n in
      Ok (mkTensor (k :: rest) (firstn (k * row_size x) (data x)))
  end.

(** [x[k:]] for a non-negative [k]. *)
Definition slice_from (k : nat) (x : Tensor) : result Tensor :=
  match shape x with
  | [] => Raise IndexError
  | n :: rest =>
      Ok (mkTensor ((n - k)%nat :: rest) (skipn (k * row_size x) (data x)))
  end.

(** [x[k]] for a non-negative [k]. *)
Definition row (k : nat) (x : Tensor) : result Tensor :=
  match shape x with
  | [] => Raise IndexError
  | n :: rest =>
      if (k <? n)%nat
      then Ok (mkTensor rest (firstn (row_size x) (skipn (k * row_size x) (data x))))
      else Raise IndexError
  end.

(** [x[m] = v], as a new tensor. *)
Definition set_row (m : nat) (v x : Tensor) : result Tensor :=
  match shape x with
  | [] => Raise IndexError
  | n :: rest =>
      if (m <? n)%nat
      then Ok (mkTensor (shape x)
                 (firstn (m * row_size x) (data x) ++ data v
                    ++ skipn (S m * row_size x) (data x)))
      else Raise IndexError
  end.

(** [dst[:i] = src[:i]] for a non-negative [i], as a new tensor ([src] and
    [dst] have one shape). *)
Definition set_prefix (i : nat) (src dst : Tensor) : Tensor :=
  let k := (Nat.min i (tlen dst) * row_size dst)%nat in
  mkTensor (shape dst) (firstn k (data src) ++ skipn k (data dst)).

(** [torch.stack] of tensors of one shape along a new axis 0. *)
Definition stack (l : list Tensor) : Tensor :=
  mkTensor (length l :: match l with [] => [] | x :: _ => shape x end)
           (concat (map data l)).

Definition Rsum (l : list R) : R := fold_right Rplus 0 l.

(** [x.mean()] over all entries. *)
Definition tmean (x : Tensor) : R := Rsum (data x) / INR (length (data x)).

(** ** Values a [step] may put in its tuple *)

Inductive value : Type :=
| VNone
| VTensor (x : Tensor)
| VStages (ks : list Tensor).

(** Using a value where the code computes with a tensor. *)
Definition as_tensor (v : value) : result Tensor :=
  match v with
  | VTensor x => Ok x
  | _ => Raise TypeError
  end.

(** Using a value where the code indexes a tuple of stages. *)
Definition as_stages (v : value) : result (list Tensor) :=
  match v with
  | VStages ks => Ok ks
  | _ => Raise TypeError
  end.

(** [a, b, c = tup]. *)
Definition unpack3 (tup : list value) : result (value * value * value) :=
  match tup with
  | [a; b; c] => Ok (a, b, c)
  | _ => Raise ValueError
  end.

(** [a, b, c, d = tup]. *)
Definition unpack4 (tup : list value) : result (value * value * value * value) :=
  match tup with
  | [a; b; c; d] => Ok (a, b, c, d)
  | _ => Raise ValueError
  end.

(** [torch.stack(sol)] of a Python list: every entry must be a tensor. *)
Fixpoint tensors_of (sol : list value) : result (list Tensor) :=
  match sol with
  | [] => Ok []
  | v :: sol' =>
      x <- as_tensor v ;;
      xs <- tensors_of sol' ;;
      Ok (x :: xs)
  end.

(** ** Vector fields and solver objects *)

Definition VField : Type := R -> Tensor -> Tensor.

Inductive stepping : Type := fixed | adaptive.

(** What the drivers read from a solver object: the attributes set by
    [SolverTemplate.__init__] and the subclass, and the bound method [step]
    called as [step(f, x, t, dt, k1)].  Any object with these attributes is
    a solver for the drivers. *)
Record Solver : Type := mkSolver {
  order : nat;
  stepping_class : stepping;
  min_factor : R;
  max_factor : R;
  safety : R;
  step : VField -> value -> R -> R -> value -> result (list value)
}.

(** [SolverTemplate.__init__(order, min_factor=0.2, max_factor=10., safety=0.9)]. *)
Definition SolverTemplate (order : nat) (cls : stepping)
    (step : VField -> value -> R -> R -> value -> result (list value)) : Solver :=
  mkSolver order cls (2 / 10) 10 (9 / 10) step.

(** [if k1 == None: k1 = f(t, x)]. *)
Definition first_stage (f : VField) (t : R) (x : Tensor) (k1 : value) : result Tensor :=
  match k1 with
  | VNone => Ok (f t x)
  | _ => as_tensor k1
  end.

(** [Euler.step].  With [x = None] the source calls [f(t, None)] first,
    which may raise an exception of its own, and raises a [TypeError] at
    [x + dt * k1] when [f] comes back.  A vector field is a function of
    tensors here, and the exception recorded for [x = None] is the
    [TypeError]. *)
Definition Euler_step (f : VField) (x : value) (t dt : R) (k1 : value)
    : result (list value) :=
  x <- as_tensor x ;;
  k1 <- first_stage f t x k1 ;;
  let x_sol := (x + dt .* k1)%T in
  Ok [VNone; VNone; VTensor x_sol].

Definition Euler : Solver := SolverTemplate 1 fixed Euler_step.

(** A Butcher tableau [(c, a, bsol, berr)] as the [construct_*] routines of
    [torchdyn/numerics/_constants.py] return it.  That module is not part of
    the sources at hand, so the tableau is an argument of the solvers that
    use one. *)
Record Tableau : Type := mkTableau {
  tab_c : list R;
  tab_a : list (list R);
  tab_bsol : list R;
  tab_berr : list R
}.

Section WithTableau.
Variable tab : Tableau.

Definition c_ (i : nat) : R := nth i (tab_c tab) 0.
Definition a_ (i j : nat) : R := nth j (nth i (tab_a tab) []) 0.
Definition bsol_ (i : nat) : R := nth i (tab_bsol tab) 0.
Definition berr_ (i : nat) : R := nth i (tab_berr tab) 0.

(** [RungeKutta4.step].  With [x = None], as for [Euler.step]: the
    exception recorded is the [TypeError] of [x + dt * ...], which the source
    reaches when [f(t, None)] comes back. *)
Definition RungeKutta4_step (f : VField) (x : value) (t dt : R) (k1 : value)
    : result (list value) :=
  x <- as_tensor x ;;
  k1 <- first_stage f t x k1 ;;
  let k2 := f (t + c_ 0 * dt) (x + dt .* (a_ 0 0 .* k1))%T in
  let k3 := f (t + c_ 1 * dt) (x + dt .* (a_ 1 0 .* k1 + a_ 1 1 .* k2))%T in
  let k4 := f (t + c_ 2 * dt)
              (x + dt .* (a_ 2 0 .* k1 + a_ 2 1 .* k2 + a_ 2 2 .* k3))%T in
  let x_sol :=
    (x + dt .* (bsol_ 0 .* k1 + bsol_ 1 .* k2 + bsol_ 2 .* k3 + bsol_ 3 .* k4))%T in
  Ok [VNone; VNone; VTensor x_sol].

Definition RungeKutta4 : Solver := SolverTemplate 4 fixed RungeKutta4_step.

(** The seven stages of [DormandPrince45.step] and [Tsitouras45.step]. *)
Definition stage2 (f : VField) (x : Tensor) (t dt : R) (k1 : Tensor) : Tensor :=
  f (t + c_ 0 * dt) (x + (dt * a_ 0 0) .* k1)%T.
Definition stage3 (f : VField) (x : Tensor) (t dt : R) (k1 k2 : Tensor) : Tensor :=
  f (t + c_ 1 * dt) (x + dt .* (a_ 1 0 .* k1 + a_ 1 1 .* k2))%T.
Definition stage4 (f : VField) (x : Tensor) (t dt : R) (k1 k2 k3 : Tensor) : Tensor :=
  f (t + c_ 2 * dt)
    (x + (dt * a_ 2 0) .* k1 + (dt * a_ 2 1) .* k2 + (dt * a_ 2 2) .* k3)%T.
Definition stage5 (f : VField) (x : Tensor) (t dt : R) (k1 k2 k3 k4 : Tensor)
    : Tensor :=
  f (t + c_ 3 * dt)
    (x + (dt * a_ 3 0) .* k1 + (dt * a_ 3 1) .* k2 + (dt * a_ 3 2) .* k3
       + (dt * a_ 3 3) .* k4)%T.
Definition stage6 (f : VField) (x : Tensor) (t dt : R) (k1 k2 k3 k4 k5 : Tensor)
    : Tensor :=
  f (t + c_ 4 * dt)
    (x + (dt * a_ 4 0) .* k1 + (dt * a_ 4 1) .* k2 + (dt * a_ 4 2) .* k3
       + (dt * a_ 4 3) .* k4 + (dt * a_ 4 4) .* k5)%T.
Definition stage7 (f : VField) (x : Tensor) (t dt : R) (k1 k2 k3 k4 k5 k6 : Tensor)
    : Tensor :=
  f (t + c_ 5 * dt)
    (x + (dt * a_ 5 0) .* k1 + (dt * a_ 5 1) .* k2 + (dt * a_ 5 2) .* k3
       + (dt * a_ 5 3) .* k4 + (dt * a_ 5 4) .* k5 + (dt * a_ 5 5) .* k6)%T.

(** [x + dt * (bsol[0] * k1 + ... + bsol[5] * k6)]. *)
Definition solution_row (x : Tensor) (dt : R) (k1 k2 k3 k4 k5 k6 : Tensor) : Tensor :=
  (x + dt .* (bsol_ 0 .* k1 + bsol_ 1 .* k2 + bsol_ 2 .* k3 + bsol_ 3 .* k4
              + bsol_ 4 .* k5 + bsol_ 5 .* k6))%T.

(** [x + dt * (berr[0] * k1 + ... + berr[6] * k7)]. *)
Definition error_row (x : Tensor) (dt : R) (k1 k2 k3 k4 k5 k6 k7 : Tensor) : Tensor :=
  (x + dt .* (berr_ 0 .* k1 + berr_ 1 .* k2 + berr_ 2 .* k3 + berr_ 3 .* k4
              + berr_ 4 .* k5 + berr_ 5 .* k6 + berr_ 6 .* k7))%T.

(** [DormandPrince45.step]: returns [k7, x_sol, x_err]. *)
Definition DormandPrince45_step (f : VField) (x : value) (t dt : R) (k1 : value)
    : result (list value) :=
  x <- as_tensor x ;;
  k1 <- first_stage f t x k1 ;;
  let k2 := stage2 f x t dt k1 in
  let k3 := stage3 f x t dt k1 k2 in
  let k4 := stage4 f x t dt k1 k2 k3 in
  let k5 := stage5 f x t dt k1 k2 k3 k4 in
  let k6 := stage6 f x t dt k1 k2 k3 k4 k5 in
  let k7 := stage7 f x t dt k1 k2 k3 k4 k5 k6 in
  let x_sol := solution_row x dt k1 k2 k3 k4 k5 k6 in
  let x_err := error_row x dt k1 k2 k3 k4 k5 k6 k7 in
  Ok [VTensor k7; VTensor x_sol; VTensor x_err].

Definition DormandPrince45 : Solver := SolverTemplate 6 adaptive DormandPrince45_step.

(** [Tsitouras45.step] has the body of [DormandPrince45.step]; its
    tableau is another one. *)
Definition Tsitouras45_step : VField -> value -> R -> R -> value -> result (list value) :=
  DormandPrince45_step.

Definition Tsitouras45 : Solver := SolverTemplate 6 adaptive Tsitouras45_step.
End WithTableau.

(** ** The fixed-step driver *)

(** The body of [while steps <= len(t_span) - 1] in [_fixed_odeint], run [n]
    times:
<<
    _, x, _ = solver.step(f, x, t, dt)
    sol.append(x)
    t = t + dt
    if steps < len(t_span) - 1: dt = t_span[steps+1] - t
    steps += 1
>>
    [steps] grows by one per round, so the loop runs [len(t_span) - steps]
    more rounds. *)
Fixpoint fixed_loop (n : nat) (f : VField) (solver : Solver) (t_span : list R)
    (x : value) (t dt : R) (steps : nat) (sol : list value) : result (list value) :=
  match n with
  | O => Ok sol
  | S n' =>
      tup <- step solver f x t dt VNone ;;
      '(_, x, _) <- unpack3 tup ;;
      let sol := sol ++ [x] in
      let t := t + dt in
      dt <- (if (steps <? length t_span - 1)%nat
             then (t1 <- idx t_span (steps + 1) ;; Ok (t1 - t))
             else Ok dt) ;;
      fixed_loop n' f solver t_span x t dt (S steps) sol
  end.

(** [_fixed_odeint(f, x, t_span, solver)]. *)
Definition _fixed_odeint (f : VField) (x : value) (t_span : list R) (solver : Solver)
    : result (list R * list Tensor) :=
  t <- idx t_span 0 ;;
  _ <- idx_last t_span ;;
  t1 <- idx t_span 1 ;;
  let dt := t1 - t in
  sol <- fixed_loop (length t_span - 1) f solver t_span x t dt 1 [x] ;;
  states <- tensors_of sol ;;
  Ok (t_span, states).

(** ** Helpers of [torchdyn/numerics/utils.py]

    [hairer_norm], [adapt_step], [init_step] and [EventState] are imported
    from a module that is not part of the sources at hand. *)

(** Modelled from the spec: [hairer_norm] of [torchdyn.numerics.utils] is
    missing; the spec (section 4.G, step 4) gives it as the Hairer RMS norm
    [sqrt(mean(e_i^2))] of the scaled error.  (A mean over no entries is NaN
    in floating point and [0] here; such steps are not [regular_error].) *)
Definition hairer_norm (e : Tensor) : R :=
  sqrt (tmean (tmap (fun v => v * v) e)).

(** Modelled from the spec: [adapt_step] of [torchdyn.numerics.utils] is
    missing; the spec (section 4.C) gives
    [factor = safety * r^(-1/order)], clamped to [[min_factor, max_factor]],
    and [dt_new = dt * factor].  At [r = 0] the power [r^(-1/order)] is
    infinite and the clamp leaves [max_factor]. *)
Definition step_factor (error_ratio safety min_factor max_factor : R) (order : nat) : R :=
  if Reqb error_ratio 0
  then max_factor
  else Rmin max_factor (Rmax min_factor (safety * Rpower error_ratio (- / INR order))).

(** Modelled from the spec: [adapt_step(dt, error_ratio, safety, min_factor,
    max_factor, order)] of [torchdyn.numerics.utils] is missing; by the spec
    (section 4.C) it is [dt * factor]. *)
Definition adapt_step (dt error_ratio safety min_factor max_factor : R) (order : nat) : R :=
  dt * step_factor error_ratio safety min_factor max_factor order.

(** The signature of [init_step(f, k1, x, t, order, atol, rtol)]; the
    heuristic itself is an argument of the entry points below. *)
Definition InitStep : Type := VField -> Tensor -> Tensor -> R -> nat -> R -> R -> R.

(** What the adaptive driver uses of an interpolator object (module
    [torchdyn/numerics/interpolators.py], not part of the sources at hand):
    the midpoint weights [bmid], [fit(dt, f0, f1, x0, x1, x_mid)] and
    [evaluate(coefs, t0, t1, t)]. *)
Record Interpolator : Type := mkInterpolator {
  bmid : list R;
  fit : R -> value -> value -> Tensor -> Tensor -> Tensor -> list Tensor;
  evaluate : list Tensor -> R -> R -> R -> Tensor
}.

(** ** The error ratio of a trial step

<<
    if seminorm[0] == True:
        state_dim = seminorm[1]
        error = x_err[:state_dim]
        error_scaled = error / (atol + rtol * torch.max(x[:state_dim].abs(), x_new[:state_dim].abs()))
    else:
        error = x_err
        error_scaled = error / (atol + rtol * torch.max(x.abs(), x_new.abs()))
    error_ratio = hairer_norm(error_scaled)
>> *)

Definition Seminorm : Type := (bool * option Z)%type.

(** [error / (atol + rtol * torch.max(x.abs(), x_new.abs()))].  (A division
    by a zero scale is an infinity or NaN in floating point and [0] here;
    such steps are not [regular_error].) *)
Definition scale_error (atol rtol : R) (x x_new error : Tensor) : Tensor :=
  tdiv error (tshift atol (tscale rtol (tmax (tabs x) (tabs x_new)))).

Definition error_scaled (seminorm : Seminorm) (atol rtol : R) (x x_new x_err : Tensor)
    : result Tensor :=
  if fst seminorm
  then
    let state_dim := snd seminorm in
    error <- slice0 state_dim x_err ;;
    xs <- slice0 state_dim x ;;
    xs_new <- slice0 state_dim x_new ;;
    Ok (scale_error atol rtol xs xs_new error)
  else
    Ok (scale_error atol rtol x x_new x_err).

Definition error_ratio (seminorm : Seminorm) (atol rtol : R) (x x_new x_err : Tensor)
    : result R :=
  e <- error_scaled seminorm atol rtol x x_new x_err ;;
  Ok (hairer_norm e).

(** ** The adaptive driver *)

(** The arguments of [_adaptive_odeint] that a run does not change. *)
Record AdaptiveConfig : Type := mkAdaptiveConfig {
  cfg_f : VField;
  cfg_t_span : list R;
  cfg_solver : Solver;
  cfg_atol : R;
  cfg_rtol : R;
  cfg_interpolator : option Interpolator;
  cfg_return_all_eval : bool;
  cfg_seminorm : Seminorm
}.

(** [t_eval = t_span[1:]]. *)
Definition t_eval_of (t_span : list R) : list R := tl t_span.

(** The local variables of the [while t < T] loop. *)
Record AdaptiveState : Type := mkAdaptiveState {
  a_t : R;
  a_x : Tensor;
  a_dt : R;
  a_k1 : value;
  a_ckpt_counter : nat;
  a_ckpt_flag : bool;
  a_dt_old : R;
  a_eval_times : list R;
  a_sol : list Tensor
}.

(** [if t + dt > T: dt = T - t].  (In floating point [t + (T - t)] can
    differ from [T] in the last place.) *)
Definition clamp_dt (t dt T : R) : R :=
  if Rltb T (t + dt) then T - t else dt.

(** [(ckpt_counter < len(t_eval)) and (t + dt > t_eval[ckpt_counter])]. *)
Definition checkpoint_ahead (t_eval : list R) (ckpt_counter : nat) (t dt : R) : bool :=
  match nth_error t_eval ckpt_counter with
  | Some tau => Rltb tau (t + dt)
  | None => false
  end.

(** The checkpointing block before the trial step: the step size, the
    flag and the saved step size after it. *)
Definition clip_to_checkpoint (interpolator : option Interpolator) (t_eval : list R)
    (ckpt_counter : nat) (t dt : R) (ckpt_flag : bool) (dt_old : R) : R * bool * R :=
  if checkpoint_ahead t_eval ckpt_counter t dt
  then match interpolator with
       | None => (nth ckpt_counter t_eval 0 - t, true, dt)
       | Some _ => (dt, ckpt_flag, dt_old)
       end
  else (dt, ckpt_flag, dt_old).

(** [sum([interpolator.bmid[i] * stages[i] for i in range(len(stages))])],
    with weights [bmid[i:]] for the stages that are left ([bmid] has a weight
    for every stage). *)
Fixpoint weighted_stages (z : Tensor) (w : list R) (stages : list Tensor) : Tensor :=
  match stages with
  | [] => z
  | k :: stages' => weighted_stages (z + hd 0 w .* k)%T (tl w) stages'
  end.

(** The inner loop of the accepted branch when an interpolator is given:
<<
    while (ckpt_counter < len(t_eval)) and (t + dt > t_eval[ckpt_counter]):
        ...
        x_in = interpolator.evaluate(coefs, t0, t1, t_eval[ckpt_counter])
        sol.append(x_in)
        eval_times.append(t_eval[ckpt_counter][None])
        ckpt_counter += 1
>>
    [n] bounds the rounds by the checkpoints that are left. *)
Fixpoint interpolate_checkpoints (n : nat) (ev : R -> Tensor) (t_eval : list R)
    (t dt : R) (ckpt_counter : nat) (eval_times : list R) (sol : list Tensor)
    : nat * list R * list Tensor :=
  match n with
  | O => (ckpt_counter, eval_times, sol)
  | S n' =>
      if checkpoint_ahead t_eval ckpt_counter t dt
      then
        let tau := nth ckpt_counter t_eval 0 in
        interpolate_checkpoints n' ev t_eval t dt (S ckpt_counter)
          (eval_times ++ [tau]) (sol ++ [ev tau])
      else (ckpt_counter, eval_times, sol)
  end.

(** The accepted branch of the loop body. *)
Definition accept_trial (cfg : AdaptiveConfig) (st : AdaptiveState) (dt : R)
    (f_new : value) (x_new : Tensor) (stages : value)
    : result (R * Tensor * value * nat * list R * list Tensor) :=
  let t_eval := t_eval_of (cfg_t_span cfg) in
  let t := a_t st in
  let x := a_x st in
  '(ckpt_counter, eval_times, sol) <-
     match cfg_interpolator cfg with
     | None => Ok (a_ckpt_counter st, a_eval_times st, a_sol st)
     | Some interpolator =>
         if checkpoint_ahead t_eval (a_ckpt_counter st) t dt
         then
           stages <- as_stages stages ;;
           let x_mid :=
             (x + dt .* weighted_stages (zeros_like x) (bmid interpolator) stages)%T in
           let coefs := fit interpolator dt (a_k1 st) f_new x x_new x_mid in
           Ok (interpolate_checkpoints (length t_eval - a_ckpt_counter st)
                 (evaluate interpolator coefs t (t + dt)) t_eval t dt
                 (a_ckpt_counter st) (a_eval_times st) (a_sol st))
         else Ok (a_ckpt_counter st, a_eval_times st, a_sol st)
     end ;;
  tau <- idx t_eval ckpt_counter ;;
  let on_grid := Reqb (t + dt) tau in
  let '(ckpt_counter, eval_times, sol) :=
     if on_grid || cfg_return_all_eval cfg
     then ((if on_grid then S ckpt_counter else ckpt_counter),
           eval_times ++ [t + dt], sol ++ [x_new])
     else (ckpt_counter, eval_times, sol) in
  Ok (t + dt, x_new, f_new, ckpt_counter, eval_times, sol).

(** The step size of the trial step, with the flag and the saved step size:
    the clamp to [T] and the checkpointing block. *)
Definition trial_setup (cfg : AdaptiveConfig) (T : R) (st : AdaptiveState)
    : R * bool * R :=
  clip_to_checkpoint (cfg_interpolator cfg) (t_eval_of (cfg_t_span cfg))
    (a_ckpt_counter st) (a_t st) (clamp_dt (a_t st) (a_dt st) T)
    (a_ckpt_flag st) (a_dt_old st).

Definition trial_dt (cfg : AdaptiveConfig) (T : R) (st : AdaptiveState) : R :=
  fst (fst (trial_setup cfg T st)).

(** [f_new, x_new, x_err, stages = solver.step(f, x, t, dt, k1=k1)], with
    [x_err] and [x_new] used as tensors by the error block. *)
Definition trial_step (cfg : AdaptiveConfig) (T : R) (st : AdaptiveState)
    : result (value * Tensor * Tensor * value) :=
  tup <- step (cfg_solver cfg) (cfg_f cfg) (VTensor (a_x st)) (a_t st)
           (trial_dt cfg T st) (a_k1 st) ;;
  '(f_new, x_new, x_err, stages) <- unpack4 tup ;;
  x_err <- as_tensor x_err ;;
  x_new <- as_tensor x_new ;;
  Ok (f_new, x_new, x_err, stages).

(** One round of [while t < T] in [_adaptive_odeint]. *)
Definition adaptive_iter (cfg : AdaptiveConfig) (T : R) (st : AdaptiveState)
    : result AdaptiveState :=
  let solver := cfg_solver cfg in
  let '(dt, ckpt_flag, dt_old) := trial_setup cfg T st in
  '(f_new, x_new, x_err, stages) <- trial_step cfg T st ;;
  error_ratio <- error_ratio (cfg_seminorm cfg) (cfg_atol cfg) (cfg_rtol cfg)
                   (a_x st) x_new x_err ;;
  let accept_step := Rleb error_ratio 1 in
  '(t, x, k1, ckpt_counter, eval_times, sol) <-
     (if accept_step
      then accept_trial cfg st dt f_new x_new stages
      else Ok (a_t st, a_x st, a_k1 st, a_ckpt_counter st, a_eval_times st, a_sol st)) ;;
  let dt := if ckpt_flag then dt_old - dt else dt in
  let dt := adapt_step dt error_ratio (safety solver) (min_factor solver)
              (max_factor solver) (order solver) in
  Ok (mkAdaptiveState t x dt k1 ckpt_counter false dt_old eval_times sol).

(** [while t < T: ...], with fuel. *)
Fixpoint adaptive_loop (fuel : nat) (cfg : AdaptiveConfig) (T : R) (st : AdaptiveState)
    : result AdaptiveState :=
  if Rltb (a_t st) T
  then match fuel with
       | O => Diverge
       | S fuel' =>
           st' <- adaptive_iter cfg T st ;;
           adaptive_loop fuel' cfg T st'
       end
  else Ok st.

(** [_adaptive_odeint(f, k1, x, dt, t_span, solver, atol, rtol, interpolator,
    return_all_eval, seminorm)]: [t] starts as [t_span[:1]], and the result is
    [torch.cat(eval_times), torch.stack(sol)]. *)
Definition _adaptive_odeint (fuel : nat) (cfg : AdaptiveConfig) (k1 : value)
    (x : Tensor) (dt : R) : result (list R * list Tensor) :=
  let t_span := cfg_t_span cfg in
  T <- idx_last t_span ;;
  t <- idx t_span 0 ;;
  st <- adaptive_loop fuel cfg T (mkAdaptiveState t x dt k1 0 false 0 [t] [x]) ;;
  Ok (a_eval_times st, a_sol st).

(** ** [odeint] *)

(** [f_ = lambda t, x: -f(-t, x)]. *)
Definition reverse_field (f : VField) : VField := fun t x => tneg (f (- t) x).

(** [-t_span]. *)
Definition negate_span (t_span : list R) : list R := map Ropp t_span.

(** [t_span[1] < t_span[0]]. *)
Definition time_reversed (t_span : list R) : result bool :=
  t1 <- idx t_span 1 ;;
  t0 <- idx t_span 0 ;;
  Ok (Rltb t1 t0).

(** [odeint(f, x, t_span, solver, atol, rtol, t_stops, verbose, interpolator,
    return_all_eval, seminorm)] for a solver object and a one-dimensional
    [t_span] ([sync_device_dtype] moves data between devices and changes no
    value; [t_stops] and [verbose] have no effect on the result). *)
Definition odeint (init_step : InitStep) (fuel : nat) (f : VField) (x : Tensor)
    (t_span : list R) (solver : Solver) (atol rtol : R)
    (interpolator : option Interpolator) (return_all_eval : bool)
    (seminorm : Seminorm) : result (list R * list Tensor) :=
  rev <- time_reversed t_span ;;
  let f_ := if rev then reverse_field f else f in
  let t_span := if rev then negate_span t_span else t_span in
  match stepping_class solver with
  | fixed => _fixed_odeint f_ (VTensor x) t_span solver
  | adaptive =>
      t <- idx t_span 0 ;;
      let k1 := f_ t x in
      let dt := init_step f k1 x t (order solver) atol rtol in
      _adaptive_odeint fuel
        (mkAdaptiveConfig f_ t_span solver atol rtol interpolator return_all_eval seminorm)
        (VTensor k1) x dt
  end.

(** ** Multiple shooting: [MSZero.root_solve] and [odeint_mshooting] *)

(** A multiple-shooting solver object: its two nested solvers. *)
Record MShootingSolver : Type := mkMShootingSolver {
  coarse_method : Solver;
  fine_method : Solver
}.

(** [MSZero(coarse_method='euler', fine_method='rk4')], its defaults. *)
Definition MSZero_default (rk4 : Tableau) : MShootingSolver :=
  mkMShootingSolver Euler (RungeKutta4 rk4).

Definition OdeintFunc : Type :=
  VField -> value -> list R -> Solver -> result (list R * list Tensor).

(** [torch.linspace(a, b, n)]. *)
Definition linspace (a b : R) (n : nat) : list R :=
  map (fun k => a + (b - a) * INR k / INR (n - 1)) (seq 0 n).

(** [l[-1]] of a list of tensors. *)
Definition last_state (l : list Tensor) : result Tensor :=
  match l with
  | [] => Raise IndexError
  | x :: l' => Ok (last l' x)
  end.

(** [odeint_func(f, x, sub_t_span, solver=solver)[1][-1]]. *)
Definition propagate (odeint_func : OdeintFunc) (f : VField) (sub_t_span : list R)
    (solver : Solver) (x : Tensor) : result Tensor :=
  r <- odeint_func f (VTensor x) sub_t_span solver ;;
  last_state (snd r).

Section RootSolve.
Variable odeint_func : OdeintFunc.
Variable ms : MShootingSolver.
Variable f : VField.
Variable sub_t_span : list R.

(** [for m in range(i, n_subinterv)], over the values of [m] that are left:
<<
    B_in = odeint_func(f, B_in, sub_t_span, solver=self.coarse_method)[1][-1]
    B_in = B_in - B_coarse[m-i] + B_fine[m-i]
    B_out[m] = B_in
>> *)
Fixpoint sweep (range : list nat) (i : nat) (B_coarse B_fine B_in B_out : Tensor)
    : result Tensor :=
  match range with
  | [] => Ok B_out
  | m :: range' =>
      B_in <- propagate odeint_func f sub_t_span (coarse_method ms) B_in ;;
      bc <- row (m - i) B_coarse ;;
      bf <- row (m - i) B_fine ;;
      let B_in := (B_in - bc + bf)%T in
      B_out <- set_row m B_in B_out ;;
      sweep range' i B_coarse B_fine B_in B_out
  end.

(** One round of the [while] loop of [root_solve], [i] already incremented. *)
Definition round (n_subinterv i : nat) (B : Tensor) : result Tensor :=
  Bi <- slice_from (i - 1) B ;;
  B_coarse <- propagate odeint_func f sub_t_span (coarse_method ms) Bi ;;
  B_fine <- propagate odeint_func f sub_t_span (fine_method ms) Bi ;;
  let B_out := set_prefix i B (zeros_like B) in
  B_in <- row (i - 1) B ;;
  sweep (seq i (n_subinterv - i)) i B_coarse B_fine B_in B_out.

(** [i = 0; while i <= maxiter: i += 1; ...], with fuel; returns the last
    [i] with [B]. *)
Fixpoint root_solve_loop (fuel maxiter n_subinterv i : nat) (B : Tensor)
    : result (nat * Tensor) :=
  if (i <=? maxiter)%nat
  then match fuel with
       | O => Diverge
       | S fuel' =>
           B' <- round n_subinterv (S i) B ;;
           root_solve_loop fuel' maxiter n_subinterv (S i) B'
       end
  else Ok (i, B).
End RootSolve.

(** [MSZero.root_solve(odeint_func, f, x, t_span, B, fine_steps, maxiter)]. *)
Definition root_solve (ms : MShootingSolver) (odeint_func : OdeintFunc) (f : VField)
    (x : Tensor) (t_span : list R) (B : Tensor) (fine_steps maxiter : nat)
    : result Tensor :=
  t1 <- idx t_span 1 ;;
  t0 <- idx t_span 0 ;;
  let dt := t1 - t0 in
  let n_subinterv := (length t_span - 1)%nat in
  let sub_t_span := linspace 0 dt fine_steps in
  r <- root_solve_loop odeint_func ms f sub_t_span (S maxiter) maxiter n_subinterv 0 B ;;
  Ok (snd r).

(** [odeint_mshooting(f, x, t_span, solver, B0=None, fine_steps=2, maxiter=4)]
    for a solver object; [odeint] is called with its default tolerances. *)
Definition odeint_mshooting (init_step : InitStep) (fuel : nat) (f : VField) (x : Tensor)
    (t_span : list R) (solver : MShootingSolver) (B0 : option Tensor)
    (fine_steps maxiter : nat) : result (list R * Tensor) :=
  B0 <- match B0 with
        | Some B0 => Ok B0
        | None =>
            r <- odeint init_step fuel f x t_span (coarse_method solver)
                   (1 / 1000) (1 / 1000) None false (false, None) ;;
            Ok (stack (snd r))
        end ;;
  B <- root_solve solver _fixed_odeint f x t_span B0 fine_steps maxiter ;;
  Ok (t_span, B).

(** ** The hybrid driver *)

(** An event callback: [check_event(t, x)] and [jump_map(t, x)]. *)
Record Callback : Type := mkCallback {
  check_event : R -> Tensor -> bool;
  jump_map : R -> Tensor -> Tensor
}.

(** [EventState([cb.check_event(t, x) for cb in callbacks]).evid]. *)
Definition check_events (callbacks : list Callback) (t : R) (x : Tensor) : list bool :=
  map (fun cb => check_event cb t x) callbacks.

(** [sum([(a_ != b_) & (b_ == False) for a_, b_ in zip(new.evid, old.evid)])]. *)
Definition triggered_events (new old : list bool) : nat :=
  length (filter (fun ab => xorb (fst ab) (snd ab) && negb (snd ab)) (combine new old)).

(** [min([i for i, idx in enumerate(evid) if idx == True])]: [min] of an
    empty list raises [ValueError]. *)
Fixpoint first_true (evid : list bool) : result nat :=
  match evid with
  | [] => Raise ValueError
  | true :: _ => Ok O
  | false :: evid' => i <- first_true evid' ;; Ok (S i)
  end.

Record HybridConfig : Type := mkHybridConfig {
  hcfg_f : VField;
  hcfg_t_span : list R;
  hcfg_j_span : nat;
  hcfg_solver : Solver;
  hcfg_callbacks : list Callback;
  hcfg_atol : R;
  hcfg_rtol : R;
  hcfg_event_tol : R;
  hcfg_priority_jump : bool;
  hcfg_seminorm : Seminorm
}.

(** The local variables of the outer loop of [odeint_hybrid]. *)
Record HybridState : Type := mkHybridState {
  h_t : R;
  h_x : Tensor;
  h_dt : R;
  h_k1 : value;
  h_ckpt_counter : nat;
  h_ckpt_flag : bool;
  h_dt_old : R;
  h_jnum : nat;
  h_eval_times : list R;
  h_sol : list Tensor
}.

(** The local variables of the bisection loop. *)
Record Bisection : Type := mkBisection {
  b_dt_inner : R;
  b_t_inner : R;
  b_x_inner : Tensor;
  b_k1 : value;
  b_niters : nat;
  b_new_event_states : list bool
}.

Definition max_iters : nat := 100.

(** The body of the bisection loop:
<<
    dt_inner = dt_inner / 2
    f_new, x_, x_err, _ = solver.step(f, x_inner, t_inner, dt_inner, k1=k1)
    new_event_states = EventState([cb.check_event(t_inner + dt_inner, x_) for cb in callbacks])
    triggered_events = sum(...)
    niters = niters + 1
    if triggered_events == 0:
        x_inner = x_; t_inner = t_inner + dt_inner; dt_inner = dt; k1 = f_new
>> *)
Definition bisect_iter (cfg : HybridConfig) (event_states : list bool) (dt : R)
    (b : Bisection) : result Bisection :=
  let dt_inner := b_dt_inner b / 2 in
  tup <- step (hcfg_solver cfg) (hcfg_f cfg) (VTensor (b_x_inner b)) (b_t_inner b)
           dt_inner (b_k1 b) ;;
  '(f_new, x_, _, _) <- unpack4 tup ;;
  x_ <- as_tensor x_ ;;
  let new_event_states :=
    check_events (hcfg_callbacks cfg) (b_t_inner b + dt_inner) x_ in
  let triggered := triggered_events new_event_states event_states in
  let niters := S (b_niters b) in
  if (triggered =? 0)%nat
  then Ok (mkBisection dt (b_t_inner b + dt_inner) x_ f_new niters new_event_states)
  else Ok (mkBisection dt_inner (b_t_inner b) (b_x_inner b) (b_k1 b) niters
             new_event_states).

(** [while niters < max_iters and event_tol < dt_inner: ...], with fuel. *)
Fixpoint bisect_loop (fuel : nat) (cfg : HybridConfig) (event_states : list bool)
    (dt : R) (b : Bisection) : result Bisection :=
  if (b_niters b <? max_iters)%nat && Rltb (hcfg_event_tol cfg) (b_dt_inner b)
  then match fuel with
       | O => Diverge
       | S fuel' =>
           b' <- bisect_iter cfg event_states dt b ;;
           bisect_loop fuel' cfg event_states dt b'
       end
  else Ok b.

(** The checkpointing block of [odeint_hybrid]:
<<
    if (ckpt_counter < len(t_eval)) and (t + dt > t_eval[ckpt_counter]):
        dt_old, ckpt_flag = dt, True
        dt = t_eval[ckpt_counter] - t
        ckpt_counter += 1
>>
    The step size, the flag, the saved step size and the counter after it. *)
Definition hybrid_checkpoint (t_eval : list R) (ckpt_counter : nat) (t dt : R)
    (ckpt_flag : bool) (dt_old : R) : R * bool * R * nat :=
  if checkpoint_ahead t_eval ckpt_counter t dt
  then (nth ckpt_counter t_eval 0 - t, true, dt, S ckpt_counter)
  else (dt, ckpt_flag, dt_old, ckpt_counter).

(** The branch [if triggered_events > 0] of the outer loop: bisection, the
    samples before and after the jump, [k1 = None] and [dt = dt_pre]. *)
Definition hybrid_event (cfg : HybridConfig) (event_states : list bool)
    (st : HybridState) (dt : R) (ckpt_counter : nat) (ckpt_flag : bool) (dt_old : R)
    (new_event_states : list bool) : result HybridState :=
  let dt_pre := dt in
  b <- bisect_loop max_iters cfg event_states dt
         (mkBisection dt (h_t st) (h_x st) (h_k1 st) 0 new_event_states) ;;
  let x := b_x_inner b in
  let t := b_t_inner b in
  i <- first_true (b_new_event_states b) ;;
  cb <- match nth_error (hcfg_callbacks cfg) i with
        | Some cb => Ok cb
        | None => Raise IndexError
        end ;;
  let sol := h_sol st ++ [x] in
  let eval_times := h_eval_times st ++ [t] in
  let x := jump_map cb t x in
  let sol := sol ++ [x] in
  let eval_times := eval_times ++ [t] in
  Ok (mkHybridState t x dt_pre VNone ckpt_counter ckpt_flag dt_old (h_jnum st)
        eval_times sol).

(** The [else] branch: error control and step-size adaptation. *)
Definition hybrid_control (cfg : HybridConfig) (st : HybridState) (dt : R)
    (ckpt_counter : nat) (ckpt_flag : bool) (dt_old : R)
    (f_new : value) (x_new : Tensor) (x_err : value) : result HybridState :=
  let solver := hcfg_solver cfg in
  let t := h_t st in
  let x := h_x st in
  x_err <- as_tensor x_err ;;
  error_ratio <- error_ratio (hcfg_seminorm cfg) (hcfg_atol cfg) (hcfg_rtol cfg)
                   x x_new x_err ;;
  let accept_step := Rleb error_ratio 1 in
  let '(t, x, k1, eval_times, sol) :=
    if accept_step
    then (t + dt, x_new, f_new, h_eval_times st ++ [t + dt], h_sol st ++ [x_new])
    else (t, x, h_k1 st, h_eval_times st, h_sol st) in
  let dt := if ckpt_flag then dt_old - dt else dt in
  let dt := adapt_step dt error_ratio (safety solver) (min_factor solver)
              (max_factor solver) (order solver) in
  Ok (mkHybridState t x dt k1 ckpt_counter false dt_old (h_jnum st) eval_times sol).

(** The step size of the trial step, with the flag, the saved step size and
    the checkpoint counter: the clamp to [T] and the checkpointing block. *)
Definition hybrid_setup (cfg : HybridConfig) (T : R) (st : HybridState)
    : R * bool * R * nat :=
  hybrid_checkpoint (t_eval_of (hcfg_t_span cfg)) (h_ckpt_counter st) (h_t st)
    (clamp_dt (h_t st) (h_dt st) T) (h_ckpt_flag st) (h_dt_old st).

Definition hybrid_trial_dt (cfg : HybridConfig) (T : R) (st : HybridState) : R :=
  fst (fst (fst (hybrid_setup cfg T st))).

(** [f_new, x_new, x_err, _ = solver.step(f, x, t, dt, k1=k1)];
    [check_event] is then called on the trial state, a tensor. *)
Definition hybrid_trial (cfg : HybridConfig) (T : R) (st : HybridState)
    : result (value * Tensor * value) :=
  tup <- step (hcfg_solver cfg) (hcfg_f cfg) (VTensor (h_x st)) (h_t st)
           (hybrid_trial_dt cfg T st) (h_k1 st) ;;
  '(f_new, x_new, x_err, _) <- unpack4 tup ;;
  x_new <- as_tensor x_new ;;
  Ok (f_new, x_new, x_err).

(** One round of [while t < T and jnum < j_span] in [odeint_hybrid]. *)
Definition hybrid_iter (cfg : HybridConfig) (T : R) (event_states : list bool)
    (st : HybridState) : result HybridState :=
  let '(dt, ckpt_flag, dt_old, ckpt_counter) := hybrid_setup cfg T st in
  '(f_new, x_new, x_err) <- hybrid_trial cfg T st ;;
  let new_event_states := check_events (hcfg_callbacks cfg) (h_t st + dt) x_new in
  let triggered := triggered_events new_event_states event_states in
  if (0 <? triggered)%nat
  then hybrid_event cfg event_states st dt ckpt_counter ckpt_flag dt_old new_event_states
  else hybrid_control cfg st dt ckpt_counter ckpt_flag dt_old f_new x_new x_err.

(** [while t < T and jnum < j_span: ...], with fuel. *)
Fixpoint hybrid_loop (fuel : nat) (cfg : HybridConfig) (T : R) (event_states : list bool)
    (st : HybridState) : result HybridState :=
  if Rltb (h_t st) T && (h_jnum st <? hcfg_j_span cfg)%nat
  then match fuel with
       | O => Diverge
       | S fuel' =>
           st' <- hybrid_iter cfg T event_states st ;;
           hybrid_loop fuel' cfg T event_states st'
       end
  else Ok st.

(** The initial-jump block: [x] and [jnum] after it. *)
Definition initial_jump (cfg : HybridConfig) (event_states : list bool) (t : R)
    (x : Tensor) : result (Tensor * nat) :=
  if hcfg_priority_jump cfg
  then
    let new_event_states := check_events (hcfg_callbacks cfg) t x in
    if (0 <? triggered_events new_event_states event_states)%nat
    then
      i <- first_true new_event_states ;;
      cb <- match nth_error (hcfg_callbacks cfg) i with
            | Some cb => Ok cb
            | None => Raise IndexError
            end ;;
      Ok (jump_map cb t x, 1%nat)
    else Ok (x, 0%nat)
  else Ok (x, 0%nat).

(** [odeint_hybrid(f, x, t_span, j_span, solver, callbacks, atol, rtol,
    event_tol, priority, seminorm)] for a solver object. *)
Definition odeint_hybrid (init_step : InitStep) (fuel : nat) (cfg : HybridConfig)
    (x : Tensor) : result (list R * list Tensor) :=
  let t_span := hcfg_t_span cfg in
  let f := hcfg_f cfg in
  T <- idx_last t_span ;;
  t <- idx t_span 0 ;;
  let event_states := map (fun _ => false) (hcfg_callbacks cfg) in
  '(x, jnum) <- initial_jump cfg event_states t x ;;
  let k1 := f t x in
  let dt := init_step f k1 x t (order (hcfg_solver cfg)) (hcfg_atol cfg) (hcfg_rtol cfg) in
  st <- hybrid_loop fuel cfg T event_states
          (mkHybridState t x dt (VTensor k1) 0 false 0 jnum [t] [x]) ;;
  Ok (h_eval_times st, h_sol st).

(** ** Solver objects and vector fields used in the examples

    The drivers take any object with a [step] method.  The solvers of
    [solvers.py] return three values, with the state last for the fixed-step
    ones; [_fixed_odeint] reads the second of three values and the adaptive
    and hybrid drivers unpack four.  The two solvers below are caller-side
    objects that follow the drivers' conventions. *)

(** Explicit Euler returning [None, x_sol, None]. *)
Definition EulerSecond_step (f : VField) (x : value) (t dt : R) (k1 : value)
    : result (list value) :=
  x <- as_tensor x ;;
  k1 <- first_stage f t x k1 ;;
  Ok [VNone; VTensor (x + dt .* k1)%T; VNone].

Definition EulerSecond : Solver := SolverTemplate 1 fixed EulerSecond_step.

(** The Heun-Euler embedded pair returning [k2, x_new, x_err, (k1, k2)]:
    the Euler solution, the slope at its end and the difference
    [dt/2 * (k2 - k1)] to the Heun solution. *)
Definition HeunEuler_step (f : VField) (x : value) (t dt : R) (k1 : value)
    : result (list value) :=
  x <- as_tensor x ;;
  k1 <- first_stage f t x k1 ;;
  let x_new := (x + dt .* k1)%T in
  let k2 := f (t + dt) x_new in
  let x_err := ((dt / 2) .* (k2 - k1))%T in
  Ok [VTensor k2; VTensor x_new; VTensor x_err; VStages [k1; k2]].

Definition HeunEuler : Solver := SolverTemplate 2 adaptive HeunEuler_step.

(** [f(t, x) = 0] and [f(t, x) = c * x]. *)
Definition zero_field : VField := fun _ x => zeros_like x.
Definition linear_field (c : R) : VField := fun _ x => tscale c x.

(** An [init_step] that proposes [dt0]. *)
Definition first_step (dt0 : R) : InitStep := fun _ _ _ _ _ _ _ => dt0.

(** The grid the drivers run on: [-t_span] for a descending [t_span]. *)
Definition oriented_span (t_span : list R) : list R :=
  match time_reversed t_span with
  | Ok true => negate_span t_span
  | _ => t_span
  end.

(** What the loop [while t < T] of [_adaptive_odeint] keeps on the grid
    [t0 :: te]: the first time and the first state recorded are the initial
    ones, and without [return_all_eval] the times recorded are the requested
    times before the checkpoint counter. *)
Definition on_prefix (t0 : R) (te : list R) (x0 : Tensor) (return_all_eval : bool)
    (st : AdaptiveState) : Prop :=
  hd_error (a_eval_times st) = Some t0
  /\ hd_error (a_sol st) = Some x0
  /\ (return_all_eval = false ->
      a_eval_times st = t0 :: firstn (a_ckpt_counter st) te).

(** The error ratio of the trial step of a round. *)
Definition trial_error_ratio (cfg : AdaptiveConfig) (T : R) (st : AdaptiveState)
    : result R :=
  '(_, x_new, x_err, _) <- trial_step cfg T st ;;
  error_ratio (cfg_seminorm cfg) (cfg_atol cfg) (cfg_rtol cfg) (a_x st) x_new x_err.

(** The step size handed to [adapt_step] at the end of a round:
    [dt_old - dt] when the checkpoint flag is up, the trial [dt] otherwise. *)
Definition retry_base (cfg : AdaptiveConfig) (T : R) (st : AdaptiveState) : R :=
  let '(dt, ckpt_flag, dt_old) := trial_setup cfg T st in
  if ckpt_flag then dt_old - dt else dt.

(** The scale of the error block, [atol + rtol * max(|x|, |x_new|)]. *)
Definition error_scale (atol rtol : R) (x x_new : Tensor) : Tensor :=
  tshift atol (tscale rtol (tmax (tabs x) (tabs x_new))).

(** What the error block divides: the error estimate and the scale, of the
    slices [x_err[:d]], [x[:d]] and [x_new[:d]] when a seminorm is set. *)
Definition error_operands (seminorm : Seminorm) (atol rtol : R) (x x_new x_err : Tensor)
    : result (Tensor * Tensor) :=
  if fst seminorm
  then
    let state_dim := snd seminorm in
    error <- slice0 state_dim x_err ;;
    xs <- slice0 state_dim x ;;
    xs_new <- slice0 state_dim x_new ;;
    Ok (error, error_scale atol rtol xs xs_new)
  else
    Ok (x_err, error_scale atol rtol x x_new).

(** [y] has the shape and the number of entries of [x]. *)
Definition same_shape (x y : Tensor) : Prop :=
  shape y = shape x /\ length (data y) = length (data x).

(** The trial steps on which the error block computes a finite ratio, in
    floating point as in exact arithmetic: the new state and the error
    estimate have the shape of the state, there is an entry to take the mean
    over, and no entry of the scale is zero.  (Otherwise the program divides
    by zero or averages over nothing, its ratio is an infinity or NaN, and
    the comparison [error_ratio <= 1] is false.) *)
Definition regular_error (seminorm : Seminorm) (atol rtol : R) (x x_new x_err : Tensor)
    : Prop :=
  same_shape x x_new /\ same_shape x x_err
  /\ forall error sc,
       error_operands seminorm atol rtol x x_new x_err = Ok (error, sc) ->
       data error <> [] /\ Forall (fun s => s <> 0) (data sc).

(** ** Inputs of the examples *)

(** [_adaptive_odeint] at rest: the field [f = 0] from [x = 1] on the grid
    [[0, 1]], with the default tolerances. *)
Definition idle_cfg : AdaptiveConfig :=
  mkAdaptiveConfig zero_field [0; 1] HeunEuler (1 / 1000) (1 / 1000) None false
    (false, None).

(** The state in which [_adaptive_odeint] enters its loop on [idle_cfg] when
    [init_step] proposes [dt0]. *)
Definition idle_start (dt0 : R) : AdaptiveState :=
  mkAdaptiveState 0 (vec [1]) dt0 (VTensor (zero_field 0 (vec [1]))) 0 false 0
    [0] [vec [1]].

(** The field [f(t, x) = 1e4 * (x < 0.1)]: a burst that ends once the
    state has left [0]. *)
Definition burst_field : VField :=
  fun _ x => tmap (fun v => if Rltb v (1 / 10) then 10000 else 0) x.

(** The burst from [x = 0] on the grid [[0, 2^-14, 1]], with the default
    tolerances. *)
Definition clipped_cfg : AdaptiveConfig :=
  mkAdaptiveConfig burst_field [0; 1 / 16384; 1] HeunEuler (1 / 1000) (1 / 1000)
    None false (false, None).

(** The state in which [_adaptive_odeint] enters its loop on [clipped_cfg]
    when [init_step] proposes [dt0]. *)
Definition clipped_start (dt0 : R) : AdaptiveState :=
  mkAdaptiveState 0 (vec [0]) dt0 (VTensor (burst_field 0 (vec [0]))) 0 false 0
    [0] [vec [0]].

(** Whether the checkpointing block of a round shrinks the step to the next
    requested time (it does so only without an interpolator). *)
Definition clipped (cfg : AdaptiveConfig) (T : R) (st : AdaptiveState) : bool :=
  match cfg_interpolator cfg with
  | None =>
      checkpoint_ahead (t_eval_of (cfg_t_span cfg)) (a_ckpt_counter st) (a_t st)
        (clamp_dt (a_t st) (a_dt st) T)
  | Some _ => false
  end.

(** Consecutive pieces of [n] entries of [l]. *)
Fixpoint chunks (fuel n : nat) (l : list R) : list (list R) :=
  match fuel with
  | O => []
  | S fuel' =>
      match l with
      | [] => []
      | _ => firstn n l :: chunks fuel' n (skipn n l)
      end
  end.



(** Three shooting states [1] on the grid [[0, 1, 2]]. *)
Definition three_states : Tensor := mkTensor [3%nat; 1%nat] [1; 1; 1].

(** [MSZero(coarse_method='dopri5', fine_method='dopri5')]. *)
Definition MSZero_dopri5 (tab : Tableau) : MShootingSolver :=
  mkMShootingSolver (DormandPrince45 tab) (DormandPrince45 tab).

(** The event [x[0] <= 0], with the identity as its jump. *)
Definition ground_event : Callback :=
  mkCallback (fun _ x => Rleb (nth 0 (data x) 0) 0) (fun _ x => x).

(** The event [x[0] >= 0.9], with the identity as its jump. *)
Definition ceiling_event : Callback :=
  mkCallback (fun _ x => Rleb (9 / 10) (nth 0 (data x) 0)) (fun _ x => x).

(** The burst from [x = 0] on the grid [[0, 1]] with the event [x >= 0.9],
    [j_span = 1], the default tolerances and [event_tol = 1e-6]. *)
Definition burst_cfg : HybridConfig :=
  mkHybridConfig burst_field [0; 1] 1 HeunEuler [ceiling_event]
    (1 / 1000) (1 / 1000) (1 / 1000000) true (false, None).

(** The event [x[0] < 0.2], whose jump resets the state to [1]. *)
Definition threshold_event : Callback :=
  mkCallback (fun _ x => Rltb (nth 0 (data x) 0) (2 / 10)) (fun _ _ => vec [1]).

(** [dx/dt = -x] from [x = 1] on the grid [[0, 1, 2]] with the event
    [x < 0.2] and [event_tol = 1/2]. *)
Definition skipped_cfg : HybridConfig :=
  mkHybridConfig (linear_field (- (1))) [0; 1; 2] 1 HeunEuler [threshold_event]
    (1 / 1000) (1 / 1000) (1 / 2) true (false, None).

(** The field [f(t, x) = 1e4 * ((x < 0.1) | (t >= 2^-14))]: a burst that
    ends once the state has left [0] and sets in again at [t = 2^-14]. *)
Definition pulse_field : VField :=
  fun t x => tmap (fun v => if Rltb v (1 / 10) || Rleb (1 / 16384) t then 10000 else 0) x.

(** The event [x[0] >= 0.5], whose jump resets the state to zero. *)
Definition half_event : Callback :=
  mkCallback (fun _ x => Rleb (1 / 2) (nth 0 (data x) 0)) (fun _ x => zeros_like x).

(** The pulse from [x = 0] on the grid [[0, 2^-14, 1.5 * 2^-14]] with the
    event [x >= 0.5], [j_span = 1], the default tolerances and
    [event_tol = 4e-5]. *)
Definition pulse_cfg : HybridConfig :=
  mkHybridConfig pulse_field [0; 1 / 16384; 3 / 32768] 1 HeunEuler [half_event]
    (1 / 1000) (1 / 1000) (1 / 25000) true (false, None).

(** The state in which [odeint_hybrid] enters its loop on [pulse_cfg] from
    [x = 0], when [init_step] proposes [dt0]: [k1 = f(0, x) = 1e4]. *)
Definition pulse_start (dt0 : R) : HybridState :=
  mkHybridState 0 (vec [0]) dt0 (VTensor (vec [10000])) 0 false 0 0 [0] [vec [0]].

(** Whether the checkpointing block of a round of [odeint_hybrid] shrinks
    the step to the next requested time. *)
Definition hybrid_clipped (cfg : HybridConfig) (T : R) (st : HybridState) : bool :=
  checkpoint_ahead (t_eval_of (hcfg_t_span cfg)) (h_ckpt_counter st) (h_t st)
    (clamp_dt (h_t st) (h_dt st) T).

(** The rounds [i] of a list, one after the other, each on the result of
    the one before. *)
Fixpoint run_rounds (round_i : nat -> Tensor -> result Tensor) (rounds : list nat)
    (B : Tensor) : result Tensor :=
  match rounds with
  | [] => Ok B
  | i :: rounds' =>
      B' <- round_i i B ;;
      run_rounds round_i rounds' B'
  end.

(** An interpolator object that keeps the end points and the midpoint of a
    step and answers every time of the step with the midpoint. *)
Definition midpoint_interpolator : Interpolator :=
  mkInterpolator [1 / 2; 1 / 2]
    (fun _ _ _ x0 x1 x_mid => [x0; x1; x_mid])
    (fun coefs _ _ _ => nth 2 coefs (vec [])).

(** ** Notions used to state further properties of the drivers *)

(** The states a fixed-step run visits on a grid, for a step that advances
    a state [x] at time [t] over [dt] to [phi t dt x]: from one grid point to
    the next, with the difference of the two as the step size. *)
Fixpoint steps_along (phi : R -> R -> Tensor -> Tensor) (x : Tensor) (grid : list R)
    : list Tensor :=
  match grid with
  | t :: ((t' :: _) as grid') => x :: steps_along phi (phi t (t' - t) x) grid'
  | _ => [x]
  end.

(** The explicit Euler update [x + dt * f(t, x)]. *)
Definition euler_update (f : VField) (t dt : R) (x : Tensor) : Tensor :=
  (x + dt .* f t x)%T.

(** [cfg] with another [j_span]. *)
Definition with_j_span (j : nat) (cfg : HybridConfig) : HybridConfig :=
  mkHybridConfig (hcfg_f cfg) (hcfg_t_span cfg) j (hcfg_solver cfg) (hcfg_callbacks cfg)
    (hcfg_atol cfg) (hcfg_rtol cfg) (hcfg_event_tol cfg) (hcfg_priority_jump cfg)
    (hcfg_seminorm cfg).

(** [event_states = EventState([False for _ in range(len(callbacks))])]. *)
Definition no_events (callbacks : list Callback) : list bool :=
  map (fun _ => false) callbacks.

(** A tableau whose coefficients are all zero, for examples that do not
    depend on the coefficients. *)
Definition blank_tableau : Tableau := mkTableau [] [] [] [].

(** What the loop of [odeint_hybrid] keeps: as many times as states, the
    first grid point as the first time, and the current time as the last. *)
Definition hybrid_paired (t0 : R) (st : HybridState) : Prop :=
  length (h_eval_times st) = length (h_sol st)
  /\ hd_error (h_eval_times st) = Some t0
  /\ last (h_eval_times st) 0 = h_t st.

(** What the loop of [_adaptive_odeint] keeps on every grid and in every
    mode: as many times as states, the first grid point and the initial
    state first, a current time that is not past [T], and, when every
    evaluation is returned, the current time as the last time. *)
Definition adaptive_paired (cfg : AdaptiveConfig) (t0 : R) (x0 : Tensor)
    (st : AdaptiveState) : Prop :=
  length (a_eval_times st) = length (a_sol st)
  /\ hd_error (a_eval_times st) = Some t0
  /\ hd_error (a_sol st) = Some x0
  /\ (cfg_return_all_eval cfg = true -> last (a_eval_times st) 0 = a_t st).

(** The field [f = 0] on the grid [[0, 1]] with the Heun-Euler pair, no
    events and [j_span = 2]. *)
Definition still_cfg : HybridConfig :=
  mkHybridConfig zero_field [0; 1] 2 HeunEuler [] (1 / 1000) (1 / 1000) (1 / 10000) true
    (false, None).

(** The same for [_adaptive_odeint], with every evaluation returned. *)
Definition still_all_cfg : AdaptiveConfig :=
  mkAdaptiveConfig zero_field [0; 1] HeunEuler (1 / 1000) (1 / 1000) None true
    (false, None).

(** A tensor whose data has as many entries as its shape says. *)
Definition well_formed (x : Tensor) : Prop :=
  length (data x) = fold_right Nat.mul 1%nat (shape x).

(** A tensor of [n] rows of shape [rest], with all their entries. *)
Definition has_rows (n : nat) (rest : list nat) (x : Tensor) : Prop :=
  shape x = n :: rest /\ length (data x) = (n * fold_right Nat.mul 1%nat rest)%nat.

(** A run of [odeint_func] that returns its last state with the shape and
    the number of entries of the state it started from, for the two solvers
    of a multiple-shooting solver. *)
Definition keeps_shape (odeint_func : OdeintFunc) (ms : MShootingSolver) (f : VField)
    (sub_t_span : list R) : Prop :=
  forall solver y z,
    solver = coarse_method ms \/ solver = fine_method ms ->
    propagate odeint_func f sub_t_span solver y = Ok z ->
    shape z = shape y /\ length (data z) = length (data y).

(** A first-stage slope as the drivers pass it on for a state [x]: [None]
    or a tensor of the shape of [x]. *)
Definition slope_or_none (x : Tensor) (k : value) : Prop :=
  k = VNone \/ exists s, k = VTensor s /\ same_shape x s.

(** A solver that follows the convention of the adaptive driver for a
    vector field [f]: for every state, time, step size and first-stage slope,
    [step] returns four values - a slope, the new state, the error estimate
    and the tuple of stages - and the new state, its slope and the error
    estimate have the shape of the state. *)
Definition four_values (solver : Solver) (f : VField) : Prop :=
  forall x t h k,
    slope_or_none x k ->
    exists f_new x_new x_err ks,
      step solver f (VTensor x) t h k
      = Ok [f_new; VTensor x_new; VTensor x_err; VStages ks]
      /\ same_shape x x_new /\ same_shape x x_err
      /\ slope_or_none x_new f_new.

(** What the loop of [_adaptive_odeint] keeps of its checkpoint counter:
    while there is something left to integrate, the counter points at a
    requested time. *)
Definition counter_in_range (cfg : AdaptiveConfig) (T : R) (st : AdaptiveState) : Prop :=
  slope_or_none (a_x st) (a_k1 st)
  /\ ((a_ckpt_counter st < length (t_eval_of (cfg_t_span cfg)))%nat \/ ~ a_t st < T).

(** ** [_jagged_fixed_odeint]

    The driver for several sub-problems at once, each with a grid of its
    own.  [t_span] is a Python list of one-dimensional tensors, the state
    [x] has a row per sub-problem, and the solver is called with a tensor of
    times and a tensor of step sizes, one entry per sub-problem. *)

(** [torch.stack] of an empty list raises a [RuntimeError], which is not
    among the exceptions of the drivers above. *)
Inductive raised : Type :=
| Builtin (e : exn)
| RuntimeError.

Inductive outcome (A : Type) : Type :=
| Returns (a : A)
| Raises (e : raised)
| Loops.

Arguments Returns {A} a.
Arguments Raises {A} e.
Arguments Loops {A}.

Definition lift {A : Type} (r : result A) : outcome A :=
  match r with
  | Ok a => Returns a
  | Raise e => Raises (Builtin e)
  | Diverge => Loops
  end.

(** A vector field called with a tensor of times. *)
Definition SegmentField : Type := list R -> Tensor -> Tensor.

(** [solver.step(f, x, t, dt[..., None, None])] as the driver calls it: [t]
    and [dt] hold one entry per sub-problem. *)
Definition SegmentStep : Type :=
  SegmentField -> value -> list R -> list R -> result (list value).

(** [[g(a) for a in l]] for a [g] that may raise. *)
Fixpoint for_each {A B : Type} (g : A -> result B) (l : list A) : result (list B) :=
  match l with
  | [] => Ok []
  | a :: l' =>
      b <- g a ;;
      bs <- for_each g l' ;;
      Ok (b :: bs)
  end.

(** [[x_ for x_ in x]]: the rows of a tensor; a zero-dimensional tensor
    cannot be iterated. *)
Definition unbind (x : Tensor) : result (list Tensor) :=
  match shape x with
  | [] => Raise TypeError
  | n :: rest =>
      Ok (map (fun k => mkTensor rest (firstn (row_size x) (skipn (k * row_size x) (data x))))
            (seq 0 n))
  end.

(** [x[n]] for what a [step] returned as its state. *)
Definition item (n : nat) (x : value) : result Tensor :=
  match x with
  | VNone => Raise TypeError
  | VTensor xt => row n xt
  | VStages ks =>
      match nth_error ks n with
      | Some k => Ok k
      | None => Raise IndexError
      end
  end.

(** [for n, sol_ in enumerate(sol): sol_.append(x[n])], from the index [n]
    on. *)
Fixpoint append_rows (n : nat) (sol : list (list Tensor)) (x : value)
    : result (list (list Tensor)) :=
  match sol with
  | [] => Ok []
  | sol_ :: sol' =>
      r <- item n x ;;
      sol' <- append_rows (S n) sol' x ;;
      Ok ((sol_ ++ [r]) :: sol')
  end.

(** [~((t - T).abs() <= 1e-6).bool()], and [.any()] of it. *)
Definition not_converged (t T : list R) : list bool :=
  map (fun p => negb (Rleb (Rabs (fst p - snd p)) (1 / 1000000))) (combine t T).

Definition any (l : list bool) : bool := existsb (fun b => b) l.

(** The step size of a sub-problem for the next round:
<<
    if steps > len(t_) - 1: dt.append(torch.zeros_like(tcur))
    else: dt.append(t_[steps] - tcur)
>> *)
Definition next_step (steps : nat) (p : list R * R) : result R :=
  let '(t_, tcur) := p in
  if (length t_ <=? steps)%nat
  then Ok 0
  else (v <- idx t_ steps ;; Ok (v - tcur)).

(** [while not_converged.any(): ...], with fuel:
<<
    _, _, x = solver.step(f, x, t, dt[..., None, None])
    for n, sol_ in enumerate(sol): sol_.append(x[n])
    t = t + dt
    not_converged = ~((t - T).abs() <= 1e-6).bool()
    steps += 1
    dt = torch.stack([... for t_, tcur in zip(t_span, t)])
>> *)
Fixpoint jagged_loop (fuel : nat) (f : SegmentField) (step : SegmentStep)
    (t_span : list (list R)) (T : list R) (x : value) (t dt : list R) (steps : nat)
    (sol : list (list Tensor)) : result (list (list Tensor)) :=
  if any (not_converged t T)
  then match fuel with
       | O => Diverge
       | S fuel' =>
           tup <- step f x t dt ;;
           '(_, _, x) <- unpack3 tup ;;
           sol <- append_rows 0 sol x ;;
           let t := zipWith Rplus t dt in
           let steps := S steps in
           dt <- for_each (next_step steps) (combine t_span t) ;;
           jagged_loop fuel' f step t_span T x t dt steps sol
       end
  else Ok sol.

(** [sol = [sol_[:len(t_)] for sol_, t_ in zip(sol, t_span)]]. *)
Definition prune (sol : list (list Tensor)) (t_span : list (list R)) : list (list Tensor) :=
  map (fun p => firstn (length (snd p)) (fst p)) (combine sol t_span).

(** [_jagged_fixed_odeint(f, x, t_span, solver)]: one list of states per
    sub-problem (each stacked along a new first axis by the code; a pruned
    list is never empty). *)
Definition _jagged_fixed_odeint (fuel : nat) (f : SegmentField) (x : Tensor)
    (t_span : list (list R)) (step : SegmentStep) : outcome (list (list Tensor)) :=
  match for_each (fun t_sub => idx t_sub 0) t_span with
  | Ok t =>
      match for_each idx_last t_span with
      | Ok T =>
          match t_span with
          | [] => Raises RuntimeError
          | _ =>
              lift (dt <- for_each (fun p => t1 <- idx (fst p) 1 ;; Ok (t1 - snd p))
                            (combine t_span t) ;;
                    sol <- unbind x ;;
                    let sol := map (fun x_ => [x_]) sol in
                    sol <- jagged_loop fuel f step t_span T (VTensor x) t dt 0 sol ;;
                    Ok (prune sol t_span))
          end
      | Raise e => Raises (Builtin e)
      | Diverge => Loops
      end
  | Raise e => Raises (Builtin e)
  | Diverge => Loops
  end.

(** [dt[..., None, None] * k] for [k] of shape [[n, b, d]], [n] the number
    of sub-problems: the row of each sub-problem is scaled by its step size. *)
Definition scale_rows (dt : list R) (k : Tensor) : Tensor :=
  mkTensor (shape k)
    (concat (map (fun p => map (Rmult (fst p)) (snd p))
               (combine dt (chunks (length (data k)) (row_size k) (data k))))).

(** [Euler.step(f, x, t, dt[..., None, None])] for a state of shape
    [[n, b, d]]. *)
Definition Euler_step_segments (f : SegmentField) (x : value) (t dt : list R)
    : result (list value) :=
  x <- as_tensor x ;;
  let k1 := f t x in
  let x_sol := (x + scale_rows dt k1)%T in
  Ok [VNone; VNone; VTensor x_sol].

(** The grid a sub-problem is marched along by [_jagged_fixed_odeint]: after
    the first round the step size is [t_[steps] - t] with [steps = 1] and
    [t = t_[1]], a step of size zero, so the second grid point is visited
    twice. *)
Definition marched (t_ : list R) : list R :=
  match t_ with
  | t0 :: t1 :: rest => t0 :: t1 :: t1 :: rest
  | _ => t_
  end.

(** The row [0] of a tensor that has one. *)
Definition first_row (x : Tensor) : Tensor :=
  mkTensor (tl (shape x)) (firstn (row_size x) (data x)).

(** What [Euler_step_segments] does to the state of one sub-problem. *)
Definition euler_segment_update (f : SegmentField) (t dt : R) (x : Tensor) : Tensor :=
  (x + scale_rows [dt] (f [t] x))%T.

(** [f(t, x) = x], and a state of one sub-problem, of shape [[1, 1, 1]]. *)
Definition growth_field : SegmentField := fun _ x => x.
Definition one_segment_state : Tensor := mkTensor [1%nat; 1%nat; 1%nat] [1].

(** What the loop does to the lists of states: it appends to each. *)
Definition extends (sol' sol : list (list Tensor)) : Prop :=
  Forall2 (fun s' s => exists tail, s' = s ++ tail) sol' sol.

(** ** [AsynchronousLeapfrog.step]

    The step splits the last axis of its state [xv] in two halves, [x] and
    [v].  The two halves differ in shape when the last axis has an odd
    length, so the arithmetic of the step is modelled with the broadcasting
    of [torch], and [torch.cat] with its checks; both raise a
    [RuntimeError] on shapes that do not fit. *)

Definition obind {A B : Type} (m : outcome A) (k : A -> outcome B) : outcome B :=
  match m with
  | Returns a => k a
  | Raises e => Raises e
  | Loops => Loops
  end.

(** Number of entries of an array of shape [s]. *)
Definition numel (s : list nat) : nat := fold_right Nat.mul 1%nat s.

(** The [n] consecutive pieces of [rs] entries of [d]. *)
Definition pieces (n rs : nat) (d : list R) : list (list R) :=
  map (fun k => firstn rs (skipn (k * rs) d)) (seq 0 n).

(** Broadcasting of two shapes, both read from the last axis backwards: two
    lengths fit when they are equal or one of them is 1, and the shorter
    shape is filled up with the axes of the longer one. *)
Fixpoint broadcast_rev (s1 s2 : list nat) : option (list nat) :=
  match s1, s2 with
  | [], s => Some s
  | s, [] => Some s
  | d1 :: r1, d2 :: r2 =>
      match broadcast_rev r1 r2 with
      | None => None
      | Some r =>
          if (d1 =? d2)%nat then Some (d1 :: r)
          else if (d1 =? 1)%nat then Some (d2 :: r)
          else if (d2 =? 1)%nat then Some (d1 :: r)
          else None
      end
  end.

Definition broadcast_shapes (s1 s2 : list nat) : option (list nat) :=
  option_map (@rev nat) (broadcast_rev (rev s1) (rev s2)).

(** A shape filled up to [n] axes with leading axes of length 1. *)
Definition pad_shape (n : nat) (s : list nat) : list nat :=
  repeat 1%nat (n - length s) ++ s.

(** The entries of an array of shape [s] expanded to the shape [target] of
    as many axes: an axis of length 1 is repeated. *)
Fixpoint expand (s target : list nat) (d : list R) : list R :=
  match s, target with
  | ds :: s', D :: target' =>
      if (ds =? D)%nat
      then concat (map (expand s' target') (pieces ds (numel s') d))
      else concat (repeat (expand s' target' d) D)
  | _, _ => d
  end.

(** An elementwise operation of [torch] on two tensors. *)
Definition bmap2 (g : R -> R -> R) (x y : Tensor) : outcome Tensor :=
  match broadcast_shapes (shape x) (shape y) with
  | Some s =>
      Returns (mkTensor s
                 (zipWith g (expand (pad_shape (length s) (shape x)) s (data x))
                            (expand (pad_shape (length s) (shape y)) s (data y))))
  | None => Raises RuntimeError
  end.

Definition badd : Tensor -> Tensor -> outcome Tensor := bmap2 Rplus.
Definition bsub : Tensor -> Tensor -> outcome Tensor := bmap2 Rminus.

(** The pieces of [x] along its last axis, one per index of the axes before
    it. *)
Definition last_axis (x : Tensor) : list (list R) :=
  pieces (numel (removelast (shape x))) (last (shape x) 0%nat) (data x).

(** [x[..., :h]] and [x[..., h:]] for [0 <= h] and [x] of one axis or more. *)
Definition slice_last_to (h : nat) (x : Tensor) : Tensor :=
  mkTensor (removelast (shape x) ++ [Nat.min h (last (shape x) 0%nat)])
    (concat (map (firstn h) (last_axis x))).

Definition slice_last_from (h : nat) (x : Tensor) : Tensor :=
  mkTensor (removelast (shape x) ++ [(last (shape x) 0 - h)%nat])
    (concat (map (skipn h) (last_axis x))).

Definition shape_eqb (s1 s2 : list nat) : bool :=
  if list_eq_dec Nat.eq_dec s1 s2 then true else false.

(** [torch.cat([x, y], -1)]: a zero-dimensional tensor cannot be
    concatenated, a one-dimensional empty tensor is skipped, and the other
    tensors must agree in all axes but the last. *)
Definition cat_last (x y : Tensor) : outcome Tensor :=
  match shape x, shape y with
  | [], _ => Raises RuntimeError
  | _, [] => Raises RuntimeError
  | [O], _ => Returns y
  | _, [O] => Returns x
  | sx, sy =>
      if shape_eqb (removelast sx) (removelast sy)
      then Returns (mkTensor (removelast sx ++ [(last sx 0 + last sy 0)%nat])
                      (concat (map (fun p => fst p ++ snd p)
                                 (combine (last_axis x) (last_axis y)))))
      else Raises RuntimeError
  end.

(** [AsynchronousLeapfrog.step(f, xv, t, dt, k1)] with [self.const = 1] as
    [__init__] sets it, for a tensor [xv]:
<<
    half_state_dim = xv.shape[-1] // 2
    x, v = xv[..., :half_state_dim], xv[..., half_state_dim:]
    if k1 == None: k1 = f(t, x)
    x1 = x + 0.5 * dt * v
    vt1 = f(t + 0.5 * dt, x1)
    v1 = 2 * self.const * (vt1 - v) + v
    x2 = x1 + 0.5 * dt * v1
    x_sol = torch.cat([x2, v1], -1)
    if self.stepping_class == 'adaptive':
        xv_err = torch.cat([torch.zeros_like(x), v], -1)
    else:
        xv_err = None
    return None, xv_err, x_sol
>>
    [k1] is assigned and never read. *)
Definition AsynchronousLeapfrog_step (cls : stepping) (f : VField) (xv : Tensor)
    (t dt : R) (k1 : value) : outcome (list value) :=
  match shape xv with
  | [] => Raises (Builtin IndexError)
  | _ =>
      let half_state_dim := (last (shape xv) 0 / 2)%nat in
      let x := slice_last_to half_state_dim xv in
      let v := slice_last_from half_state_dim xv in
      obind (badd x ((1 / 2 * dt) .* v)%T) (fun x1 =>
      let vt1 := f (t + 1 / 2 * dt) x1 in
      obind (bsub vt1 v) (fun d =>
      obind (badd ((2 * 1) .* d)%T v) (fun v1 =>
      obind (badd x1 ((1 / 2 * dt) .* v1)%T) (fun x2 =>
      obind (cat_last x2 v1) (fun x_sol =>
      match cls with
      | adaptive =>
          obind (cat_last (zeros_like x) v) (fun xv_err =>
          Returns [VNone; VTensor xv_err; VTensor x_sol])
      | fixed => Returns [VNone; VNone; VTensor x_sol]
      end)))))
  end.

(** A tensor whose data fit its shape. *)
Definition fits (x : Tensor) : Prop := length (data x) = numel (shape x).

(** A vector field that returns an array of the shape of its state. *)
Definition keeps_shapes (f : VField) : Prop :=
  forall t x, fits x -> shape (f t x) = shape x /\ fits (f t x).
(** [torch.cat([x, y], -1)] where it does not raise: the pieces of [x] and
    [y] along the last axis, joined index by index. *)
Definition join_last (x y : Tensor) : Tensor :=
  mkTensor (removelast (shape x) ++ [(last (shape x) 0 + last (shape y) 0)%nat])
    (concat (map (fun p => fst p ++ snd p) (combine (last_axis x) (last_axis y)))).

(** What [AsynchronousLeapfrog.step] does to the halves [x] and [v] when
    they have one shape. *)
Definition leapfrog (f : VField) (t dt : R) (xv : Tensor * Tensor) : Tensor * Tensor :=
  let '(x, v) := xv in
  let x1 := (x + (1 / 2 * dt) .* v)%T in
  let vt1 := f (t + 1 / 2 * dt) x1 in
  let v1 := ((2 * 1) .* (vt1 - v) + v)%T in
  let x2 := (x1 + (1 / 2 * dt) .* v1)%T in
  (x2, v1).

(** A shape-keeping field on two coordinates, [f(t, x) = - x], and a state
    [xv] of shape [[1, 4]] with [x = (1, 0)] and [v = (0, 1)]. *)
Definition spring_field : VField := fun _ x => tneg x.
Definition spring_state : Tensor := mkTensor [1%nat; 4%nat] [1; 0; 0; 1].

(** * Properties *)

(** ** Basic facts *)

Lemma Rltb_true (a b : R) : a < b -> Rltb a b = true.
Proof. intros H. unfold Rltb. destruct (Rlt_dec a b); [reflexivity | contradiction]. Qed.

Lemma Rltb_false (a b : R) : ~ a < b -> Rltb a b = false.
Proof. intros H. unfold Rltb. destruct (Rlt_dec a b); [contradiction | reflexivity]. Qed.

Lemma Rleb_true (a b : R) : a <= b -> Rleb a b = true.
Proof. intros H. unfold Rleb. destruct (Rle_dec a b); [reflexivity | contradiction]. Qed.

Lemma Rleb_false (a b : R) : ~ a <= b -> Rleb a b = false.
Proof. intros H. unfold Rleb. destruct (Rle_dec a b); [contradiction | reflexivity]. Qed.

Lemma Reqb_true (a b : R) : a = b -> Reqb a b = true.
Proof. intros H. unfold Reqb. destruct (Req_dec_T a b); [reflexivity | contradiction]. Qed.

Lemma Reqb_false (a b : R) : a <> b -> Reqb a b = false.
Proof. intros H. unfold Reqb. destruct (Req_dec_T a b); [contradiction | reflexivity]. Qed.

Lemma Rltb_spec (a b : R) : Rltb a b = true <-> a < b.
Proof.
  unfold Rltb. destruct (Rlt_dec a b); split; intros; try assumption;
    try reflexivity; try discriminate; contradiction.
Qed.

Lemma Rleb_spec (a b : R) : Rleb a b = true <-> a <= b.
Proof.
  unfold Rleb. destruct (Rle_dec a b); split; intros; try assumption;
    try reflexivity; try discriminate; contradiction.
Qed.

Lemma Reqb_spec (a b : R) : Reqb a b = true <-> a = b.
Proof.
  unfold Reqb. destruct (Req_dec_T a b); split; intros; try assumption;
    try reflexivity; try discriminate; contradiction.
Qed.

Lemma bind_Ok {A B : Type} (m : result A) (k : A -> result B) (b : B) :
  bind m k = Ok b -> exists a, m = Ok a /\ k a = Ok b.
Proof. destruct m as [a | e |]; simpl; intros H; try discriminate. exists a. auto. Qed.

(** Splits a hypothesis [bind m k = Ok b] into the two runs it is made of. *)
Ltac bind_inv H :=
  let a := fresh "a" in
  let Ha := fresh "Hrun" in
  apply bind_Ok in H; destruct H as [a [Ha H]].

(** ** The fixed-step driver and the fixed-step solvers of [solvers.py] *)

Lemma Euler_step_slots (f : VField) (x : Tensor) (t dt : R) :
  Euler_step f (VTensor x) t dt VNone = Ok [VNone; VNone; VTensor (x + dt .* f t x)%T].
Proof. reflexivity. Qed.

Lemma fixed_loop_Euler_None (n : nat) (f : VField) (t_span : list R) (t dt : R)
    (steps : nat) (sol : list value) :
  fixed_loop (S n) f Euler t_span VNone t dt steps sol = Raise TypeError.
Proof. reflexivity. Qed.

Lemma tensors_of_None (pre post : list value) :
  tensors_of (pre ++ VNone :: post) = Raise TypeError.
Proof.
  induction pre as [| v pre IH]; simpl; [reflexivity |].
  destruct v; simpl; try reflexivity. rewrite IH. reflexivity.
Qed.

(** [_fixed_odeint] takes its next state from the second slot of
    [Euler.step], which holds [None]. *)
Lemma fixed_odeint_Euler_second_slot (f : VField) (x : Tensor) (t0 t1 : R)
    (rest : list R) :
  _fixed_odeint f (VTensor x) (t0 :: t1 :: rest) Euler = Raise TypeError.
Proof.
  unfold _fixed_odeint.
  cbn [idx nth_error idx_last bind length Nat.sub].
  cbn [fixed_loop step Euler SolverTemplate Euler_step as_tensor first_stage bind unpack3].
  destruct rest as [| t2 rest].
  - cbn. reflexivity.
  - cbn [length Nat.ltb Nat.leb Nat.sub idx nth_error Nat.add bind].
    rewrite fixed_loop_Euler_None. reflexivity.
Qed.

(** C3.  The fixed-step driver with the Euler solver of [solvers.py] never
    produces a stacked solution.  [Euler.step] returns [(None, None, x_sol)]
    with [x_sol = x + dt * f(t, x)] in the third slot; the driver takes the
    second, so on every grid of two or more points the state it appends is
    [None] and the run raises (at the next step, or at [torch.stack])
    instead of appending one Euler step per grid point. *)
Theorem fixed_odeint_Euler_raises :
  (forall (f : VField) (x : Tensor) (t dt : R),
      Euler_step f (VTensor x) t dt VNone
      = Ok [VNone; VNone; VTensor (x + dt .* f t x)%T])
  /\ (forall (f : VField) (x : Tensor) (t0 t1 : R) (rest : list R),
        _fixed_odeint f (VTensor x) (t0 :: t1 :: rest) Euler = Raise TypeError)
  /\ _fixed_odeint (linear_field 1) (VTensor (vec [1])) [0; 1] Euler = Raise TypeError.
Proof.
  split; [intros; apply Euler_step_slots |].
  split; [intros; apply fixed_odeint_Euler_second_slot |].
  apply fixed_odeint_Euler_second_slot.
Qed.

(** The sibling solver [RungeKutta4] has the same tuple, and the same fate. *)
Lemma fixed_odeint_RungeKutta4_raises (tab : Tableau) (f : VField) (x : Tensor)
    (t0 t1 : R) (rest : list R) :
  _fixed_odeint f (VTensor x) (t0 :: t1 :: rest) (RungeKutta4 tab) = Raise TypeError.
Proof.
  unfold _fixed_odeint.
  cbn [idx nth_error idx_last bind length Nat.sub].
  cbn [fixed_loop step RungeKutta4 SolverTemplate RungeKutta4_step as_tensor
       first_stage bind unpack3].
  destruct rest as [| t2 rest].
  - cbn. reflexivity.
  - cbn [length Nat.ltb Nat.leb Nat.sub idx nth_error Nat.add bind].
    reflexivity.
Qed.

(** ** The embedded pair of [DormandPrince45.step] *)

Lemma DormandPrince45_step_slots (tab : Tableau) (f : VField) (x : Tensor) (t dt : R)
    (k1 : Tensor) :
  DormandPrince45_step tab f (VTensor x) t dt (VTensor k1) =
  let k2 := stage2 tab f x t dt k1 in
  let k3 := stage3 tab f x t dt k1 k2 in
  let k4 := stage4 tab f x t dt k1 k2 k3 in
  let k5 := stage5 tab f x t dt k1 k2 k3 k4 in
  let k6 := stage6 tab f x t dt k1 k2 k3 k4 k5 in
  let k7 := stage7 tab f x t dt k1 k2 k3 k4 k5 k6 in
  Ok [VTensor k7;
      VTensor (solution_row tab x dt k1 k2 k3 k4 k5 k6);
      VTensor (error_row tab x dt k1 k2 k3 k4 k5 k6 k7)].
Proof. reflexivity. Qed.

Lemma DormandPrince45_zero_field (tab : Tableau) (t dt : R) :
  DormandPrince45_step tab zero_field (VTensor (vec [1])) t dt VNone =
  Ok [VTensor (vec [0]); VTensor (vec [1]); VTensor (vec [1])].
Proof.
  cbv beta iota zeta delta
    [DormandPrince45_step solution_row error_row stage7 stage6 stage5 stage4 stage3
     stage2 zero_field zeros_like vec as_tensor first_stage bind tadd tscale tmap
     tmap2 shape data map zipWith length].
  repeat f_equal; ring.
Qed.

(** C2.  [DormandPrince45.step] returns [(k7, x_sol, x_err)] where [x_err]
    is the second solution of the pair, [x + dt * (berr[0] * k1 + ... +
    berr[6] * k7)], an absolute state and not a difference of two solutions:
    under the vector field [f = 0], where every Runge-Kutta solution is [x]
    and the difference of two of them is [0], it returns [x_err = x = [1]]. *)
Theorem DormandPrince45_x_err_is_a_state :
  (forall (tab : Tableau) (f : VField) (x : Tensor) (t dt : R) (k1 : Tensor),
      DormandPrince45_step tab f (VTensor x) t dt (VTensor k1) =
      let k2 := stage2 tab f x t dt k1 in
      let k3 := stage3 tab f x t dt k1 k2 in
      let k4 := stage4 tab f x t dt k1 k2 k3 in
      let k5 := stage5 tab f x t dt k1 k2 k3 k4 in
      let k6 := stage6 tab f x t dt k1 k2 k3 k4 k5 in
      let k7 := stage7 tab f x t dt k1 k2 k3 k4 k5 k6 in
      Ok [VTensor k7;
          VTensor (solution_row tab x dt k1 k2 k3 k4 k5 k6);
          VTensor (x + dt .* (berr_ tab 0 .* k1 + berr_ tab 1 .* k2 + berr_ tab 2 .* k3
                              + berr_ tab 3 .* k4 + berr_ tab 4 .* k5 + berr_ tab 5 .* k6
                              + berr_ tab 6 .* k7))%T])
  /\ (forall (tab : Tableau) (t dt : R),
        DormandPrince45_step tab zero_field (VTensor (vec [1])) t dt VNone =
        Ok [VTensor (vec [0]); VTensor (vec [1]); VTensor (vec [1])]).
Proof.
  split.
  - intros. apply DormandPrince45_step_slots.
  - intros. apply DormandPrince45_zero_field.
Qed.

(** ** Running the drivers on given inputs

    [run] unfolds the drivers and the list and tensor operations and leaves
    the arithmetic of real numbers, the comparisons [Rltb], [Rleb], [Reqb],
    the norm and the step-size factor as they are; the comparisons are then
    settled by [decide_R] from the hypotheses at hand. *)

Ltac run :=
  cbv beta iota zeta delta
    -[R Rplus Rminus Rmult Rdiv Ropp Rinv Rabs Rmax Rmin sqrt Rpower IZR INR
      Rlt Rle Rgt Rge Rltb Rleb Reqb hairer_norm step_factor adapt_step].

Ltac decide_R :=
  repeat match goal with
    | |- context [Rltb ?a ?b] =>
        first [ rewrite (Rltb_true a b) by lra | rewrite (Rltb_false a b) by lra ]
    | |- context [Rleb ?a ?b] =>
        first [ rewrite (Rleb_true a b) by lra | rewrite (Rleb_false a b) by lra ]
    | |- context [Reqb ?a ?b] =>
        first [ rewrite (Reqb_true a b) by lra | rewrite (Reqb_false a b) by lra ]
    end.

(** Runs as far as the comparisons of the context decide. *)
Ltac evaluate := run; repeat (progress decide_R; run).

(** ** The grid and the first state of a run *)

Lemma fixed_loop_extends (n : nat) (f : VField) (solver : Solver) (t_span : list R) :
  forall (x : value) (t dt : R) (steps : nat) (sol sol' : list value),
    fixed_loop n f solver t_span x t dt steps sol = Ok sol' ->
    exists more, sol' = sol ++ more.
Proof.
  induction n as [| n IH]; intros x t dt steps sol sol' H; simpl in H.
  - injection H as <-. exists []. symmetry. apply app_nil_r.
  - bind_inv H. bind_inv H. destruct a0 as [[v1 x'] v3]. bind_inv H.
    apply IH in H. destruct H as [more ->].
    exists ([x'] ++ more). symmetry. apply app_assoc.
Qed.

Lemma tensors_of_head (x : Tensor) (sol : list value) (states : list Tensor) :
  tensors_of (VTensor x :: sol) = Ok states -> hd_error states = Some x.
Proof.
  simpl. intros H. bind_inv H. injection H as <-. reflexivity.
Qed.

Lemma fixed_odeint_grid (f : VField) (x : Tensor) (t_span : list R) (solver : Solver)
    (times : list R) (states : list Tensor) :
  _fixed_odeint f (VTensor x) t_span solver = Ok (times, states) ->
  times = t_span /\ hd_error states = Some x.
Proof.
  unfold _fixed_odeint. intros H.
  bind_inv H. bind_inv H. bind_inv H. bind_inv H. bind_inv H.
  injection H as <- <-.
  apply fixed_loop_extends in Hrun2. destruct Hrun2 as [more ->].
  split; [reflexivity |]. simpl in Hrun3. eapply tensors_of_head. exact Hrun3.
Qed.

Lemma firstn_snoc_nth {A : Type} (l : list A) (c : nat) (a : A) :
  nth_error l c = Some a -> firstn c l ++ [a] = firstn (S c) l.
Proof.
  revert c. induction l as [| b l IH]; intros [| c] H; simpl in *; try discriminate.
  - injection H as ->. reflexivity.
  - f_equal. apply IH. exact H.
Qed.

Lemma nth_error_nth_R (l : list R) (c : nat) (a : R) :
  nth_error l c = Some a -> nth c l 0 = a.
Proof.
  revert c. induction l as [| b l IH]; intros [| c] H; simpl in *; try discriminate.
  - injection H as ->. reflexivity.
  - apply IH. exact H.
Qed.

Lemma nth_error_last_R (l : list R) (a : R) :
  nth_error (a :: l) (length l) = Some (last (a :: l) 0).
Proof.
  revert a. induction l as [| b l IH]; intros a; [reflexivity |].
  change (nth_error (a :: b :: l) (length (b :: l))) with (nth_error (b :: l) (length l)).
  rewrite IH. reflexivity.
Qed.

Lemma checkpoint_ahead_true (te : list R) (c : nat) (t dt : R) :
  checkpoint_ahead te c t dt = true ->
  exists tau, nth_error te c = Some tau /\ tau < t + dt.
Proof.
  unfold checkpoint_ahead. intros H.
  destruct (nth_error te c) as [tau |]; [| discriminate].
  exists tau. split; [reflexivity |]. apply Rltb_spec. exact H.
Qed.

Lemma hd_error_app {A : Type} (l more : list A) (a : A) :
  hd_error l = Some a -> hd_error (l ++ more) = Some a.
Proof. destruct l; simpl; [discriminate | auto]. Qed.

Section AdaptivePrefix.
Variable cfg : AdaptiveConfig.
Variable T t0 : R.
Variable te : list R.
Variable x0 : Tensor.
Hypothesis Hspan : cfg_t_span cfg = t0 :: te.

Lemma interpolate_checkpoints_prefix (ev : R -> Tensor) (t dt : R) :
  forall (n c : nat) (times : list R) (sol : list Tensor)
         (c1 : nat) (times1 : list R) (sol1 : list Tensor),
    interpolate_checkpoints n ev te t dt c times sol = (c1, times1, sol1) ->
    (exists more, times1 = times ++ more)
    /\ (exists more, sol1 = sol ++ more)
    /\ (times = t0 :: firstn c te -> times1 = t0 :: firstn c1 te).
Proof.
  induction n as [| n IH]; intros c times sol c1 times1 sol1 H; simpl in H.
  - injection H as <- <- <-.
    split; [exists []; symmetry; apply app_nil_r |].
    split; [exists []; symmetry; apply app_nil_r | auto].
  - destruct (checkpoint_ahead te c t dt) eqn:Ea.
    + apply checkpoint_ahead_true in Ea. destruct Ea as [tau [Hc _]].
      apply IH in H. destruct H as [[more1 H1] [[more2 H2] H3]].
      split; [exists ([nth c te 0] ++ more1); rewrite H1; symmetry; apply app_assoc |].
      split; [exists ([ev (nth c te 0)] ++ more2); rewrite H2; symmetry; apply app_assoc |].
      intros Ht. apply H3. rewrite Ht, (nth_error_nth_R _ _ _ Hc). simpl. f_equal.
      apply firstn_snoc_nth. exact Hc.
    + injection H as <- <- <-.
      split; [exists []; symmetry; apply app_nil_r |].
      split; [exists []; symmetry; apply app_nil_r | auto].
Qed.

Lemma accept_trial_prefix (st : AdaptiveState) (dt : R) (f_new : value)
    (x_new : Tensor) (stages : value) (t' : R) (x' : Tensor) (k1' : value)
    (c' : nat) (times' : list R) (sol' : list Tensor) :
  on_prefix t0 te x0 (cfg_return_all_eval cfg) st ->
  accept_trial cfg st dt f_new x_new stages = Ok (t', x', k1', c', times', sol') ->
  hd_error times' = Some t0
  /\ hd_error sol' = Some x0
  /\ (cfg_return_all_eval cfg = false -> times' = t0 :: firstn c' te).
Proof.
  intros [Hht [Hhs Ht]] H. unfold accept_trial in H.
  rewrite Hspan in H. unfold t_eval_of in H. simpl tl in H.
  bind_inv H. destruct a as [[c1 times1] sol1].
  assert (Hmid : hd_error times1 = Some t0
                 /\ hd_error sol1 = Some x0
                 /\ (cfg_return_all_eval cfg = false -> times1 = t0 :: firstn c1 te)).
  { destruct (cfg_interpolator cfg) as [ip |].
    - destruct (checkpoint_ahead te (a_ckpt_counter st) (a_t st) dt).
      + bind_inv Hrun. injection Hrun as Hrun.
        apply interpolate_checkpoints_prefix in Hrun.
        destruct Hrun as [[more1 H1] [[more2 H2] H3]].
        split; [rewrite H1; apply hd_error_app; exact Hht |].
        split; [rewrite H2; apply hd_error_app; exact Hhs |].
        intros Hrae. apply H3, Ht, Hrae.
      + injection Hrun as <- <- <-. auto.
    - injection Hrun as <- <- <-. auto. }
  destruct Hmid as [Hht1 [Hhs1 Ht1]].
  bind_inv H. unfold idx in Hrun0.
  destruct (nth_error te c1) as [tau |] eqn:Ec; [| discriminate].
  injection Hrun0 as <-.
  destruct (Reqb (a_t st + dt) tau) eqn:Eg; simpl in H.
  - injection H as <- <- <- <- <- <-.
    split; [apply hd_error_app; exact Hht1 |].
    split; [apply hd_error_app; exact Hhs1 |].
    intros Hrae. apply Reqb_spec in Eg. rewrite (Ht1 Hrae), Eg. simpl. f_equal.
    apply firstn_snoc_nth. exact Ec.
  - destruct (cfg_return_all_eval cfg); injection H as <- <- <- <- <- <-.
    + split; [apply hd_error_app; exact Hht1 |].
      split; [apply hd_error_app; exact Hhs1 | discriminate].
    + auto.
Qed.

Lemma adaptive_iter_prefix (st st' : AdaptiveState) :
  on_prefix t0 te x0 (cfg_return_all_eval cfg) st ->
  adaptive_iter cfg T st = Ok st' ->
  on_prefix t0 te x0 (cfg_return_all_eval cfg) st'.
Proof.
  intros Hinv H. unfold adaptive_iter in H.
  destruct (trial_setup cfg T st) as [[dt flag] dt_old].
  bind_inv H. destruct a as [[[f_new x_new] x_err] stages].
  bind_inv H. bind_inv H.
  destruct a0 as [[[[[t' x'] k1'] c'] times'] sol'].
  injection H as <-.
  destruct (Rleb a 1).
  - eapply accept_trial_prefix in Hrun1; [exact Hrun1 | exact Hinv].
  - injection Hrun1 as <- <- <- <- <- <-. exact Hinv.
Qed.

Lemma adaptive_loop_prefix (fuel : nat) :
  forall st st',
    on_prefix t0 te x0 (cfg_return_all_eval cfg) st ->
    adaptive_loop fuel cfg T st = Ok st' ->
    on_prefix t0 te x0 (cfg_return_all_eval cfg) st'.
Proof.
  induction fuel as [| fuel IH]; intros st st' Hinv H; simpl in H.
  - destruct (Rltb (a_t st) T); [discriminate |]. injection H as <-. exact Hinv.
  - destruct (Rltb (a_t st) T).
    + bind_inv H. eapply IH; [| exact H]. eapply adaptive_iter_prefix; eassumption.
    + injection H as <-. exact Hinv.
Qed.
End AdaptivePrefix.

(** The times and the first state of a run of [_adaptive_odeint]. *)
Lemma adaptive_odeint_prefix (fuel : nat) (cfg : AdaptiveConfig) (k1 : value) (x : Tensor)
    (dt : R) (times : list R) (states : list Tensor) :
  _adaptive_odeint fuel cfg k1 x dt = Ok (times, states) ->
  hd_error times = hd_error (cfg_t_span cfg)
  /\ hd_error states = Some x
  /\ (cfg_return_all_eval cfg = false ->
      exists n, (1 <= n)%nat /\ times = firstn n (cfg_t_span cfg)).
Proof.
  intros H. unfold _adaptive_odeint in H.
  destruct (cfg_t_span cfg) as [| t0 te] eqn:Hspan; [discriminate |].
  bind_inv H. bind_inv H. bind_inv H. injection H as <- <-.
  simpl in Hrun0. injection Hrun0 as <-.
  eapply (adaptive_loop_prefix cfg _ t0 te x Hspan) in Hrun1.
  - destruct Hrun1 as [Hht [Hhs Ht]]. split; [exact Hht |]. split; [exact Hhs |].
    intros Hrae. exists (S (a_ckpt_counter a1)). split; [lia |]. apply Ht, Hrae.
  - split; [reflexivity |]. split; [reflexivity |]. intros _. reflexivity.
Qed.

Lemma oriented_span_cases (t_span : list R) (rev : bool) :
  time_reversed t_span = Ok rev ->
  oriented_span t_span = if rev then negate_span t_span else t_span.
Proof. unfold oriented_span. intros ->. destruct rev; reflexivity. Qed.

(** The times and the first state of a run of [odeint], on the grid it
    hands to its driver. *)
Lemma odeint_grid_prefix (init_step : InitStep) (fuel : nat) (f : VField) (x : Tensor)
    (t_span : list R) (solver : Solver) (atol rtol : R)
    (interpolator : option Interpolator) (return_all_eval : bool)
    (seminorm : Seminorm) (rev : bool) (times : list R) (states : list Tensor) :
  time_reversed t_span = Ok rev ->
  odeint init_step fuel f x t_span solver atol rtol interpolator return_all_eval
    seminorm = Ok (times, states) ->
  let grid := if rev then map Ropp t_span else t_span in
  hd_error states = Some x
  /\ hd_error times = hd_error grid
  /\ (stepping_class solver = fixed -> times = grid)
  /\ (stepping_class solver = adaptive -> return_all_eval = false ->
      exists n, (1 <= n)%nat /\ times = firstn n grid).
Proof.
  intros Hrev H grid. unfold odeint in H. rewrite Hrev in H. simpl in H.
  change (if rev then negate_span t_span else t_span) with grid in H.
  destruct (stepping_class solver).
  - apply fixed_odeint_grid in H. destruct H as [-> Hhd].
    split; [exact Hhd |]. split; [reflexivity |]. split; [reflexivity | discriminate].
  - bind_inv H. apply adaptive_odeint_prefix in H. simpl in H.
    destruct H as [Hht [Hhs Hpre]].
    split; [exact Hhs |]. split; [exact Hht |]. split; [discriminate |].
    intros _ Hrae. apply Hpre, Hrae.
Qed.

(** C1 (amended).  Whenever [odeint] returns a pair [(times, states)], for
    every solver object, [states[0]] is the initial state [x] and [times]
    starts with the first point of the grid handed to the driver - [t_span]
    when it is ascending, the negated grid [-t_span] when it is descending.
    On the fixed-step path [times] is that grid.  On the adaptive path with
    [return_all_eval = False], [times] is a non-empty initial segment of that
    grid: a requested time is recorded only when an accepted step ends
    exactly on it or an interpolator fills it in. *)
Theorem odeint_times_and_first_state :
  forall (init_step : InitStep) (fuel : nat) (f : VField) (x : Tensor)
         (t_span : list R) (solver : Solver) (atol rtol : R)
         (interpolator : option Interpolator) (return_all_eval : bool)
         (seminorm : Seminorm) (times : list R) (states : list Tensor),
    odeint init_step fuel f x t_span solver atol rtol interpolator return_all_eval
      seminorm = Ok (times, states) ->
    hd_error states = Some x
    /\ exists rev,
         time_reversed t_span = Ok rev
         /\ hd_error times = hd_error (if rev then map Ropp t_span else t_span)
         /\ (stepping_class solver = fixed ->
             times = if rev then map Ropp t_span else t_span)
         /\ (stepping_class solver = adaptive -> return_all_eval = false ->
             exists n, (1 <= n)%nat
                       /\ times = firstn n (if rev then map Ropp t_span else t_span)).
Proof.
  intros init_step fuel f x t_span solver atol rtol interpolator rae seminorm
    times states H.
  assert (Hrev : exists rev, time_reversed t_span = Ok rev).
  { unfold odeint in H. destruct (time_reversed t_span) as [rev | e |];
      [exists rev; reflexivity | discriminate | discriminate]. }
  destruct Hrev as [rev Hrev].
  destruct (odeint_grid_prefix _ _ _ _ _ _ _ _ _ _ _ _ _ _ Hrev H)
    as [Hhs [Hht [Hfix Had]]].
  split; [exact Hhs |]. exists rev. repeat split; assumption.
Qed.

(** ** The Hairer norm against [1] *)

Lemma hairer_norm_le_1 (e : Tensor) :
  hairer_norm e <= 1 <-> tmean (tmap (fun v => v * v) e) <= 1.
Proof.
  unfold hairer_norm. set (m := tmean _). split; intros H.
  - destruct (Rle_dec 0 m) as [Hm | Hm]; [| lra].
    apply sqrt_le_0; [exact Hm | lra |]. rewrite sqrt_1. exact H.
  - rewrite <- sqrt_1. apply sqrt_le_1_alt. exact H.
Qed.

(** The norm of a tensor with one entry [e], against [1]. *)
Lemma hairer_norm_one_entry (s : list nat) (e : R) :
  hairer_norm (mkTensor s [e]) <= 1 <-> e * e <= 1.
Proof.
  rewrite hairer_norm_le_1. unfold tmean, tmap, Rsum. simpl. split; intros H; lra.
Qed.

(** A run of the adaptive driver whose first step is clamped to the end of
    the grid: [odeint] with the Heun-Euler pair and [pulse_field] from
    [x = 0] on the grid [[0, 2^-14]], with the first step [1e-4] (what the
    Hairer heuristic proposes there). *)
Lemma odeint_HeunEuler_clamped_step :
  odeint (first_step (1 / 10000)) 1 pulse_field (vec [0]) [0; 1 / 16384] HeunEuler
    (1 / 1000) (1 / 1000) None false (false, None)
  = Ok ([0; 0 + (1 / 16384 - 0)],
        [vec [0]; mkTensor [1%nat] [0 + (1 / 16384 - 0) * 10000]]).
Proof.
  unfold odeint, time_reversed. evaluate.
  rewrite Rleb_true.
  - evaluate. reflexivity.
  - apply hairer_norm_one_entry. unfold Rdiv.
    replace (10000 - 10000) with 0 by ring. rewrite Rmult_0_r, !Rmult_0_l. lra.
Qed.

Lemma odeint_times_and_first_state_witness :
  exists times states n,
    odeint (first_step (1 / 10000)) 1 pulse_field (vec [0]) [0; 1 / 16384] HeunEuler
      (1 / 1000) (1 / 1000) None false (false, None) = Ok (times, states)
    /\ times = firstn n [0; 1 / 16384]
    /\ hd_error states = Some (vec [0]).
Proof.
  exists [0; 0 + (1 / 16384 - 0)],
    [vec [0]; mkTensor [1%nat] [0 + (1 / 16384 - 0) * 10000]].
  assert (Hrev : time_reversed [0; 1 / 16384] = Ok false).
  { unfold time_reversed. run. decide_R. reflexivity. }
  destruct (odeint_times_and_first_state (first_step (1 / 10000)) 1 pulse_field
              (vec [0]) [0; 1 / 16384] HeunEuler (1 / 1000) (1 / 1000) None false
              (false, None) _ _ odeint_HeunEuler_clamped_step)
    as [Hhd [rev [Hrev' [_ [_ Had]]]]].
  assert (E : rev = false) by congruence. subst rev.
  destruct (Had eq_refl eq_refl) as [n [_ Hn]].
  exists n. split; [exact odeint_HeunEuler_clamped_step |]. split; [exact Hn | exact Hhd].
Defined.

(** The fixed-step driver with a solver that returns its state in the
    second slot, on the descending grid [[1, 0]]. *)
Lemma odeint_EulerSecond_descending :
  odeint (first_step 1) 0 (linear_field 1) (vec [1]) [1; 0] EulerSecond
    (1 / 1000) (1 / 1000) None false (false, None)
  = Ok ([- (1); - 0],
        [vec [1]; (vec [1] + (- 0 - - (1)) .* reverse_field (linear_field 1) (- (1)) (vec [1]))%T]).
Proof.
  unfold odeint, time_reversed. run. decide_R. run. reflexivity.
Qed.

(** C1, counterexample.  On the descending grid [t_span = [1, 0]] the
    fixed-step path returns, and the times it returns are not [t_span]. *)
Lemma odeint_times_differ_on_descending_grid :
  exists times states,
    odeint (first_step 1) 0 (linear_field 1) (vec [1]) [1; 0] EulerSecond
      (1 / 1000) (1 / 1000) None false (false, None) = Ok (times, states)
    /\ times <> [1; 0].
Proof.
  eexists. eexists. split; [exact odeint_EulerSecond_descending |].
  intros H. injection H as H _. lra.
Qed.

(** ** Reversed time *)

Lemma negate_span_differs (t_span : list R) :
  time_reversed t_span = Ok true -> negate_span t_span <> t_span.
Proof.
  unfold time_reversed, idx. destruct t_span as [| t0 [| t1 rest]]; simpl;
    intros H; try discriminate.
  injection H as H. apply Rltb_spec in H.
  intros E. injection E as E0 E1 _. lra.
Qed.

Lemma firstn_whole {A : Type} (n : nat) (l : list A) :
  length (firstn n l) = length l -> firstn n l = l.
Proof.
  intros H. rewrite length_firstn in H. apply firstn_all2. lia.
Qed.

(** C6 (amended).  For a descending [t_span], [odeint] hands its driver the
    field [g(t, x) = -f(-t, x)] and the negated, ascending grid [-t_span],
    and returns what the driver returns: nothing is mapped back.  On the
    fixed-step path the times of a run are [-t_span]; on the adaptive path
    with [return_all_eval = False] they are a non-empty initial segment of
    [-t_span]; in both cases they are not the requested [t_span]. *)
Theorem odeint_reversed_time :
  forall (init_step : InitStep) (fuel : nat) (f : VField) (x : Tensor)
         (t_span : list R) (solver : Solver) (atol rtol : R)
         (interpolator : option Interpolator) (return_all_eval : bool)
         (seminorm : Seminorm),
    time_reversed t_span = Ok true ->
    let g : VField :=
      fun t x => mkTensor (shape (f (- t) x)) (map Ropp (data (f (- t) x))) in
    odeint init_step fuel f x t_span solver atol rtol interpolator return_all_eval seminorm
    = match stepping_class solver with
      | fixed => _fixed_odeint g (VTensor x) (map Ropp t_span) solver
      | adaptive =>
          t <- idx (map Ropp t_span) 0 ;;
          _adaptive_odeint fuel
            (mkAdaptiveConfig g (map Ropp t_span) solver atol rtol
               interpolator return_all_eval seminorm)
            (VTensor (g t x)) x
            (init_step f (g t x) x t (order solver) atol rtol)
      end
    /\ map Ropp t_span <> t_span
    /\ (forall times states,
          odeint init_step fuel f x t_span solver atol rtol interpolator
            return_all_eval seminorm = Ok (times, states) ->
          (stepping_class solver = fixed ->
           times = map Ropp t_span /\ times <> t_span)
          /\ (stepping_class solver = adaptive -> return_all_eval = false ->
              (exists n, (1 <= n)%nat /\ times = firstn n (map Ropp t_span))
              /\ times <> t_span)).
Proof.
  intros init_step fuel f x t_span solver atol rtol interpolator rae seminorm Hrev g.
  pose proof (negate_span_differs _ Hrev) as Hne. unfold negate_span in Hne.
  split; [unfold odeint; rewrite Hrev; reflexivity |]. split; [exact Hne |].
  intros times states H.
  destruct (odeint_grid_prefix _ _ _ _ _ _ _ _ _ _ _ _ _ _ Hrev H)
    as [_ [_ [Hfix Had]]].
  split.
  - intros Hcls. specialize (Hfix Hcls). split; [exact Hfix |]. rewrite Hfix. exact Hne.
  - intros Hcls Hrae. destruct (Had Hcls Hrae) as [n [Hn Ht]].
    split; [exists n; split; assumption |].
    intros E. apply Hne. rewrite <- E at 2. rewrite Ht. symmetry. apply firstn_whole.
    rewrite <- Ht, E. rewrite length_map. reflexivity.
Qed.

Lemma odeint_reversed_time_witness :
  map Ropp [1; 0] <> [1; 0]
  /\ forall times states,
       odeint (first_step 1) 0 (linear_field 1) (vec [1]) [1; 0] EulerSecond
         (1 / 1000) (1 / 1000) None false (false, None) = Ok (times, states) ->
       times = map Ropp [1; 0].
Proof.
  assert (Hrev : time_reversed [1; 0] = Ok true).
  { unfold time_reversed. run. decide_R. reflexivity. }
  destruct (odeint_reversed_time (first_step 1) 0 (linear_field 1) (vec [1]) [1; 0]
              EulerSecond (1 / 1000) (1 / 1000) None false (false, None) Hrev)
    as [_ [Hne Htimes]].
  split; [exact Hne |].
  intros times states H. destruct (Htimes times states H) as [Hfix _].
  apply Hfix. reflexivity.
Defined.

(** C6, counterexample.  The request [t_span = [1, 0]] is answered with the
    times [[-1, -0]]. *)
Lemma odeint_descending_grid_not_mapped_back :
  exists states,
    odeint (first_step 1) 0 (linear_field 1) (vec [1]) [1; 0] EulerSecond
      (1 / 1000) (1 / 1000) None false (false, None) = Ok ([- (1); - 0], states)
    /\ [- (1); - 0] <> [1; 0].
Proof.
  eexists. split; [exact odeint_EulerSecond_descending |].
  intros H. injection H as H _. lra.
Qed.

(** ** One round of the adaptive driver *)

Lemma adaptive_iter_unfold (cfg : AdaptiveConfig) (T : R) (st : AdaptiveState)
    (f_new : value) (x_new x_err : Tensor) (stages : value) (r : R) :
  trial_step cfg T st = Ok (f_new, x_new, x_err, stages) ->
  error_ratio (cfg_seminorm cfg) (cfg_atol cfg) (cfg_rtol cfg) (a_x st) x_new x_err = Ok r ->
  adaptive_iter cfg T st =
  (r' <- (if Rleb r 1
          then accept_trial cfg st (trial_dt cfg T st) f_new x_new stages
          else Ok (a_t st, a_x st, a_k1 st, a_ckpt_counter st, a_eval_times st, a_sol st)) ;;
   let '(t, x, k1, ckpt_counter, eval_times, sol) := r' in
   Ok (mkAdaptiveState t x
         (adapt_step (retry_base cfg T st) r (safety (cfg_solver cfg))
            (min_factor (cfg_solver cfg)) (max_factor (cfg_solver cfg))
            (order (cfg_solver cfg)))
         k1 ckpt_counter false (snd (trial_setup cfg T st)) eval_times sol)).
Proof.
  intros Hstep Hratio. unfold adaptive_iter, retry_base, trial_dt.
  destruct (trial_setup cfg T st) as [[dt flag] dt_old]. rewrite Hstep. simpl.
  rewrite Hratio. simpl. reflexivity.
Qed.

Lemma interpolate_checkpoints_extends (ev : R -> Tensor) (t_eval : list R) (t dt : R) :
  forall (n c : nat) (times : list R) (sol : list Tensor)
         (c1 : nat) (times1 : list R) (sol1 : list Tensor),
    interpolate_checkpoints n ev t_eval t dt c times sol = (c1, times1, sol1) ->
    (c <= c1)%nat
    /\ (exists more, times1 = times ++ more)
    /\ (exists more, sol1 = sol ++ more).
Proof.
  induction n as [| n IH]; intros c times sol c1 times1 sol1 H; simpl in H.
  - injection H as <- <- <-. split; [lia |].
    split; exists []; symmetry; apply app_nil_r.
  - destruct (checkpoint_ahead t_eval c t dt).
    + apply IH in H. destruct H as [Hc [[mt Ht] [ms Hs]]]. split; [lia |].
      split; [exists ([nth c t_eval 0] ++ mt) | exists ([ev (nth c t_eval 0)] ++ ms)];
        [rewrite Ht | rewrite Hs]; symmetry; apply app_assoc.
    + injection H as <- <- <-. split; [lia |].
      split; exists []; symmetry; apply app_nil_r.
Qed.

(** What an accepted trial step commits. *)
Lemma accept_trial_commit (cfg : AdaptiveConfig) (st : AdaptiveState) (dt : R)
    (f_new : value) (x_new : Tensor) (stages : value) (t' : R) (x' : Tensor)
    (k1' : value) (c' : nat) (times' : list R) (sol' : list Tensor) :
  accept_trial cfg st dt f_new x_new stages = Ok (t', x', k1', c', times', sol') ->
  t' = a_t st + dt /\ x' = x_new /\ k1' = f_new
  /\ (a_ckpt_counter st <= c')%nat
  /\ (exists more, times' = a_eval_times st ++ more)
  /\ (exists more, sol' = a_sol st ++ more).
Proof.
  unfold accept_trial. intros H. bind_inv H. destruct a as [[c1 times1] sol1].
  assert (Hmid : (a_ckpt_counter st <= c1)%nat
                 /\ (exists more, times1 = a_eval_times st ++ more)
                 /\ (exists more, sol1 = a_sol st ++ more)).
  { destruct (cfg_interpolator cfg) as [ip |].
    - destruct (checkpoint_ahead _ _ _ _).
      + bind_inv Hrun. injection Hrun as Hrun.
        eapply interpolate_checkpoints_extends. exact Hrun.
      + injection Hrun as <- <- <-. split; [lia |].
        split; exists []; symmetry; apply app_nil_r.
    - injection Hrun as <- <- <-. split; [lia |].
      split; exists []; symmetry; apply app_nil_r. }
  destruct Hmid as [Hc [[mt Ht] [ms Hs]]].
  bind_inv H.
  destruct (Reqb (a_t st + dt) a || cfg_return_all_eval cfg);
    injection H as <- <- <- <- <- <-; repeat split; try reflexivity.
  - destruct (Reqb (a_t st + dt) a); lia.
  - exists (mt ++ [a_t st + dt]). rewrite Ht. symmetry. apply app_assoc.
  - exists (ms ++ [x_new]). rewrite Hs. symmetry. apply app_assoc.
  - exact Hc.
  - exists mt. exact Ht.
  - exists ms. exact Hs.
Qed.

(** Without an interpolator the accumulator grows exactly when the step ends
    on the next requested time, or [return_all_eval] is set. *)
Lemma accept_trial_no_interpolator (cfg : AdaptiveConfig) (st : AdaptiveState) (dt : R)
    (f_new : value) (x_new : Tensor) (stages : value) (t' : R) (x' : Tensor)
    (k1' : value) (c' : nat) (times' : list R) (sol' : list Tensor) :
  cfg_interpolator cfg = None ->
  accept_trial cfg st dt f_new x_new stages = Ok (t', x', k1', c', times', sol') ->
  exists tau,
    nth_error (t_eval_of (cfg_t_span cfg)) (a_ckpt_counter st) = Some tau
    /\ (c', times', sol') =
       if Reqb (a_t st + dt) tau || cfg_return_all_eval cfg
       then ((if Reqb (a_t st + dt) tau
              then S (a_ckpt_counter st) else a_ckpt_counter st),
             a_eval_times st ++ [a_t st + dt], a_sol st ++ [x_new])
       else (a_ckpt_counter st, a_eval_times st, a_sol st).
Proof.
  unfold accept_trial. intros Hip H. rewrite Hip in H. simpl in H.
  unfold idx in H.
  destruct (nth_error (t_eval_of (cfg_t_span cfg)) (a_ckpt_counter st)) as [tau |];
    [| discriminate].
  simpl in H. exists tau. split; [reflexivity |].
  destruct (Reqb (a_t st + dt) tau || cfg_return_all_eval cfg);
    injection H as <- <- <- <- <- <-; reflexivity.
Qed.

Lemma scale_error_data (atol rtol : R) (x x_new error : Tensor) :
  data (scale_error atol rtol x x_new error) =
  map (fun p => fst p / (atol + rtol * Rmax (Rabs (fst (snd p))) (Rabs (snd (snd p)))))
    (combine (data error) (combine (data x) (data x_new))).
Proof.
  unfold scale_error, tdiv, tshift, tscale, tmax, tabs, tmap2, tmap. simpl.
  generalize (data x) (data x_new). induction (data error) as [| e l IH];
    intros [| a la] [| b lb]; simpl; try reflexivity.
  f_equal. apply IH.
Qed.

Lemma hairer_norm_data (e : Tensor) :
  hairer_norm e =
  sqrt (fold_right Rplus 0 (map (fun v => v * v) (data e)) / INR (length (data e))).
Proof.
  unfold hairer_norm, tmean, tmap, Rsum. simpl. rewrite length_map. reflexivity.
Qed.

(** C4 (amended).  In a round of the adaptive driver whose trial step is
    regular - the new state and the error estimate have the shape of the
    state, the error has an entry, no entry of the scale
    [atol + rtol * max(|x|, |x_new|)] is zero - the trial step is accepted
    (time, state and first-stage slope are committed) if and only if the
    error ratio is at most [1]; without a seminorm that ratio is
    [sqrt(mean(e_i^2))] of [e_i = x_err_i / (atol + rtol * max(|x_i|,
    |x_new_i|))].  The accumulator changes only in an accepted round, and then
    only by appending; without an interpolator it grows exactly when the step
    ends on the next requested time or [return_all_eval] is set. *)
Theorem adaptive_accept_iff_norm_le_1 :
  forall (cfg : AdaptiveConfig) (T : R) (st st' : AdaptiveState)
         (f_new : value) (x_new x_err : Tensor) (stages : value) (r : R),
    trial_step cfg T st = Ok (f_new, x_new, x_err, stages) ->
    error_ratio (cfg_seminorm cfg) (cfg_atol cfg) (cfg_rtol cfg) (a_x st) x_new x_err
      = Ok r ->
    adaptive_iter cfg T st = Ok st' ->
    regular_error (cfg_seminorm cfg) (cfg_atol cfg) (cfg_rtol cfg) (a_x st) x_new x_err ->
    (fst (cfg_seminorm cfg) = false ->
     let e :=
       map (fun p => fst p / (cfg_atol cfg
                              + cfg_rtol cfg
                                * Rmax (Rabs (fst (snd p))) (Rabs (snd (snd p)))))
         (combine (data x_err) (combine (data (a_x st)) (data x_new))) in
     r = sqrt (fold_right Rplus 0 (map (fun v => v * v) e) / INR (length e)))
    /\ (r <= 1 ->
        a_t st' = a_t st + trial_dt cfg T st /\ a_x st' = x_new /\ a_k1 st' = f_new
        /\ (exists more, a_eval_times st' = a_eval_times st ++ more)
        /\ (exists more, a_sol st' = a_sol st ++ more)
        /\ (cfg_interpolator cfg = None ->
            exists tau,
              nth_error (t_eval_of (cfg_t_span cfg)) (a_ckpt_counter st) = Some tau
              /\ (a_eval_times st', a_sol st') =
                 if Reqb (a_t st + trial_dt cfg T st) tau || cfg_return_all_eval cfg
                 then (a_eval_times st ++ [a_t st + trial_dt cfg T st],
                       a_sol st ++ [x_new])
                 else (a_eval_times st, a_sol st)))
    /\ (~ r <= 1 ->
        a_t st' = a_t st /\ a_x st' = a_x st /\ a_k1 st' = a_k1 st
        /\ a_ckpt_counter st' = a_ckpt_counter st
        /\ a_eval_times st' = a_eval_times st /\ a_sol st' = a_sol st).
Proof.
  intros cfg T st st' f_new x_new x_err stages r Hstep Hratio H _.
  rewrite (adaptive_iter_unfold _ _ _ _ _ _ _ _ Hstep Hratio) in H.
  split; [| split].
  - intros Hsemi. unfold error_ratio, error_scaled in Hratio. rewrite Hsemi in Hratio.
    simpl in Hratio. injection Hratio as <-.
    rewrite hairer_norm_data, scale_error_data. reflexivity.
  - intros Hle. rewrite (Rleb_true _ _ Hle) in H. bind_inv H.
    destruct a as [[[[[t' x'] k1'] c'] times'] sol']. injection H as <-. simpl.
    pose proof (accept_trial_commit _ _ _ _ _ _ _ _ _ _ _ _ Hrun)
      as [Ht [Hx [Hk [_ [Htimes Hsol]]]]].
    repeat (split; [assumption |]).
    intros Hip.
    destruct (accept_trial_no_interpolator _ _ _ _ _ _ _ _ _ _ _ _ Hip Hrun)
      as [tau [Htau Hacc]].
    exists tau. split; [exact Htau |].
    destruct (Reqb (a_t st + trial_dt cfg T st) tau || cfg_return_all_eval cfg);
      injection Hacc as _ -> ->; reflexivity.
  - intros Hgt. rewrite (Rleb_false _ _ Hgt) in H. simpl in H. injection H as <-.
    simpl. repeat split; reflexivity.
Qed.

(** A positive tolerance [atol] keeps the scale away from zero. *)
Lemma error_scale_nonzero (atol rtol : R) (x x_new : Tensor) :
  0 < atol -> 0 <= rtol -> Forall (fun s => s <> 0) (data (error_scale atol rtol x x_new)).
Proof.
  intros Ha Hr. unfold error_scale, tshift, tscale, tmax, tabs, tmap2, tmap. simpl.
  generalize (data x) (data x_new). intros l. induction l as [| a l IH];
    intros [| b lb]; simpl; constructor.
  - assert (0 <= Rmax (Rabs a) (Rabs b)).
    { apply Rle_trans with (Rabs a); [apply Rabs_pos | apply Rmax_l]. }
    nra.
  - apply IH.
Qed.

(** Without a seminorm a trial step is regular when the shapes agree, the
    error has an entry and the tolerances are positive. *)
Lemma regular_error_full (atol rtol : R) (x x_new x_err : Tensor) :
  same_shape x x_new -> same_shape x x_err -> data x_err <> [] ->
  0 < atol -> 0 <= rtol ->
  regular_error (false, None) atol rtol x x_new x_err.
Proof.
  intros Hn He Hd Ha Hr. split; [exact Hn |]. split; [exact He |].
  intros error sc H. unfold error_operands in H. simpl in H.
  injection H as <- <-. split; [exact Hd | apply error_scale_nonzero; assumption].
Qed.

(** The first round of [while t < T] in a run of [odeint] on its adaptive
    path, on an ascending grid that does not end at its first point: it
    starts from the first grid point with the step that [init_step]
    proposes. *)
Lemma odeint_first_round (init_step : InitStep) (fuel : nat) (f : VField) (x : Tensor)
    (t0 t1 : R) (rest : list R) (solver : Solver) (atol rtol : R)
    (interpolator : option Interpolator) (return_all_eval : bool)
    (seminorm : Seminorm) :
  stepping_class solver = adaptive ->
  ~ t1 < t0 ->
  t0 < last (t0 :: t1 :: rest) 0 ->
  odeint init_step (S fuel) f x (t0 :: t1 :: rest) solver atol rtol interpolator
    return_all_eval seminorm
  = (st' <- adaptive_iter
              (mkAdaptiveConfig f (t0 :: t1 :: rest) solver atol rtol interpolator
                 return_all_eval seminorm)
              (last (t0 :: t1 :: rest) 0)
              (mkAdaptiveState t0 x
                 (init_step f (f t0 x) x t0 (order solver) atol rtol)
                 (VTensor (f t0 x)) 0 false 0 [t0] [x]) ;;
     st <- adaptive_loop fuel
             (mkAdaptiveConfig f (t0 :: t1 :: rest) solver atol rtol interpolator
                return_all_eval seminorm)
             (last (t0 :: t1 :: rest) 0) st' ;;
     Ok (a_eval_times st, a_sol st)).
Proof.
  intros Hcls Hasc Hlt. unfold odeint, time_reversed.
  cbn [idx nth_error bind]. rewrite (Rltb_false _ _ Hasc). rewrite Hcls.
  cbn [idx nth_error bind]. unfold _adaptive_odeint.
  cbn [cfg_t_span idx_last idx nth_error bind adaptive_loop a_t].
  rewrite (Rltb_true _ _ Hlt).
  destruct (adaptive_iter _ _ _); reflexivity.
Qed.

(** The first round on [idle_cfg] with a first step [0 < dt < 1]: the step
    ends before the requested time [1] and is accepted with error ratio
    [0]. *)
Lemma idle_round (d : R) :
  0 < d < 1 ->
  exists f_new x_new x_err stages r st',
    trial_step idle_cfg 1 (idle_start d) = Ok (f_new, x_new, x_err, stages)
    /\ error_ratio (cfg_seminorm idle_cfg) (cfg_atol idle_cfg)
         (cfg_rtol idle_cfg) (a_x (idle_start d)) x_new x_err = Ok r
    /\ adaptive_iter idle_cfg 1 (idle_start d) = Ok st'
    /\ r <= 1
    /\ trial_dt idle_cfg 1 (idle_start d) = d
    /\ regular_error (cfg_seminorm idle_cfg) (cfg_atol idle_cfg)
         (cfg_rtol idle_cfg) (a_x (idle_start d)) x_new x_err
    /\ a_t st' = 0 + d
    /\ a_eval_times st' = [0]
    /\ a_sol st' = [vec [1]].
Proof.
  intros Hd.
  assert (Hdt : trial_dt idle_cfg 1 (idle_start d) = d).
  { unfold idle_cfg, idle_start. run. decide_R. run. decide_R. reflexivity. }
  assert (Hstep : exists f_new x_new x_err stages,
             trial_step idle_cfg 1 (idle_start d) = Ok (f_new, x_new, x_err, stages)
             /\ error_ratio (false, None) (1 / 1000) (1 / 1000) (vec [1]) x_new x_err
                = Ok (hairer_norm
                        (mkTensor [1%nat]
                           [d / 2 * (0 - 0)
                            / (1 / 1000 + 1 / 1000 * Rmax (Rabs 1) (Rabs (1 + d * 0)))]))
             /\ regular_error (false, None) (1 / 1000) (1 / 1000) (vec [1]) x_new x_err).
  { unfold idle_cfg, idle_start.
    do 4 eexists. split; [| split].
    - run. decide_R. run. decide_R. run. reflexivity.
    - run. reflexivity.
    - apply regular_error_full;
        [split; reflexivity | split; reflexivity | discriminate | lra | lra]. }
  destruct Hstep as [f_new [x_new [x_err [stages [Hstep [Hratio Hreg]]]]]].
  assert (Hle : hairer_norm
                  (mkTensor [1%nat]
                     [d / 2 * (0 - 0)
                      / (1 / 1000 + 1 / 1000 * Rmax (Rabs 1) (Rabs (1 + d * 0)))]) <= 1).
  { apply hairer_norm_one_entry. unfold Rdiv.
    replace (0 - 0) with 0 by ring. rewrite Rmult_0_r, !Rmult_0_l. lra. }
  exists f_new, x_new, x_err, stages. eexists. eexists.
  split; [exact Hstep |]. split; [exact Hratio |].
  rewrite (adaptive_iter_unfold _ _ _ _ _ _ _ _ Hstep Hratio).
  rewrite (Rleb_true _ _ Hle). rewrite Hdt.
  split; [| split; [exact Hle | split; [reflexivity | split; [exact Hreg |]]]].
  - unfold idle_cfg, idle_start. run. decide_R. run. reflexivity.
  - split; [reflexivity |]. split; reflexivity.
Qed.

Lemma adaptive_accept_iff_norm_le_1_witness :
  exists st',
    adaptive_iter idle_cfg 1 (idle_start (1 / 1000000)) = Ok st'
    /\ a_t st' = 0 + 1 / 1000000.
Proof.
  destruct (idle_round (1 / 1000000) ltac:(lra))
    as [f_new [x_new [x_err [stages [r [st' [Hstep [Hratio [Hiter [Hle [Hdt [Hreg _]]]]]]]]]]]].
  exists st'. split; [exact Hiter |].
  destruct (adaptive_accept_iff_norm_le_1 idle_cfg 1 (idle_start (1 / 1000000)) st'
              f_new x_new x_err stages r Hstep Hratio Hiter Hreg) as [_ [Hacc _]].
  destruct (Hacc Hle) as [Ht _]. rewrite Ht, Hdt. reflexivity.
Defined.

(** C4, counterexample.  The field [f = 0] from [x = 1] on the grid
    [[0, 1]], with the first step [1e-6] (what the Hairer heuristic proposes
    where the field vanishes): the first round of the run is accepted - its
    error ratio is at most [1], and time moves from [0] to [1e-6] - yet
    nothing is added to the accumulator, since the step does not end on a
    requested time. *)
Lemma accepted_step_leaves_accumulator :
  exists r st',
    (forall fuel,
        odeint (first_step (1 / 1000000)) (S fuel) zero_field (vec [1]) [0; 1] HeunEuler
          (1 / 1000) (1 / 1000) None false (false, None)
        = (st <- adaptive_loop fuel idle_cfg 1 st' ;; Ok (a_eval_times st, a_sol st)))
    /\ trial_error_ratio idle_cfg 1 (idle_start (1 / 1000000)) = Ok r
    /\ r <= 1
    /\ adaptive_iter idle_cfg 1 (idle_start (1 / 1000000)) = Ok st'
    /\ a_t st' = 0 + 1 / 1000000
    /\ a_eval_times st' = a_eval_times (idle_start (1 / 1000000))
    /\ a_sol st' = a_sol (idle_start (1 / 1000000)).
Proof.
  destruct (idle_round (1 / 1000000) ltac:(lra))
    as [f_new [x_new [x_err [stages [r [st' [Hstep [Hratio [Hiter [Hle
         [Hdt [_ [Ht [Htimes Hsol]]]]]]]]]]]]]].
  exists r, st'. split.
  - intros fuel.
    rewrite odeint_first_round; [| reflexivity | cbn [nth]; lra | cbn [last]; lra].
    change (adaptive_iter _ _ _)
      with (adaptive_iter idle_cfg 1 (idle_start (1 / 1000000))).
    rewrite Hiter. reflexivity.
  - split; [unfold trial_error_ratio; rewrite Hstep; exact Hratio |].
    split; [exact Hle |]. split; [exact Hiter |]. split; [exact Ht |].
    split; [exact Htimes | exact Hsol].
Qed.

(** ** Step-size adaptation after a round *)

Lemma step_factor_bounds (r s lo hi : R) (o : nat) :
  lo <= hi -> lo <= step_factor r s lo hi o <= hi.
Proof.
  intros H. unfold step_factor. destruct (Reqb r 0).
  - split; [exact H | apply Rle_refl].
  - split.
    + apply Rmin_glb; [exact H | apply Rmax_l].
    + apply Rmin_l.
Qed.

Lemma error_ratio_nonneg (seminorm : Seminorm) (atol rtol : R) (x x_new x_err : Tensor)
    (r : R) :
  error_ratio seminorm atol rtol x x_new x_err = Ok r -> 0 <= r.
Proof.
  unfold error_ratio. intros H. bind_inv H. injection H as <-.
  unfold hairer_norm. apply sqrt_pos.
Qed.

Lemma SolverTemplate_constants (o : nat) (cls : stepping)
    (stp : VField -> value -> R -> R -> value -> result (list value)) :
  safety (SolverTemplate o cls stp) = 9 / 10
  /\ min_factor (SolverTemplate o cls stp) = 2 / 10
  /\ max_factor (SolverTemplate o cls stp) = 10.
Proof. repeat split; reflexivity. Qed.

Lemma retry_base_cases (cfg : AdaptiveConfig) (T : R) (st : AdaptiveState) :
  a_ckpt_flag st = false ->
  retry_base cfg T st =
  if clipped cfg T st
  then clamp_dt (a_t st) (a_dt st) T - trial_dt cfg T st
  else trial_dt cfg T st.
Proof.
  intros Hflag. unfold retry_base, trial_dt, trial_setup, clip_to_checkpoint, clipped.
  rewrite Hflag.
  destruct (cfg_interpolator cfg);
    destruct (checkpoint_ahead _ _ _ _); reflexivity.
Qed.

Lemma trial_dt_cases (cfg : AdaptiveConfig) (T : R) (st : AdaptiveState) :
  trial_dt cfg T st =
  if clipped cfg T st
  then nth (a_ckpt_counter st) (t_eval_of (cfg_t_span cfg)) 0 - a_t st
  else clamp_dt (a_t st) (a_dt st) T.
Proof.
  unfold trial_dt, trial_setup, clip_to_checkpoint, clipped.
  destruct (cfg_interpolator cfg);
    destruct (checkpoint_ahead _ _ _ _); reflexivity.
Qed.

Lemma step_factor_zero (s lo hi : R) (o : nat) : step_factor 0 s lo hi o = hi.
Proof. unfold step_factor. rewrite Reqb_true by reflexivity. reflexivity. Qed.

Lemma step_factor_pos (r s lo hi : R) (o : nat) :
  0 < r -> step_factor r s lo hi o = Rmin hi (Rmax lo (s * Rpower r (- / INR o))).
Proof. intros H. unfold step_factor. rewrite Reqb_false by lra. reflexivity. Qed.

(** C5 (amended).  After a round with a regular trial step and error ratio
    [r] the next step size is [adapt_step(base, r, safety, min_factor,
    max_factor, order)], where [base] is the trial step size [dt] - or, when
    the trial step was shrunk to land on a requested time, [dt_old - dt], the
    rest of the step proposed before.  For a rejected round ([r > 1]) that is
    [base * factor] with [factor = safety * r^(-1/order)] clamped to
    [[min_factor, max_factor]], and time, state, slope, counter and
    accumulator stay as they were; for [r = 0] it is [base * max_factor].  An
    accepted round without an interpolator appends to the accumulator exactly
    when the step ends on the next requested time or [return_all_eval] is
    set.  [SolverTemplate] sets [safety = 0.9], [min_factor = 0.2] and
    [max_factor = 10]. *)
Theorem adaptive_retry_step_size :
  forall (cfg : AdaptiveConfig) (T : R) (st st' : AdaptiveState)
         (f_new : value) (x_new x_err : Tensor) (stages : value) (r : R),
    trial_step cfg T st = Ok (f_new, x_new, x_err, stages) ->
    error_ratio (cfg_seminorm cfg) (cfg_atol cfg) (cfg_rtol cfg) (a_x st) x_new x_err
      = Ok r ->
    adaptive_iter cfg T st = Ok st' ->
    regular_error (cfg_seminorm cfg) (cfg_atol cfg) (cfg_rtol cfg) (a_x st) x_new x_err ->
    0 <= r
    /\ a_dt st' = adapt_step (retry_base cfg T st) r (safety (cfg_solver cfg))
                    (min_factor (cfg_solver cfg)) (max_factor (cfg_solver cfg))
                    (order (cfg_solver cfg))
    /\ (a_ckpt_flag st = false ->
        retry_base cfg T st =
        if clipped cfg T st
        then clamp_dt (a_t st) (a_dt st) T - trial_dt cfg T st
        else trial_dt cfg T st)
    /\ (1 < r ->
        a_dt st' = retry_base cfg T st
                   * Rmin (max_factor (cfg_solver cfg))
                       (Rmax (min_factor (cfg_solver cfg))
                          (safety (cfg_solver cfg)
                           * Rpower r (- / INR (order (cfg_solver cfg)))))
        /\ a_t st' = a_t st /\ a_x st' = a_x st /\ a_k1 st' = a_k1 st
        /\ a_ckpt_counter st' = a_ckpt_counter st
        /\ a_eval_times st' = a_eval_times st /\ a_sol st' = a_sol st)
    /\ (r = 0 -> a_dt st' = retry_base cfg T st * max_factor (cfg_solver cfg))
    /\ (r <= 1 -> cfg_interpolator cfg = None ->
        a_t st' = a_t st + trial_dt cfg T st
        /\ exists tau,
             nth_error (t_eval_of (cfg_t_span cfg)) (a_ckpt_counter st) = Some tau
             /\ (a_eval_times st' = a_eval_times st ++ [a_t st + trial_dt cfg T st]
                 <-> Reqb (a_t st + trial_dt cfg T st) tau || cfg_return_all_eval cfg
                     = true))
    /\ (forall o cls stp,
          safety (SolverTemplate o cls stp) = 9 / 10
          /\ min_factor (SolverTemplate o cls stp) = 2 / 10
          /\ max_factor (SolverTemplate o cls stp) = 10).
Proof.
  intros cfg T st st' f_new x_new x_err stages r Hstep Hratio H _.
  pose proof (error_ratio_nonneg _ _ _ _ _ _ _ Hratio) as Hpos.
  rewrite (adaptive_iter_unfold _ _ _ _ _ _ _ _ Hstep Hratio) in H.
  assert (Hdt : a_dt st' = adapt_step (retry_base cfg T st) r (safety (cfg_solver cfg))
                    (min_factor (cfg_solver cfg)) (max_factor (cfg_solver cfg))
                    (order (cfg_solver cfg))).
  { bind_inv H. destruct a as [[[[[t' x'] k1'] c'] times'] sol'].
    injection H as <-. reflexivity. }
  split; [exact Hpos |]. split; [exact Hdt |].
  split; [apply retry_base_cases |]. split; [| split; [| split]].
  - intros Hgt. split.
    + rewrite Hdt. unfold adapt_step. rewrite step_factor_pos by lra. reflexivity.
    + rewrite Rleb_false in H by lra. simpl in H. injection H as <-.
      simpl. repeat split; reflexivity.
  - intros ->. rewrite Hdt. unfold adapt_step. rewrite step_factor_zero. reflexivity.
  - intros Hle Hip. rewrite (Rleb_true _ _ Hle) in H. bind_inv H.
    destruct a as [[[[[t' x'] k1'] c'] times'] sol']. injection H as <-. simpl.
    pose proof (accept_trial_commit _ _ _ _ _ _ _ _ _ _ _ _ Hrun) as [Ht _].
    split; [exact Ht |].
    destruct (accept_trial_no_interpolator _ _ _ _ _ _ _ _ _ _ _ _ Hip Hrun)
      as [tau [Htau Hacc]].
    exists tau. split; [exact Htau |].
    destruct (Reqb (a_t st + trial_dt cfg T st) tau || cfg_return_all_eval cfg);
      injection Hacc as _ -> _.
    + split; reflexivity.
    + split; [| discriminate]. intros E.
      apply (f_equal (@length R)) in E. rewrite length_app in E. simpl in E. lia.
  - apply SolverTemplate_constants.
Qed.

(** The first round on [clipped_cfg] with a first step [2^-14 < dt < 1]:
    the step is shrunk to land on the requested time [2^-14], where the
    burst is over, and rejected with an error ratio of about [189]. *)
Lemma clipped_round (d : R) :
  1 / 16384 < d < 1 ->
  exists f_new x_new x_err stages r st',
    trial_step clipped_cfg 1 (clipped_start d) = Ok (f_new, x_new, x_err, stages)
    /\ error_ratio (cfg_seminorm clipped_cfg) (cfg_atol clipped_cfg)
         (cfg_rtol clipped_cfg) (a_x (clipped_start d)) x_new x_err = Ok r
    /\ adaptive_iter clipped_cfg 1 (clipped_start d) = Ok st'
    /\ 1 < r
    /\ trial_dt clipped_cfg 1 (clipped_start d) = 1 / 16384 - 0
    /\ retry_base clipped_cfg 1 (clipped_start d) = d - (1 / 16384 - 0)
    /\ regular_error (cfg_seminorm clipped_cfg) (cfg_atol clipped_cfg)
         (cfg_rtol clipped_cfg) (a_x (clipped_start d)) x_new x_err.
Proof.
  intros Hd.
  assert (Hdt : trial_dt clipped_cfg 1 (clipped_start d) = 1 / 16384 - 0).
  { unfold clipped_cfg, clipped_start. run. decide_R. run. decide_R. reflexivity. }
  assert (Hbase : retry_base clipped_cfg 1 (clipped_start d) = d - (1 / 16384 - 0)).
  { unfold retry_base, clipped_cfg, clipped_start. run. decide_R. run. decide_R.
    reflexivity. }
  assert (Hstep : exists f_new x_new x_err stages,
             trial_step clipped_cfg 1 (clipped_start d) = Ok (f_new, x_new, x_err, stages)
             /\ error_ratio (false, None) (1 / 1000) (1 / 1000) (vec [0]) x_new x_err
                = Ok (hairer_norm
                        (mkTensor [1%nat]
                           [(1 / 16384 - 0) / 2 * (0 - 10000)
                            / (1 / 1000
                               + 1 / 1000
                                 * Rmax (Rabs 0) (Rabs (0 + (1 / 16384 - 0) * 10000)))]))
             /\ regular_error (false, None) (1 / 1000) (1 / 1000) (vec [0]) x_new x_err).
  { unfold clipped_cfg, clipped_start.
    do 4 eexists. split; [| split].
    - evaluate. reflexivity.
    - evaluate. reflexivity.
    - apply regular_error_full;
        [split; reflexivity | split; reflexivity | discriminate | lra | lra]. }
  destruct Hstep as [f_new [x_new [x_err [stages [Hstep [Hratio Hreg]]]]]].
  assert (Hgt : 1 < hairer_norm
                  (mkTensor [1%nat]
                     [(1 / 16384 - 0) / 2 * (0 - 10000)
                      / (1 / 1000
                         + 1 / 1000
                           * Rmax (Rabs 0) (Rabs (0 + (1 / 16384 - 0) * 10000)))])).
  { apply Rnot_le_lt. intros Hle. apply hairer_norm_one_entry in Hle. revert Hle.
    rewrite Rabs_R0.
    rewrite (Rabs_pos_eq (0 + (1 / 16384 - 0) * 10000)) by lra.
    rewrite Rmax_right by lra.
    replace ((1 / 16384 - 0) / 2 * (0 - 10000)
             / (1 / 1000 + 1 / 1000 * (0 + (1 / 16384 - 0) * 10000)))
      with (- (2500000 / 13192)) by (field_simplify; lra).
    lra. }
  exists f_new, x_new, x_err, stages. eexists. eexists.
  split; [exact Hstep |]. split; [exact Hratio |].
  split; [| split; [exact Hgt | split; [exact Hdt | split; [exact Hbase | exact Hreg]]]].
  rewrite (adaptive_iter_unfold _ _ _ _ _ _ _ _ Hstep Hratio).
  rewrite Rleb_false by lra. reflexivity.
Qed.

Lemma adaptive_retry_step_size_witness :
  exists r st',
    adaptive_iter clipped_cfg 1 (clipped_start (1 / 10000)) = Ok st'
    /\ a_dt st' = (1 / 10000 - (1 / 16384 - 0))
                  * Rmin 10 (Rmax (2 / 10) (9 / 10 * Rpower r (- / INR 2)))
    /\ a_eval_times st' = [0].
Proof.
  destruct (clipped_round (1 / 10000) ltac:(lra))
    as [f_new [x_new [x_err [stages [r [st' [Hstep [Hratio [Hiter [Hgt [Hdt [Hbase Hreg]]]]]]]]]]]].
  exists r, st'. split; [exact Hiter |].
  destruct (adaptive_retry_step_size clipped_cfg 1 (clipped_start (1 / 10000)) st'
              f_new x_new x_err stages r Hstep Hratio Hiter Hreg)
    as [_ [_ [_ [Hrej _]]]].
  destruct (Hrej Hgt) as [Hnew [_ [_ [_ [_ [Htimes _]]]]]].
  split; [rewrite Hnew, Hbase; reflexivity | exact Htimes].
Defined.

(** C5, counterexample.  (1) The burst from [x = 0] on the grid
    [[0, 2^-14, 1]], with the first step [1e-4] (what the Hairer heuristic
    proposes there): the first round of the run tries the step
    [dt = 2^-14 - 0], rejects it, and goes on with
    [(1e-4 - (2^-14 - 0)) * factor], which is not [dt * factor].  (2) The
    field [f = 0] from [x = 1] on the grid [[0, 1]], with the first step
    [1e-6]: the first round of the run is accepted and appends nothing to
    the accumulator. *)
Lemma retry_is_not_dt_times_factor :
  (exists r st',
     (forall fuel,
         odeint (first_step (1 / 10000)) (S fuel) burst_field (vec [0])
           [0; 1 / 16384; 1] HeunEuler (1 / 1000) (1 / 1000) None false (false, None)
         = (st <- adaptive_loop fuel clipped_cfg 1 st' ;;
            Ok (a_eval_times st, a_sol st)))
     /\ trial_error_ratio clipped_cfg 1 (clipped_start (1 / 10000)) = Ok r
     /\ 1 < r
     /\ adaptive_iter clipped_cfg 1 (clipped_start (1 / 10000)) = Ok st'
     /\ a_dt st' <> trial_dt clipped_cfg 1 (clipped_start (1 / 10000))
                    * step_factor r (safety (cfg_solver clipped_cfg))
                        (min_factor (cfg_solver clipped_cfg))
                        (max_factor (cfg_solver clipped_cfg))
                        (order (cfg_solver clipped_cfg)))
  /\ (exists r st',
        (forall fuel,
            odeint (first_step (1 / 1000000)) (S fuel) zero_field (vec [1]) [0; 1]
              HeunEuler (1 / 1000) (1 / 1000) None false (false, None)
            = (st <- adaptive_loop fuel idle_cfg 1 st' ;;
               Ok (a_eval_times st, a_sol st)))
        /\ trial_error_ratio idle_cfg 1 (idle_start (1 / 1000000)) = Ok r
        /\ r <= 1
        /\ adaptive_iter idle_cfg 1 (idle_start (1 / 1000000)) = Ok st'
        /\ a_sol st' = a_sol (idle_start (1 / 1000000))).
Proof.
  split.
  - destruct (clipped_round (1 / 10000) ltac:(lra))
      as [f_new [x_new [x_err [stages [r [st' [Hstep [Hratio [Hiter [Hgt [Hdt [Hbase _]]]]]]]]]]]].
    exists r, st'. split.
    { intros fuel.
      rewrite odeint_first_round; [| reflexivity | cbn [nth]; lra | cbn [last]; lra].
      change (adaptive_iter _ _ _)
        with (adaptive_iter clipped_cfg 1 (clipped_start (1 / 10000))).
      rewrite Hiter. reflexivity. }
    split; [unfold trial_error_ratio; rewrite Hstep; exact Hratio |].
    split; [exact Hgt |]. split; [exact Hiter |].
    rewrite (adaptive_iter_unfold _ _ _ _ _ _ _ _ Hstep Hratio) in Hiter.
    rewrite Rleb_false in Hiter by lra. simpl in Hiter. injection Hiter as <-.
    simpl a_dt. unfold adapt_step. rewrite Hbase, Hdt.
    pose proof (step_factor_bounds r (9 / 10) (2 / 10) 10 2) as Hb.
    change (safety (cfg_solver clipped_cfg)) with (9 / 10).
    change (min_factor (cfg_solver clipped_cfg)) with (2 / 10).
    change (max_factor (cfg_solver clipped_cfg)) with 10.
    change (order (cfg_solver clipped_cfg)) with 2%nat.
    assert (Hlo : 2 / 10 <= step_factor r (9 / 10) (2 / 10) 10 2) by (apply Hb; lra).
    lra.
  - destruct (idle_round (1 / 1000000) ltac:(lra))
      as [f_new [x_new [x_err [stages [r [st' [Hstep [Hratio [Hiter [Hle
           [Hdt [_ [Ht [Htimes Hsol]]]]]]]]]]]]]].
    exists r, st'. split.
    { intros fuel.
      rewrite odeint_first_round; [| reflexivity | cbn [nth]; lra | cbn [last]; lra].
      change (adaptive_iter _ _ _)
        with (adaptive_iter idle_cfg 1 (idle_start (1 / 1000000))).
      rewrite Hiter. reflexivity. }
    split; [unfold trial_error_ratio; rewrite Hstep; exact Hratio |].
    split; [exact Hle |]. split; [exact Hiter | exact Hsol].
Qed.

(** ** The seminorm *)





(** ** Multiple shooting: the rounds of [MSZero.root_solve] *)

Lemma root_solve_loop_rounds (odeint_func : OdeintFunc) (ms : MShootingSolver)
    (f : VField) (sub_t_span : list R) (maxiter n_subinterv : nat) :
  forall (fuel i : nat) (B : Tensor),
    (S maxiter <= fuel + i)%nat ->
    (i <= S maxiter)%nat ->
    root_solve_loop odeint_func ms f sub_t_span fuel maxiter n_subinterv i B
    = (B' <- run_rounds (round odeint_func ms f sub_t_span n_subinterv)
               (seq (S i) (S maxiter - i)) B ;;
       Ok (S maxiter, B')).
Proof.
  induction fuel as [| fuel IH]; intros i B Hfuel Hi.
  - assert (i = S maxiter) by lia. subst i. cbn [root_solve_loop].
    destruct (Nat.leb_spec (S maxiter) maxiter) as [Hle | _]; [lia |].
    rewrite Nat.sub_diag. reflexivity.
  - cbn [root_solve_loop].
    destruct (Nat.leb_spec i maxiter) as [Hle | Hgt].
    + replace (S maxiter - i)%nat with (S (S maxiter - S i)) by lia.
      cbn [seq run_rounds].
      destruct (round odeint_func ms f sub_t_span n_subinterv (S i) B) as [B' | e |];
        simpl; try reflexivity.
      apply IH; lia.
    + assert (i = S maxiter) by lia. subst i.
      rewrite Nat.sub_diag. reflexivity.
Qed.

(** [root_solve] runs the rounds [i = 1, ..., maxiter + 1]. *)
Lemma root_solve_rounds (ms : MShootingSolver) (odeint_func : OdeintFunc) (f : VField)
    (x : Tensor) (t0 t1 : R) (rest : list R) (B : Tensor) (fine_steps maxiter : nat) :
  root_solve ms odeint_func f x (t0 :: t1 :: rest) B fine_steps maxiter
  = run_rounds
      (round odeint_func ms f (linspace 0 (t1 - t0) fine_steps) (S (length rest)))
      (seq 1 (S maxiter)) B.
Proof.
  unfold root_solve. cbn [idx nth_error bind length Nat.sub].
  rewrite root_solve_loop_rounds by lia.
  rewrite Nat.sub_0_r.
  destruct (run_rounds _ _ B); reflexivity.
Qed.

(** C8.  [MSZero.root_solve] runs [maxiter + 1] rounds, [i = 1, ...,
    maxiter + 1], not [maxiter]: with [maxiter = 0] it still runs a round and
    returns a [B] that is not the first guess; and with three boundary states
    and [maxiter = 3] the round [i = 4] reads [B[3]], so [odeint_mshooting]
    raises an [IndexError] instead of returning [(t_span, B)]. *)
Theorem root_solve_runs_one_round_too_many :
  (forall (ms : MShootingSolver) (odeint_func : OdeintFunc) (f : VField) (x : Tensor)
          (t0 t1 : R) (rest : list R) (B : Tensor) (fine_steps maxiter : nat),
      root_solve ms odeint_func f x (t0 :: t1 :: rest) B fine_steps maxiter
      = run_rounds
          (round odeint_func ms f (linspace 0 (t1 - t0) fine_steps) (S (length rest)))
          (seq 1 (S maxiter)) B)
  /\ (forall (tab : Tableau) (init_step : InitStep) (fuel : nat),
        exists B,
          odeint_mshooting init_step fuel zero_field (vec [1]) [0; 1; 2]
            (MSZero_dopri5 tab) (Some three_states) 2 0 = Ok ([0; 1; 2], B)
          /\ B <> three_states)
  /\ (forall (tab : Tableau) (init_step : InitStep) (fuel : nat),
        odeint_mshooting init_step fuel zero_field (vec [1]) [0; 1; 2]
          (MSZero_dopri5 tab) (Some three_states) 2 3
        = Raise IndexError).
Proof.
  split; [| split].
  - intros. apply root_solve_rounds.
  - intros tab init_step fuel. eexists. split.
    + unfold odeint_mshooting. run. reflexivity.
    + unfold three_states. intros H. injection H as H. lra.
  - intros tab init_step fuel. unfold odeint_mshooting. run. reflexivity.
Qed.

(** ** The bisection loop of the hybrid driver *)

Lemma bisect_loop_unfold (fuel : nat) (cfg : HybridConfig) (event_states : list bool)
    (dt : R) (b : Bisection) :
  bisect_loop (S fuel) cfg event_states dt b =
  if (b_niters b <? max_iters)%nat && Rltb (hcfg_event_tol cfg) (b_dt_inner b)
  then b' <- bisect_iter cfg event_states dt b ;;
       bisect_loop fuel cfg event_states dt b'
  else Ok b.
Proof. reflexivity. Qed.

Lemma bisect_loop_exit (fuel : nat) (cfg : HybridConfig) (event_states : list bool)
    (dt : R) (b : Bisection) :
  (b_niters b <? max_iters)%nat && Rltb (hcfg_event_tol cfg) (b_dt_inner b) = false ->
  bisect_loop fuel cfg event_states dt b = Ok b.
Proof. intros H. destruct fuel; simpl; rewrite H; reflexivity. Qed.

Lemma bisect_iter_counts (cfg : HybridConfig) (event_states : list bool) (dt : R)
    (b b' : Bisection) :
  bisect_iter cfg event_states dt b = Ok b' -> b_niters b' = S (b_niters b).
Proof.
  unfold bisect_iter. intros H. bind_inv H. bind_inv H.
  destruct a0 as [[[f_new x_] x_err] o]. bind_inv H.
  destruct (_ =? _)%nat; injection H as <-; reflexivity.
Qed.

Lemma bisect_iter_Diverge (cfg : HybridConfig) (event_states : list bool) (dt : R)
    (b : Bisection) :
  bisect_iter cfg event_states dt b = Diverge ->
  step (hcfg_solver cfg) (hcfg_f cfg) (VTensor (b_x_inner b)) (b_t_inner b)
    (b_dt_inner b / 2) (b_k1 b) = Diverge.
Proof.
  unfold bisect_iter.
  destruct (step _ _ _ _ _ _) as [tup | e |]; simpl; try discriminate; [| reflexivity].
  destruct (unpack4 tup) as [[[[f_new x_] x_err] o] | e |] eqn:Eu; simpl;
    try discriminate.
  - destruct (as_tensor x_) as [xt | e |] eqn:Ex; simpl; try discriminate.
    + destruct (_ =? _)%nat; discriminate.
    + destruct x_; discriminate.
  - unfold unpack4 in Eu.
    destruct tup as [| v1 [| v2 [| v3 [| v4 [| v5 tup]]]]]; discriminate.
Qed.

(** The loop stops: with the fuel [max_iters] that the driver gives it, it
    never runs out, as long as the solver's [step] itself comes back. *)
Lemma bisect_loop_terminates (cfg : HybridConfig) (event_states : list bool) (dt : R) :
  (forall f x t h k1, step (hcfg_solver cfg) f x t h k1 <> Diverge) ->
  forall (fuel : nat) (b : Bisection),
    (max_iters <= fuel + b_niters b)%nat ->
    bisect_loop fuel cfg event_states dt b <> Diverge.
Proof.
  intros Hstep. induction fuel as [| fuel IH]; intros b Hfuel.
  - simpl.
    destruct (Nat.ltb_spec (b_niters b) max_iters) as [Hlt | _]; [simpl in Hfuel; lia |].
    simpl. discriminate.
  - rewrite bisect_loop_unfold.
    destruct ((b_niters b <? max_iters)%nat && Rltb (hcfg_event_tol cfg) (b_dt_inner b));
      [| discriminate].
    destruct (bisect_iter cfg event_states dt b) as [b' | e |] eqn:Eb; simpl.
    + apply IH. rewrite (bisect_iter_counts _ _ _ _ _ Eb). lia.
    + discriminate.
    + apply bisect_iter_Diverge in Eb. exfalso. eapply Hstep. exact Eb.
Qed.

(** It makes at most [fuel] trial steps, and leaves with
    [niters >= max_iters] or [dt_inner <= event_tol]. *)
Lemma bisect_loop_result (cfg : HybridConfig) (event_states : list bool) (dt : R) :
  forall (fuel : nat) (b b' : Bisection),
    bisect_loop fuel cfg event_states dt b = Ok b' ->
    (b_niters b <= b_niters b' <= b_niters b + fuel)%nat
    /\ ((max_iters <= b_niters b')%nat \/ b_dt_inner b' <= hcfg_event_tol cfg).
Proof.
  induction fuel as [| fuel IH]; intros b b' H.
  - simpl in H.
    destruct ((b_niters b <? max_iters)%nat && Rltb (hcfg_event_tol cfg) (b_dt_inner b))
      eqn:Ec; [discriminate |].
    injection H as <-. split; [lia |].
    apply andb_false_iff in Ec. destruct Ec as [Ec | Ec].
    + left. apply Nat.ltb_ge. exact Ec.
    + right. apply Rnot_lt_le. intros Hlt. apply Rltb_true in Hlt. congruence.
  - rewrite bisect_loop_unfold in H.
    destruct ((b_niters b <? max_iters)%nat && Rltb (hcfg_event_tol cfg) (b_dt_inner b))
      eqn:Ec.
    + bind_inv H. apply IH in H. rewrite (bisect_iter_counts _ _ _ _ _ Hrun) in H.
      destruct H as [Hn Hexit]. split; [lia | exact Hexit].
    + injection H as <-. split; [lia |].
      apply andb_false_iff in Ec. destruct Ec as [Ec | Ec].
      * left. apply Nat.ltb_ge. exact Ec.
      * right. apply Rnot_lt_le. intros Hlt. apply Rltb_true in Hlt. congruence.
Qed.

(** The bisection of [burst_cfg] once the burst is over: from a state
    [0.1 <= v < 0.9] with slope [0] every half step of [dt / 2] ends at [v],
    where the event [x >= 0.9] is off; so every trial advances, [dt_inner] is
    reset to [dt], and the loop runs until [niters = max_iters]. *)
Lemma burst_bisection (d : R) :
  1 / 1000000 < d ->
  forall (n : nat) (t v : R) (events : list bool),
    (S n <= max_iters)%nat ->
    1 / 10 <= v < 9 / 10 ->
    exists b',
      bisect_loop (S n) burst_cfg [false] d
        (mkBisection d t (mkTensor [1%nat] [v]) (VTensor (mkTensor [1%nat] [0]))
           (max_iters - S n) events) = Ok b'
      /\ b_new_event_states b' = [false].
Proof.
  intros Hd. induction n as [| n IH]; intros t v events Hn Hv.
  - rewrite bisect_loop_unfold. unfold max_iters. evaluate.
    eexists. split; reflexivity.
  - rewrite bisect_loop_unfold.
    assert (Hc : ((b_niters
                     (mkBisection d t (mkTensor [1%nat] [v])
                        (VTensor (mkTensor [1%nat] [0%R])) (max_iters - S (S n)) events)
                   <? max_iters)%nat
                  && Rltb (hcfg_event_tol burst_cfg) d) = true).
    { apply andb_true_intro. split.
      - apply Nat.ltb_lt. cbn [b_niters]. unfold max_iters. lia.
      - apply Rltb_true. unfold burst_cfg. cbn [hcfg_event_tol]. lra. }
    cbn [b_dt_inner]. rewrite Hc.
    assert (Hi : bisect_iter burst_cfg [false] d
                   (mkBisection d t (mkTensor [1%nat] [v])
                      (VTensor (mkTensor [1%nat] [0])) (max_iters - S (S n)) events)
                 = Ok (mkBisection d (t + d / 2) (mkTensor [1%nat] [v + d / 2 * 0])
                         (VTensor (mkTensor [1%nat] [0]))
                         (S (max_iters - S (S n))) [false])).
    { evaluate. reflexivity. }
    rewrite Hi. cbn [bind].
    replace (S (max_iters - S (S n))) with (max_iters - S n)%nat by lia.
    apply IH; [lia | lra].
Qed.

(** The first round of [odeint_hybrid] on [burst_cfg] with a first step
    [9e-5 <= dt <= 1.7e-4]: the trial step ends at [x = 1e4 * dt >= 0.9] and
    the event fires; the first half step of the bisection ends at
    [0.45 <= x < 0.9], where the burst is over, and the other [99] trial
    steps stay there without seeing the event; choosing the callback to jump
    with then raises. *)
Lemma burst_round (d : R) :
  9 / 100000 <= d <= 17 / 100000 ->
  hybrid_iter burst_cfg 1 [false]
    (mkHybridState 0 (vec [0]) d (VTensor (vec [10000])) 0 false 0 0 [0] [vec [0]])
  = Raise ValueError.
Proof.
  intros Hd.
  destruct (burst_bisection d ltac:(lra) 98 (0 + d / 2) (0 + d / 2 * 10000) [false])
    as [b' [Hb Hev]]; [unfold max_iters; lia | lra |].
  assert (Hb' : bisect_loop max_iters burst_cfg [false] d
                  (mkBisection d 0 (vec [0]) (VTensor (vec [10000])) 0 [true])
                = Ok b').
  { unfold max_iters at 1. rewrite bisect_loop_unfold.
    assert (Hc : ((b_niters
                     (mkBisection d 0%R (vec [0%R]) (VTensor (vec [10000%R])) 0 [true])
                   <? max_iters)%nat
                  && Rltb (hcfg_event_tol burst_cfg)
                       (b_dt_inner
                          (mkBisection d 0 (vec [0]) (VTensor (vec [10000])) 0 [true])))
                 = true).
    { apply andb_true_intro. split; [reflexivity |].
      apply Rltb_true. unfold burst_cfg. cbn [hcfg_event_tol b_dt_inner]. lra. }
    rewrite Hc.
    assert (Hi : bisect_iter burst_cfg [false] d
                   (mkBisection d 0 (vec [0]) (VTensor (vec [10000])) 0 [true])
                 = Ok (mkBisection d (0 + d / 2) (mkTensor [1%nat] [0 + d / 2 * 10000])
                         (VTensor (mkTensor [1%nat] [0])) 1 [false])).
    { evaluate. reflexivity. }
    rewrite Hi. cbn [bind]. exact Hb. }
  unfold hybrid_iter.
  assert (Hs : hybrid_setup burst_cfg 1
                 (mkHybridState 0 (vec [0]) d (VTensor (vec [10000])) 0 false 0 0
                    [0] [vec [0]]) = (d, false, 0, 0%nat)).
  { evaluate. reflexivity. }
  rewrite Hs.
  assert (Ht : exists f_new x_err,
             hybrid_trial burst_cfg 1
               (mkHybridState 0 (vec [0]) d (VTensor (vec [10000])) 0 false 0 0
                  [0] [vec [0]])
             = Ok (f_new, mkTensor [1%nat] [0 + d * 10000], x_err)).
  { do 2 eexists. evaluate. reflexivity. }
  destruct Ht as [f_new [x_err Ht]]. rewrite Ht. cbn [bind h_t].
  assert (He : check_events (hcfg_callbacks burst_cfg) (0 + d)
                 (mkTensor [1%nat] [0 + d * 10000]) = [true]).
  { evaluate. reflexivity. }
  rewrite He.
  change (0 <? triggered_events [true] [false])%nat with true. cbn iota.
  unfold hybrid_event. cbn [h_t h_x h_k1].
  rewrite Hb'. cbn [bind]. rewrite Hev. reflexivity.
Qed.

(** C9.  On [burst_cfg], for every [init_step] that proposes a first step
    between [9e-5] and [1.7e-4] (the Hairer heuristic proposes
    [100 * 1e-6 = 1e-4] from [x = 0]), the bisection loop of [odeint_hybrid]
    leaves after [max_iters = 100] trial steps, the last of which shows no
    event; the driver then takes the [min] of an empty list of triggered
    callbacks and raises a [ValueError]: exhausting the iterations does end
    the integration with an error. *)
Theorem hybrid_bisection_exhaustion_raises :
  forall (init_step : InitStep) (fuel : nat),
    9 / 100000
    <= init_step burst_field (burst_field 0 (vec [0])) (vec [0]) 0 2%nat
         (1 / 1000) (1 / 1000)
    <= 17 / 100000 ->
    odeint_hybrid init_step (S fuel) burst_cfg (vec [0]) = Raise ValueError.
Proof.
  intros init_step fuel Hd.
  set (d := init_step burst_field (burst_field 0 (vec [0])) (vec [0]) 0 2%nat
              (1 / 1000) (1 / 1000)) in *.
  unfold odeint_hybrid.
  change (idx_last (hcfg_t_span burst_cfg)) with (Ok (A := R) 1).
  change (idx (hcfg_t_span burst_cfg) 0) with (Ok (A := R) 0).
  cbn [bind].
  change (map (fun _ : Callback => false) (hcfg_callbacks burst_cfg)) with [false].
  assert (Hj : initial_jump burst_cfg [false] 0 (vec [0]) = Ok (vec [0], 0%nat)).
  { evaluate. reflexivity. }
  rewrite Hj. cbn [bind].
  change (init_step (hcfg_f burst_cfg) (hcfg_f burst_cfg 0 (vec [0])) (vec [0]) 0
            (order (hcfg_solver burst_cfg)) (hcfg_atol burst_cfg)
            (hcfg_rtol burst_cfg)) with d.
  assert (Hk : hcfg_f burst_cfg 0 (vec [0]) = vec [10000]).
  { evaluate. reflexivity. }
  rewrite Hk.
  cbn [hybrid_loop h_t h_jnum].
  rewrite (Rltb_true 0 1) by lra.
  change (0 <? hcfg_j_span burst_cfg)%nat with true. cbn [andb].
  rewrite (burst_round d Hd). reflexivity.
Qed.

Lemma hybrid_bisection_exhaustion_raises_witness :
  odeint_hybrid (first_step (1 / 10000)) 1 burst_cfg (vec [0]) = Raise ValueError.
Proof.
  apply (hybrid_bisection_exhaustion_raises (first_step (1 / 10000)) 0).
  unfold first_step. lra.
Defined.

(** ** The checkpoint counter of the hybrid driver *)

Lemma hybrid_setup_cases (cfg : HybridConfig) (T : R) (st : HybridState) :
  hybrid_setup cfg T st =
  if hybrid_clipped cfg T st
  then (nth (h_ckpt_counter st) (t_eval_of (hcfg_t_span cfg)) 0 - h_t st, true,
        clamp_dt (h_t st) (h_dt st) T, S (h_ckpt_counter st))
  else (clamp_dt (h_t st) (h_dt st) T, h_ckpt_flag st, h_dt_old st, h_ckpt_counter st).
Proof. reflexivity. Qed.

Lemma hybrid_event_counter (cfg : HybridConfig) (event_states : list bool)
    (st : HybridState) (dt : R) (c : nat) (flag : bool) (dt_old : R)
    (new_event_states : list bool) (st' : HybridState) :
  hybrid_event cfg event_states st dt c flag dt_old new_event_states = Ok st' ->
  h_ckpt_counter st' = c.
Proof.
  unfold hybrid_event. intros H. bind_inv H. bind_inv H. bind_inv H.
  injection H as <-. reflexivity.
Qed.

Lemma hybrid_control_result (cfg : HybridConfig) (st : HybridState) (dt : R) (c : nat)
    (flag : bool) (dt_old : R) (f_new : value) (x_new : Tensor) (x_err : value)
    (st' : HybridState) :
  hybrid_control cfg st dt c flag dt_old f_new x_new x_err = Ok st' ->
  h_ckpt_counter st' = c
  /\ forall xe r,
       as_tensor x_err = Ok xe ->
       error_ratio (hcfg_seminorm cfg) (hcfg_atol cfg) (hcfg_rtol cfg) (h_x st) x_new xe
         = Ok r ->
       1 < r ->
       h_t st' = h_t st /\ h_eval_times st' = h_eval_times st /\ h_sol st' = h_sol st.
Proof.
  unfold hybrid_control. intros H. bind_inv H. bind_inv H.
  destruct (Rleb a0 1) eqn:Ea; injection H as <-; (split; [reflexivity |]);
    intros xe r Hxe Hr Hgt; rewrite Hrun in Hxe; injection Hxe as <-;
    rewrite Hrun0 in Hr; injection Hr as <-.
  - apply Rleb_spec in Ea. lra.
  - repeat split; reflexivity.
Qed.

Lemma hybrid_iter_counter (cfg : HybridConfig) (T : R) (event_states : list bool)
    (st st' : HybridState) :
  hybrid_iter cfg T event_states st = Ok st' ->
  h_ckpt_counter st' =
  if hybrid_clipped cfg T st then S (h_ckpt_counter st) else h_ckpt_counter st.
Proof.
  unfold hybrid_iter. rewrite hybrid_setup_cases. intros H.
  destruct (hybrid_clipped cfg T st); bind_inv H; destruct a as [[f_new x_new] x_err];
    destruct (0 <? _)%nat;
    first [ apply hybrid_event_counter in H; exact H
          | apply hybrid_control_result in H; apply H ].
Qed.

Lemma hybrid_loop_counter (cfg : HybridConfig) (T : R) (event_states : list bool) :
  forall (fuel : nat) (st st' : HybridState),
    hybrid_loop fuel cfg T event_states st = Ok st' ->
    (h_ckpt_counter st <= h_ckpt_counter st')%nat.
Proof.
  induction fuel as [| fuel IH]; intros st st' H; simpl in H.
  - destruct (_ && _); [discriminate | injection H as <-; lia].
  - destruct (_ && _); [| injection H as <-; lia].
    bind_inv H. apply IH in H. apply hybrid_iter_counter in Hrun.
    destruct (hybrid_clipped cfg T st); lia.
Qed.

(** C10 (amended).  In a round of [odeint_hybrid] that shrinks the step to
    land on the next requested time, [ckpt_counter] is incremented at once,
    whatever becomes of the trial step - accepted, rejected or superseded by
    an event - and it never decreases afterwards, so that requested time is
    never again the target of a shrunk step.  A round whose trial step is
    rejected by error control appends nothing.  (A sample at the requested
    time can still be recorded, when the bisection or a later step happens
    to end there.) *)
Theorem hybrid_checkpoint_counter_runs_ahead :
  forall (cfg : HybridConfig) (T : R) (event_states : list bool) (st st' : HybridState),
    hybrid_iter cfg T event_states st = Ok st' ->
    h_ckpt_counter st' =
      (if hybrid_clipped cfg T st then S (h_ckpt_counter st) else h_ckpt_counter st)
    /\ (hybrid_clipped cfg T st = true ->
        hybrid_trial_dt cfg T st
        = nth (h_ckpt_counter st) (t_eval_of (hcfg_t_span cfg)) 0 - h_t st)
    /\ (forall fuel st'',
          hybrid_loop fuel cfg T event_states st' = Ok st'' ->
          (h_ckpt_counter st' <= h_ckpt_counter st'')%nat)
    /\ (forall f_new x_new x_err xe r,
          hybrid_trial cfg T st = Ok (f_new, x_new, x_err) ->
          triggered_events
            (check_events (hcfg_callbacks cfg) (h_t st + hybrid_trial_dt cfg T st) x_new)
            event_states = 0%nat ->
          as_tensor x_err = Ok xe ->
          error_ratio (hcfg_seminorm cfg) (hcfg_atol cfg) (hcfg_rtol cfg) (h_x st) x_new xe
            = Ok r ->
          1 < r ->
          h_t st' = h_t st /\ h_eval_times st' = h_eval_times st
          /\ h_sol st' = h_sol st).
Proof.
  intros cfg T event_states st st' H.
  split; [apply (hybrid_iter_counter _ _ _ _ _ H) |]. split; [| split].
  - intros Hc. unfold hybrid_trial_dt. rewrite hybrid_setup_cases, Hc. reflexivity.
  - intros fuel st''. apply hybrid_loop_counter.
  - intros f_new x_new x_err xe r Ht Hev Hxe Hr Hgt.
    unfold hybrid_iter in H. unfold hybrid_trial_dt in Hev.
    destruct (hybrid_setup cfg T st) as [[[dt flag] dt_old] c].
    rewrite Ht in H. cbn [bind] in H. cbn [fst] in Hev. rewrite Hev in H.
    cbn in H. apply hybrid_control_result in H. destruct H as [_ H].
    apply (H xe r Hxe Hr Hgt).
Qed.

(** The bisection of the first round on [pulse_cfg]: the first half step
    ends at [x = 0.305] where the burst is over, the second lands on
    [t = 2^-14] with [x = 0.305], the third shows the event, and
    [dt_inner = 2^-15 <= event_tol] ends the loop. *)
Lemma pulse_bisection :
  bisect_loop max_iters pulse_cfg [false] (1 / 16384 - 0)
    (mkBisection (1 / 16384 - 0) 0 (vec [0]) (VTensor (vec [10000])) 0 [true])
  = Ok (mkBisection ((1 / 16384 - 0) / 2)
          (0 + (1 / 16384 - 0) / 2 + (1 / 16384 - 0) / 2)
          (mkTensor [1%nat]
             [0 + (1 / 16384 - 0) / 2 * 10000 + (1 / 16384 - 0) / 2 * 0])
          (VTensor (mkTensor [1%nat] [10000])) 3 [true]).
Proof.
  unfold max_iters.
  rewrite bisect_loop_unfold. remember bisect_loop as loop eqn:El. evaluate. subst loop.
  rewrite bisect_loop_unfold. remember bisect_loop as loop eqn:El. evaluate. subst loop.
  rewrite bisect_loop_unfold. remember bisect_loop as loop eqn:El. evaluate. subst loop.
  rewrite bisect_loop_unfold. remember bisect_loop as loop eqn:El. evaluate. subst loop.
  reflexivity.
Qed.

(** The state after the first round on [pulse_cfg]. *)
Lemma pulse_round (d : R) :
  3 / 32768 < d ->
  hybrid_clipped pulse_cfg (3 / 32768) (pulse_start d) = true
  /\ (exists f_new x_new x_err,
        hybrid_trial pulse_cfg (3 / 32768) (pulse_start d) = Ok (f_new, x_new, x_err)
        /\ check_events (hcfg_callbacks pulse_cfg)
             (0 + hybrid_trial_dt pulse_cfg (3 / 32768) (pulse_start d)) x_new = [true])
  /\ hybrid_iter pulse_cfg (3 / 32768) [false] (pulse_start d)
     = Ok (mkHybridState (0 + (1 / 16384 - 0) / 2 + (1 / 16384 - 0) / 2)
             (mkTensor [1%nat] [0]) (1 / 16384 - 0) VNone 1 true (3 / 32768 - 0) 0
             [0; 0 + (1 / 16384 - 0) / 2 + (1 / 16384 - 0) / 2;
              0 + (1 / 16384 - 0) / 2 + (1 / 16384 - 0) / 2]
             [vec [0];
              mkTensor [1%nat]
                [0 + (1 / 16384 - 0) / 2 * 10000 + (1 / 16384 - 0) / 2 * 0];
              mkTensor [1%nat] [0]]).
Proof.
  intros Hd.
  assert (Hs : hybrid_setup pulse_cfg (3 / 32768) (pulse_start d)
               = (1 / 16384 - 0, true, 3 / 32768 - 0, 1%nat)).
  { unfold pulse_start. evaluate. reflexivity. }
  assert (Htr : exists f_new x_err,
             hybrid_trial pulse_cfg (3 / 32768) (pulse_start d)
             = Ok (f_new, mkTensor [1%nat] [0 + (1 / 16384 - 0) * 10000], x_err)).
  { unfold hybrid_trial, hybrid_trial_dt. rewrite Hs. do 2 eexists.
    unfold pulse_start. evaluate. reflexivity. }
  destruct Htr as [f_new [x_err Htr]].
  assert (He : check_events (hcfg_callbacks pulse_cfg) (0 + (1 / 16384 - 0))
                 (mkTensor [1%nat] [0 + (1 / 16384 - 0) * 10000]) = [true]).
  { evaluate. reflexivity. }
  split; [unfold pulse_start; evaluate; reflexivity |]. split.
  - exists f_new, (mkTensor [1%nat] [0 + (1 / 16384 - 0) * 10000]), x_err.
    split; [exact Htr |]. unfold hybrid_trial_dt. rewrite Hs. exact He.
  - unfold hybrid_iter. rewrite Hs, Htr. cbn [bind].
    change (h_t (pulse_start d)) with 0. rewrite He.
    change (0 <? triggered_events [true] [false])%nat with true. cbn iota.
    unfold hybrid_event.
    change (h_t (pulse_start d)) with 0.
    change (h_x (pulse_start d)) with (vec [0]).
    change (h_k1 (pulse_start d)) with (VTensor (vec [10000])).
    rewrite pulse_bisection. reflexivity.
Qed.

(** The second round on [pulse_cfg]: from [t = 2^-14] the step is clamped
    to end at [T], shows no event and is accepted with error ratio [0]. *)
Lemma pulse_second_round :
  exists st',
    hybrid_iter pulse_cfg (3 / 32768) [false]
      (mkHybridState (0 + (1 / 16384 - 0) / 2 + (1 / 16384 - 0) / 2)
         (mkTensor [1%nat] [0]) (1 / 16384 - 0) VNone 1 true (3 / 32768 - 0) 0
         [0; 0 + (1 / 16384 - 0) / 2 + (1 / 16384 - 0) / 2;
          0 + (1 / 16384 - 0) / 2 + (1 / 16384 - 0) / 2]
         [vec [0];
          mkTensor [1%nat]
            [0 + (1 / 16384 - 0) / 2 * 10000 + (1 / 16384 - 0) / 2 * 0];
          mkTensor [1%nat] [0]]) = Ok st'
    /\ ~ h_t st' < 3 / 32768
    /\ h_eval_times st' =
       [0; 0 + (1 / 16384 - 0) / 2 + (1 / 16384 - 0) / 2;
        0 + (1 / 16384 - 0) / 2 + (1 / 16384 - 0) / 2;
        0 + (1 / 16384 - 0) / 2 + (1 / 16384 - 0) / 2
        + (3 / 32768 - (0 + (1 / 16384 - 0) / 2 + (1 / 16384 - 0) / 2))]
    /\ length (h_sol st') = 4%nat.
Proof.
  eexists. split.
  - evaluate. rewrite Rleb_true.
    + evaluate. reflexivity.
    + apply hairer_norm_one_entry. unfold Rdiv.
      replace (10000 - 10000) with 0 by ring. rewrite Rmult_0_r, !Rmult_0_l. lra.
  - cbn [h_t h_eval_times h_sol]. split; [lra |]. split; reflexivity.
Qed.

(** The run of [odeint_hybrid] on [pulse_cfg] from [x = 0], for every
    [init_step] that proposes a first step beyond the end of the grid (the
    Hairer heuristic proposes [100 * 1e-6 = 1e-4] from [x = 0]). *)
Lemma pulse_run (init_step : InitStep) (fuel : nat) :
  3 / 32768
  < init_step pulse_field (pulse_field 0 (vec [0])) (vec [0]) 0 2%nat
      (1 / 1000) (1 / 1000) ->
  exists states,
    odeint_hybrid init_step (S (S fuel)) pulse_cfg (vec [0])
    = Ok ([0; 0 + (1 / 16384 - 0) / 2 + (1 / 16384 - 0) / 2;
           0 + (1 / 16384 - 0) / 2 + (1 / 16384 - 0) / 2;
           0 + (1 / 16384 - 0) / 2 + (1 / 16384 - 0) / 2
           + (3 / 32768 - (0 + (1 / 16384 - 0) / 2 + (1 / 16384 - 0) / 2))],
          states)
    /\ length states = 4%nat.
Proof.
  intros Hd.
  set (d := init_step pulse_field (pulse_field 0 (vec [0])) (vec [0]) 0 2%nat
              (1 / 1000) (1 / 1000)) in *.
  destruct (pulse_round d Hd) as [_ [_ Hone]].
  destruct pulse_second_round as [st2 [Htwo [Hend [Htimes Hsol]]]].
  exists (h_sol st2). split; [| exact Hsol].
  unfold odeint_hybrid.
  change (idx_last (hcfg_t_span pulse_cfg)) with (Ok (A := R) (3 / 32768)).
  change (idx (hcfg_t_span pulse_cfg) 0) with (Ok (A := R) 0).
  cbn [bind].
  change (map (fun _ : Callback => false) (hcfg_callbacks pulse_cfg)) with [false].
  assert (Hj : initial_jump pulse_cfg [false] 0 (vec [0]) = Ok (vec [0], 0%nat)).
  { evaluate. reflexivity. }
  rewrite Hj. cbn [bind].
  change (init_step (hcfg_f pulse_cfg) (hcfg_f pulse_cfg 0 (vec [0])) (vec [0]) 0
            (order (hcfg_solver pulse_cfg)) (hcfg_atol pulse_cfg)
            (hcfg_rtol pulse_cfg)) with d.
  assert (Hk : hcfg_f pulse_cfg 0 (vec [0]) = vec [10000]).
  { evaluate. reflexivity. }
  rewrite Hk.
  change (mkHybridState 0 (vec [0]) d (VTensor (vec [10000])) 0 false 0 0 [0] [vec [0]])
    with (pulse_start d).
  cbn [hybrid_loop].
  change (h_t (pulse_start d)) with 0. change (h_jnum (pulse_start d)) with 0%nat.
  rewrite (Rltb_true 0 (3 / 32768)) by lra.
  change (0 <? hcfg_j_span pulse_cfg)%nat with true. cbn [andb].
  rewrite Hone. cbn [bind h_t h_jnum].
  rewrite (Rltb_true (0 + (1 / 16384 - 0) / 2 + (1 / 16384 - 0) / 2) (3 / 32768)) by lra.
  change (0 <? hcfg_j_span pulse_cfg)%nat with true. cbn [andb].
  rewrite Htwo. cbn [bind].
  assert (Hx : hybrid_loop fuel pulse_cfg (3 / 32768) [false] st2 = Ok st2).
  { destruct fuel; simpl; rewrite (Rltb_false _ _ Hend); reflexivity. }
  rewrite Hx. cbn [bind]. rewrite Htimes. reflexivity.
Qed.

Lemma hybrid_checkpoint_counter_runs_ahead_witness :
  exists st',
    hybrid_iter pulse_cfg (3 / 32768) [false] (pulse_start (1 / 10000)) = Ok st'
    /\ h_ckpt_counter st' = 1%nat.
Proof.
  destruct (pulse_round (1 / 10000) ltac:(lra)) as [Hclip [_ Hiter]].
  eexists. split; [exact Hiter |].
  destruct (hybrid_checkpoint_counter_runs_ahead pulse_cfg (3 / 32768) [false]
              (pulse_start (1 / 10000)) _ Hiter) as [Hc _].
  rewrite Hc, Hclip. reflexivity.
Defined.

(** C10, counterexample.  On [pulse_cfg], with the first step [1e-4] that
    the heuristic proposes, the first round shrinks the step to land on the
    requested time [2^-14] and moves the counter past it; the trial step is
    superseded by an event; the bisection ends at [t = 2^-14], and the run
    returns with the samples before and after the jump at that requested
    time. *)
Lemma skipped_time_is_sampled_by_bisection :
  exists st' f_new x_new x_err times states,
    hybrid_clipped pulse_cfg (3 / 32768) (pulse_start (1 / 10000)) = true
    /\ nth_error (t_eval_of (hcfg_t_span pulse_cfg))
         (h_ckpt_counter (pulse_start (1 / 10000))) = Some (1 / 16384)
    /\ hybrid_trial pulse_cfg (3 / 32768) (pulse_start (1 / 10000))
       = Ok (f_new, x_new, x_err)
    /\ (0 < triggered_events
             (check_events (hcfg_callbacks pulse_cfg)
                (0 + hybrid_trial_dt pulse_cfg (3 / 32768) (pulse_start (1 / 10000)))
                x_new) [false])%nat
    /\ hybrid_iter pulse_cfg (3 / 32768) [false] (pulse_start (1 / 10000)) = Ok st'
    /\ h_ckpt_counter st' = S (h_ckpt_counter (pulse_start (1 / 10000)))
    /\ odeint_hybrid (first_step (1 / 10000)) 2 pulse_cfg (vec [0]) = Ok (times, states)
    /\ nth_error times 1 = Some (1 / 16384)
    /\ nth_error times 2 = Some (1 / 16384)
    /\ length times = 4%nat
    /\ length states = 4%nat.
Proof.
  destruct (pulse_round (1 / 10000) ltac:(lra))
    as [Hclip [[f_new [x_new [x_err [Htr Hev]]]] Hiter]].
  destruct (pulse_run (first_step (1 / 10000)) 0) as [states [Hrun Hlen]];
    [unfold first_step; lra |].
  eexists. exists f_new, x_new, x_err. eexists. exists states.
  split; [exact Hclip |]. split; [reflexivity |]. split; [exact Htr |].
  split; [rewrite Hev; change (triggered_events [true] [false]) with 1%nat; lia |].
  split; [exact Hiter |].
  split; [reflexivity |]. split; [exact Hrun |].
  assert (E : 0 + (1 / 16384 - 0) / 2 + (1 / 16384 - 0) / 2 = 1 / 16384) by lra.
  cbn [nth_error]. rewrite E.
  split; [reflexivity |]. split; [reflexivity |]. split; [reflexivity | exact Hlen].
Qed.

(** ** The solvers of [solvers.py] under the adaptive and hybrid drivers

    [DormandPrince45.step] and [Tsitouras45.step] return three values; the
    adaptive and the hybrid driver unpack four.  With these solvers every
    round of either driver raises at the unpacking. *)

Lemma adaptive_iter_DormandPrince45_raises (tab : Tableau) (cfg : AdaptiveConfig)
    (T : R) (st : AdaptiveState) (k1 : Tensor) :
  cfg_solver cfg = DormandPrince45 tab ->
  a_k1 st = VTensor k1 ->
  adaptive_iter cfg T st = Raise ValueError.
Proof.
  intros Hs Hk. unfold adaptive_iter, trial_step.
  destruct (trial_setup cfg T st) as [[dt flag] dt_old].
  rewrite Hs, Hk. reflexivity.
Qed.

Lemma hybrid_iter_DormandPrince45_raises (tab : Tableau) (cfg : HybridConfig)
    (T : R) (event_states : list bool) (st : HybridState) (k1 : Tensor) :
  hcfg_solver cfg = DormandPrince45 tab ->
  h_k1 st = VTensor k1 ->
  hybrid_iter cfg T event_states st = Raise ValueError.
Proof.
  intros Hs Hk. unfold hybrid_iter, hybrid_trial.
  destruct (hybrid_setup cfg T st) as [[[dt flag] dt_old] c].
  rewrite Hs, Hk. reflexivity.
Qed.

(** [odeint] with [dopri5] on a grid that starts before its end. *)
Lemma odeint_DormandPrince45_raises (tab : Tableau) (init_step : InitStep) (fuel : nat)
    (f : VField) (x : Tensor) (t0 t1 : R) (rest : list R) (atol rtol : R)
    (interpolator : option Interpolator) (return_all_eval : bool) (seminorm : Seminorm) :
  t0 <= t1 ->
  t0 < last (t0 :: t1 :: rest) 0 ->
  odeint init_step (S fuel) f x (t0 :: t1 :: rest) (DormandPrince45 tab) atol rtol
    interpolator return_all_eval seminorm = Raise ValueError.
Proof.
  intros Hle Hlt. unfold odeint, time_reversed.
  cbn [idx nth_error bind]. rewrite Rltb_false by lra.
  cbn [stepping_class DormandPrince45 SolverTemplate idx nth_error bind].
  unfold _adaptive_odeint.
  cbn [cfg_t_span idx_last idx nth_error bind adaptive_loop a_t].
  rewrite (Rltb_true _ _ Hlt).
  erewrite adaptive_iter_DormandPrince45_raises; reflexivity.
Qed.

(** [odeint_mshooting] with the default [MSZero('euler', 'rk4')] and no
    first guess: the coarse run of [odeint] that is to give [B0] is a
    fixed-step run with [Euler]. *)
Lemma odeint_mshooting_default_raises (rk4 : Tableau) (init_step : InitStep) (fuel : nat)
    (f : VField) (x : Tensor) (t0 t1 : R) (rest : list R) (fine_steps maxiter : nat) :
  odeint_mshooting init_step fuel f x (t0 :: t1 :: rest) (MSZero_default rk4) None
    fine_steps maxiter = Raise TypeError.
Proof.
  unfold odeint_mshooting, odeint, time_reversed.
  cbn [idx nth_error bind coarse_method MSZero_default stepping_class Euler SolverTemplate].
  destruct (Rltb t1 t0).
  - change (negate_span (t0 :: t1 :: rest)) with (- t0 :: - t1 :: negate_span rest).
    change (mkSolver 1 fixed (2 / 10) 10 (9 / 10) Euler_step) with Euler.
    rewrite fixed_odeint_Euler_second_slot. reflexivity.
  - change (mkSolver 1 fixed (2 / 10) 10 (9 / 10) Euler_step) with Euler.
    rewrite fixed_odeint_Euler_second_slot. reflexivity.
Qed.

(** ** Two more runs of [odeint] on its adaptive path *)

(** With an interpolator the requested time [1/2] inside the accepted step
    [[0, 1]] is filled by dense output, and the end of the step is recorded
    as it is: the times returned are the grid. *)
Lemma odeint_HeunEuler_dense_output :
  exists states,
    odeint (first_step 1) 1 zero_field (vec [1]) [0; 1 / 2; 1] HeunEuler
      (1 / 1000) (1 / 1000) (Some midpoint_interpolator) false (false, None)
    = Ok ([0; 1 / 2; 0 + 1], states)
    /\ length states = 3%nat.
Proof.
  eexists. split.
  - unfold odeint, time_reversed. evaluate.
    rewrite Rleb_true.
    + evaluate. reflexivity.
    + apply hairer_norm_one_entry. unfold Rdiv. nra.
  - reflexivity.
Qed.

(** On the grid [[0, 0]] the loop of [_adaptive_odeint] is never entered:
    with [dopri5] itself the run returns, and the times it returns are [[0]],
    one entry short of the grid. *)
Lemma odeint_DormandPrince45_flat_grid (tab : Tableau) (init_step : InitStep)
    (fuel : nat) (f : VField) (x : Tensor) (atol rtol : R) :
  odeint init_step fuel f x [0; 0] (DormandPrince45 tab) atol rtol None false
    (false, None) = Ok ([0], [x]).
Proof.
  unfold odeint, time_reversed. cbn [idx nth_error bind].
  rewrite Rltb_false by lra.
  cbn [stepping_class DormandPrince45 SolverTemplate idx nth_error bind].
  unfold _adaptive_odeint.
  cbn [cfg_t_span idx_last idx nth_error bind last].
  destruct fuel; cbn [adaptive_loop a_t]; rewrite Rltb_false by lra; reflexivity.
Qed.

(** * Further properties of the drivers and the solvers *)

(** ** [_fixed_odeint] with a solver that follows its convention *)

Lemma tensors_of_map (l : list Tensor) : tensors_of (map VTensor l) = Ok l.
Proof. induction l as [| x l IH]; simpl; [reflexivity |]. rewrite IH. reflexivity. Qed.

Lemma steps_along_cons (phi : R -> R -> Tensor -> Tensor) (x : Tensor) (t t' : R)
    (grid : list R) :
  steps_along phi x (t :: t' :: grid) = x :: steps_along phi (phi t (t' - t) x) (t' :: grid).
Proof. reflexivity. Qed.

Lemma steps_along_head (phi : R -> R -> Tensor -> Tensor) (x : Tensor) (grid : list R) :
  steps_along phi x grid = x :: tl (steps_along phi x grid).
Proof. destruct grid as [| t [| t' grid]]; reflexivity. Qed.

Lemma steps_along_length (phi : R -> R -> Tensor -> Tensor) (grid : list R) :
  forall x, grid <> [] -> length (steps_along phi x grid) = length grid.
Proof.
  induction grid as [| t grid IH]; intros x H; [contradiction |].
  destruct grid as [| t' grid]; [reflexivity |].
  rewrite steps_along_cons. cbn [length]. f_equal. apply IH. discriminate.
Qed.

Lemma skipn_cons_nth_error {A : Type} (l : list A) (n : nat) (a : A) (rest : list A) :
  skipn n l = a :: rest -> nth_error l n = Some a /\ skipn (S n) l = rest.
Proof.
  revert n. induction l as [| b l IH]; intros [| n] H; simpl in *; try discriminate.
  - injection H as -> ->. auto.
  - apply IH. exact H.
Qed.

Lemma skipn_cons_length {A : Type} (l : list A) (n : nat) (a : A) (rest : list A) :
  skipn n l = a :: rest -> length l = (n + S (length rest))%nat.
Proof.
  intros H. pose proof (length_skipn n l) as E. rewrite H in E. simpl in E. lia.
Qed.

Section FixedSteps.
Variable f : VField.
Variable solver : Solver.
Variable phi : R -> R -> Tensor -> Tensor.
Hypothesis Hstep :
  forall x t dt, exists a c,
    step solver f (VTensor x) t dt VNone = Ok [a; VTensor (phi t dt x); c].

(** The loop of [_fixed_odeint] from the round [steps], with the grid points
    [suffix] still ahead. *)
Lemma fixed_loop_steps_along (t_span : list R) :
  forall (suffix : list R) (steps : nat) (x : Tensor) (t dt : R) (sol : list value),
    skipn steps t_span = suffix ->
    (forall t', hd_error suffix = Some t' -> dt = t' - t) ->
    fixed_loop (length suffix) f solver t_span (VTensor x) t dt steps sol
    = Ok (sol ++ map VTensor (tl (steps_along phi x (t :: suffix)))).
Proof.
  induction suffix as [| t' suffix IH]; intros steps x t dt sol Hskip Hdt.
  - simpl. rewrite app_nil_r. reflexivity.
  - pose proof (skipn_cons_length _ _ _ _ Hskip) as Hlen.
    apply skipn_cons_nth_error in Hskip. destruct Hskip as [_ Hskip].
    rewrite (Hdt t' eq_refl).
    cbn [length fixed_loop].
    destruct (Hstep x t (t' - t)) as [a [c ->]]. cbn [bind unpack3].
    replace (t + (t' - t)) with t' by ring.
    rewrite steps_along_cons. cbn [tl].
    rewrite (steps_along_head phi (phi t (t' - t) x) (t' :: suffix)).
    cbn [map].
    set (x' := phi t (t' - t) x).
    set (more := map VTensor (tl (steps_along phi x' (t' :: suffix)))).
    replace (sol ++ VTensor x' :: more) with ((sol ++ [VTensor x']) ++ more)
      by (rewrite <- app_assoc; reflexivity).
    subst more.
    destruct suffix as [| t'' suffix].
    + destruct (Nat.ltb_spec steps (length t_span - 1)) as [Hlt | _];
        [simpl in Hlen; lia |].
      cbn [bind]. apply (IH (S steps)); [exact Hskip | discriminate].
    + destruct (Nat.ltb_spec steps (length t_span - 1)) as [_ | Hge];
        [| simpl in Hlen; lia].
      pose proof Hskip as Hskip'.
      apply skipn_cons_nth_error in Hskip'. destruct Hskip' as [Hnth _].
      unfold idx. replace (steps + 1)%nat with (S steps) by lia.
      rewrite Hnth. cbn [bind].
      apply (IH (S steps)); [exact Hskip |].
      intros t3 H3. simpl in H3. injection H3 as <-. reflexivity.
Qed.

Lemma fixed_odeint_run (x : Tensor) (t0 t1 : R) (rest : list R) :
  _fixed_odeint f (VTensor x) (t0 :: t1 :: rest) solver
  = Ok (t0 :: t1 :: rest, steps_along phi x (t0 :: t1 :: rest)).
Proof.
  unfold _fixed_odeint. cbn [idx nth_error idx_last bind].
  replace (length (t0 :: t1 :: rest) - 1)%nat with (length (t1 :: rest))
    by (simpl; lia).
  rewrite (fixed_loop_steps_along (t0 :: t1 :: rest) (t1 :: rest) 1 x t0 (t1 - t0)
             [VTensor x]).
  - change ([VTensor x] ++ map VTensor (tl (steps_along phi x (t0 :: t1 :: rest))))
      with (map VTensor (x :: tl (steps_along phi x (t0 :: t1 :: rest)))).
    rewrite <- steps_along_head. cbn [bind]. rewrite tensors_of_map. reflexivity.
  - reflexivity.
  - intros t' H. simpl in H. injection H as <-. reflexivity.
Qed.
End FixedSteps.

(** X1.  For a solver whose [step] returns the advanced state in the second
    slot of its tuple, [_fixed_odeint] on a grid of two or more points returns
    the grid itself and one state per grid point: the initial state, and
    then each state advanced from its grid point to the next, with the
    difference of the two grid points as the step size (the grid need not be
    uniform). *)
Theorem fixed_odeint_steps_along_grid :
  forall (f : VField) (solver : Solver) (phi : R -> R -> Tensor -> Tensor),
    (forall x t dt, exists a c,
        step solver f (VTensor x) t dt VNone = Ok [a; VTensor (phi t dt x); c]) ->
    forall (x : Tensor) (t0 t1 : R) (rest : list R),
      _fixed_odeint f (VTensor x) (t0 :: t1 :: rest) solver
      = Ok (t0 :: t1 :: rest, steps_along phi x (t0 :: t1 :: rest))
      /\ length (steps_along phi x (t0 :: t1 :: rest)) = length (t0 :: t1 :: rest).
Proof.
  intros f solver phi Hstep x t0 t1 rest. split.
  - apply fixed_odeint_run. exact Hstep.
  - apply steps_along_length. discriminate.
Qed.

Lemma EulerSecond_update (f : VField) (x : Tensor) (t dt : R) :
  exists a c,
    step EulerSecond f (VTensor x) t dt VNone = Ok [a; VTensor (euler_update f t dt x); c].
Proof. exists VNone, VNone. reflexivity. Qed.

Lemma fixed_odeint_steps_along_grid_witness :
  _fixed_odeint (linear_field 1) (VTensor (vec [1])) [0; 1; 3] EulerSecond
  = Ok ([0; 1; 3], steps_along (euler_update (linear_field 1)) (vec [1]) [0; 1; 3])
  /\ length (steps_along (euler_update (linear_field 1)) (vec [1]) [0; 1; 3])
     = length [0; 1; 3].
Proof.
  apply (fixed_odeint_steps_along_grid (linear_field 1) EulerSecond
           (euler_update (linear_field 1))).
  intros x t dt. apply EulerSecond_update.
Defined.

Lemma last_nonempty {A : Type} (l : list A) (d d' : A) :
  l <> [] -> last l d = last l d'.
Proof.
  induction l as [| a l IH]; intros H; [contradiction |].
  destruct l as [| b l]; [reflexivity |].
  change (last (a :: b :: l) d) with (last (b :: l) d).
  change (last (a :: b :: l) d') with (last (b :: l) d').
  apply IH. discriminate.
Qed.

Lemma steps_along_nonempty (phi : R -> R -> Tensor -> Tensor) (x : Tensor)
    (grid : list R) :
  steps_along phi x grid <> [].
Proof. rewrite steps_along_head. discriminate. Qed.

Lemma steps_along_restart (phi : R -> R -> Tensor -> Tensor) (tm : R) (post : list R) :
  forall (pre : list R) (x : Tensor),
    pre <> [] ->
    steps_along phi x (pre ++ tm :: post)
    = steps_along phi x (pre ++ [tm])
      ++ tl (steps_along phi (last (steps_along phi x (pre ++ [tm])) x) (tm :: post)).
Proof.
  induction pre as [| t0 pre IH]; intros x H; [contradiction |].
  destruct pre as [| t1 pre].
  - cbn [app]. rewrite !steps_along_cons.
    change (steps_along phi (phi t0 (tm - t0) x) [tm]) with [phi t0 (tm - t0) x].
    cbn [last app].
    rewrite (steps_along_head phi (phi t0 (tm - t0) x) (tm :: post)) at 1.
    reflexivity.
  - set (x1 := phi t0 (t1 - t0) x).
    assert (E1 : steps_along phi x ((t0 :: t1 :: pre) ++ tm :: post)
                 = x :: steps_along phi x1 ((t1 :: pre) ++ tm :: post)) by reflexivity.
    assert (E2 : steps_along phi x ((t0 :: t1 :: pre) ++ [tm])
                 = x :: steps_along phi x1 ((t1 :: pre) ++ [tm])) by reflexivity.
    rewrite E1, E2. rewrite (IH x1) by discriminate.
    set (S1 := steps_along phi x1 ((t1 :: pre) ++ [tm])).
    assert (El : last (x :: S1) x = last S1 x1).
    { assert (Hne : S1 <> []) by apply steps_along_nonempty.
      destruct S1 as [| s rest]; [contradiction |].
      change (last (x :: s :: rest) x) with (last (s :: rest) x).
      apply last_nonempty. discriminate. }
    rewrite El. reflexivity.
Qed.

(** X2.  Restarting a fixed-step run: for a solver that follows the
    convention of [_fixed_odeint], the run over a grid is the run over its
    first part followed by the run over the rest, started from the last state
    of the first part at the grid point the two parts share. *)
Theorem fixed_odeint_restart :
  forall (f : VField) (solver : Solver) (phi : R -> R -> Tensor -> Tensor),
    (forall x t dt, exists a c,
        step solver f (VTensor x) t dt VNone = Ok [a; VTensor (phi t dt x); c]) ->
    forall (x : Tensor) (t0 tm t1 : R) (pre post : list R),
    exists states1 states2,
      _fixed_odeint f (VTensor x) (t0 :: pre ++ [tm]) solver
        = Ok (t0 :: pre ++ [tm], states1)
      /\ _fixed_odeint f (VTensor (last states1 x)) (tm :: t1 :: post) solver
        = Ok (tm :: t1 :: post, states2)
      /\ _fixed_odeint f (VTensor x) (t0 :: pre ++ tm :: t1 :: post) solver
        = Ok (t0 :: pre ++ tm :: t1 :: post, states1 ++ tl states2).
Proof.
  intros f solver phi Hstep x t0 tm t1 pre post.
  exists (steps_along phi x ((t0 :: pre) ++ [tm])).
  exists (steps_along phi (last (steps_along phi x ((t0 :: pre) ++ [tm])) x)
            (tm :: t1 :: post)).
  split; [| split].
  - destruct pre as [| t' pre]; apply (fixed_odeint_run f solver phi Hstep).
  - apply (fixed_odeint_run f solver phi Hstep).
  - rewrite <- (steps_along_restart phi tm (t1 :: post) (t0 :: pre) x) by discriminate.
    destruct pre as [| t' pre]; apply (fixed_odeint_run f solver phi Hstep).
Qed.

Lemma fixed_odeint_restart_witness :
  exists states1 states2,
    _fixed_odeint (linear_field 1) (VTensor (vec [1])) (0 :: [] ++ [1]) EulerSecond
      = Ok (0 :: [] ++ [1], states1)
    /\ _fixed_odeint (linear_field 1) (VTensor (last states1 (vec [1]))) (1 :: 3 :: [])
         EulerSecond
      = Ok (1 :: 3 :: [], states2)
    /\ _fixed_odeint (linear_field 1) (VTensor (vec [1])) (0 :: [] ++ 1 :: 3 :: [])
         EulerSecond
      = Ok (0 :: [] ++ 1 :: 3 :: [], states1 ++ tl states2).
Proof.
  apply (fixed_odeint_restart (linear_field 1) EulerSecond (euler_update (linear_field 1))).
  intros x t dt. apply EulerSecond_update.
Defined.

(** ** The drivers on grids with nothing to integrate *)

(** X3.  [odeint] needs two grid points: on an empty grid and on a grid of
    one point it raises an [IndexError] at [t_span[1]], for every solver,
    vector field and option; so does [_fixed_odeint] called directly. *)
Theorem odeint_needs_two_grid_points :
  forall (init_step : InitStep) (fuel : nat) (f : VField) (x : Tensor) (solver : Solver)
         (atol rtol : R) (interpolator : option Interpolator) (return_all_eval : bool)
         (seminorm : Seminorm),
    odeint init_step fuel f x [] solver atol rtol interpolator return_all_eval seminorm
      = Raise IndexError
    /\ (forall t0,
          odeint init_step fuel f x [t0] solver atol rtol interpolator return_all_eval
            seminorm = Raise IndexError)
    /\ _fixed_odeint f (VTensor x) [] solver = Raise IndexError
    /\ (forall t0, _fixed_odeint f (VTensor x) [t0] solver = Raise IndexError).
Proof. intros. repeat split; reflexivity. Qed.

Lemma adaptive_loop_exit (fuel : nat) (cfg : AdaptiveConfig) (T : R) (st : AdaptiveState) :
  ~ a_t st < T -> adaptive_loop fuel cfg T st = Ok st.
Proof. intros H. destruct fuel; simpl; rewrite (Rltb_false _ _ H); reflexivity. Qed.

(** X4.  When the last grid point is not after the first, the loop of
    [_adaptive_odeint] is not entered: the run returns the first grid point
    and the initial state alone, whatever the solver, the proposed step and
    the rest of the grid, and never calls the solver. *)
Theorem adaptive_odeint_nothing_to_integrate :
  forall (fuel : nat) (cfg : AdaptiveConfig) (k1 : value) (x : Tensor) (dt t0 T : R),
    idx (cfg_t_span cfg) 0 = Ok t0 ->
    idx_last (cfg_t_span cfg) = Ok T ->
    T <= t0 ->
    _adaptive_odeint fuel cfg k1 x dt = Ok ([t0], [x]).
Proof.
  intros fuel cfg k1 x dt t0 T H0 HT Hle. unfold _adaptive_odeint.
  rewrite HT, H0. cbn [bind]. rewrite adaptive_loop_exit; [reflexivity |].
  cbn [a_t]. lra.
Qed.

Lemma adaptive_odeint_nothing_to_integrate_witness :
  _adaptive_odeint 0
    (mkAdaptiveConfig zero_field [0; 1; 0] HeunEuler (1 / 1000) (1 / 1000) None false
       (false, None))
    VNone (vec [1]) 1
  = Ok ([0], [vec [1]]).
Proof.
  apply (adaptive_odeint_nothing_to_integrate 0 _ VNone (vec [1]) 1 0 0);
    [reflexivity | reflexivity | lra].
Defined.

(** ** The solvers of [solvers.py] under [odeint] and [odeint_hybrid] *)

Lemma time_reversed_two (t0 t1 : R) (rest : list R) :
  time_reversed (t0 :: t1 :: rest) = Ok (Rltb t1 t0).
Proof. reflexivity. Qed.

(** X5.  [odeint] with the fixed-step solvers [Euler] and [RungeKutta4] of
    [solvers.py] never returns, on any grid of two or more points, ascending
    or descending, for every vector field and state: both return their state
    in the third slot of the tuple and [None] in the second, the one
    [_fixed_odeint] reads.  On a grid of two points the run raises a
    [TypeError], at [torch.stack]. *)
Theorem odeint_fixed_step_solvers_raise :
  forall (tab : Tableau) (init_step : InitStep) (fuel : nat) (f : VField) (x : Tensor)
         (t0 t1 : R) (rest : list R) (atol rtol : R)
         (interpolator : option Interpolator) (return_all_eval : bool)
         (seminorm : Seminorm),
    (forall r,
        odeint init_step fuel f x (t0 :: t1 :: rest) Euler atol rtol interpolator
          return_all_eval seminorm <> Ok r)
    /\ (forall r,
          odeint init_step fuel f x (t0 :: t1 :: rest) (RungeKutta4 tab) atol rtol
            interpolator return_all_eval seminorm <> Ok r)
    /\ odeint init_step fuel f x [t0; t1] Euler atol rtol interpolator
         return_all_eval seminorm = Raise TypeError
    /\ odeint init_step fuel f x [t0; t1] (RungeKutta4 tab) atol rtol
         interpolator return_all_eval seminorm = Raise TypeError.
Proof.
  intros.
  assert (H : forall rest',
             odeint init_step fuel f x (t0 :: t1 :: rest') Euler atol rtol interpolator
               return_all_eval seminorm = Raise TypeError
             /\ odeint init_step fuel f x (t0 :: t1 :: rest') (RungeKutta4 tab) atol rtol
                  interpolator return_all_eval seminorm = Raise TypeError).
  { intros rest'. unfold odeint. rewrite time_reversed_two. cbn [bind].
    change (stepping_class Euler) with fixed.
    change (stepping_class (RungeKutta4 tab)) with fixed. cbv iota.
    change (negate_span (t0 :: t1 :: rest')) with (- t0 :: - t1 :: negate_span rest').
    destruct (Rltb t1 t0); (split;
      [ exact (fixed_odeint_Euler_second_slot _ _ _ _ _)
      | exact (fixed_odeint_RungeKutta4_raises _ _ _ _ _ _) ]). }
  split; [intros r; rewrite (proj1 (H rest)); discriminate |].
  split; [intros r; rewrite (proj2 (H rest)); discriminate |].
  exact (H []).
Qed.

Lemma adaptive_odeint_DormandPrince45_raises (tab : Tableau) (fuel : nat)
    (cfg : AdaptiveConfig) (k1 x : Tensor) (dt a b : R) :
  cfg_solver cfg = DormandPrince45 tab ->
  idx (cfg_t_span cfg) 0 = Ok a ->
  idx_last (cfg_t_span cfg) = Ok b ->
  a < b ->
  _adaptive_odeint (S fuel) cfg (VTensor k1) x dt = Raise ValueError.
Proof.
  intros Hs Ha Hb Hlt. unfold _adaptive_odeint. rewrite Hb, Ha.
  cbn [bind adaptive_loop a_t]. rewrite (Rltb_true _ _ Hlt).
  erewrite adaptive_iter_DormandPrince45_raises; [reflexivity | exact Hs | reflexivity].
Qed.

(** X6.  [odeint] with the adaptive solvers [DormandPrince45] and
    [Tsitouras45] of [solvers.py] raises a [ValueError] whenever there is
    something to integrate - the first point of the oriented grid lies before
    its last - on ascending and descending grids alike: their [step] returns
    three values and the adaptive driver unpacks four. *)
Theorem odeint_adaptive_solvers_raise :
  forall (tab : Tableau) (init_step : InitStep) (fuel : nat) (f : VField) (x : Tensor)
         (t0 t1 : R) (rest : list R) (atol rtol : R)
         (interpolator : option Interpolator) (return_all_eval : bool)
         (seminorm : Seminorm) (a b : R),
    idx (oriented_span (t0 :: t1 :: rest)) 0 = Ok a ->
    idx_last (oriented_span (t0 :: t1 :: rest)) = Ok b ->
    a < b ->
    odeint init_step (S fuel) f x (t0 :: t1 :: rest) (DormandPrince45 tab) atol rtol
      interpolator return_all_eval seminorm = Raise ValueError
    /\ odeint init_step (S fuel) f x (t0 :: t1 :: rest) (Tsitouras45 tab) atol rtol
         interpolator return_all_eval seminorm = Raise ValueError.
Proof.
  intros tab init_step fuel f x t0 t1 rest atol rtol ip rae sn a b Ha Hb Hlt.
  rewrite (oriented_span_cases _ _ (time_reversed_two t0 t1 rest)) in Ha, Hb.
  assert (H : odeint init_step (S fuel) f x (t0 :: t1 :: rest) (DormandPrince45 tab)
                atol rtol ip rae sn = Raise ValueError).
  { unfold odeint. rewrite time_reversed_two. cbn [bind].
    change (stepping_class (DormandPrince45 tab)) with adaptive. cbv iota.
    rewrite Ha. cbn [bind].
    eapply adaptive_odeint_DormandPrince45_raises;
      [reflexivity | exact Ha | exact Hb | exact Hlt]. }
  split; exact H.
Qed.

Lemma odeint_adaptive_solvers_raise_witness :
  odeint (first_step 1) 1 zero_field (vec [1]) [0; 1] (DormandPrince45 blank_tableau)
    (1 / 1000) (1 / 1000) None false (false, None) = Raise ValueError
  /\ odeint (first_step 1) 1 zero_field (vec [1]) [0; 1] (Tsitouras45 blank_tableau)
       (1 / 1000) (1 / 1000) None false (false, None) = Raise ValueError.
Proof.
  apply (odeint_adaptive_solvers_raise blank_tableau (first_step 1) 0 zero_field (vec [1])
           0 1 [] (1 / 1000) (1 / 1000) None false (false, None) 0 1);
    [evaluate; reflexivity | evaluate; reflexivity | lra].
Defined.

(** ** The events of [odeint_hybrid] *)

Lemma triggered_no_events (callbacks : list Callback) (t : R) (x : Tensor) :
  triggered_events (check_events callbacks t x) (no_events callbacks)
  = length (filter (fun cb => check_event cb t x) callbacks).
Proof.
  unfold triggered_events, check_events, no_events.
  induction callbacks as [| cb cbs IH]; [reflexivity |].
  cbn [map combine filter fst snd]. rewrite xorb_false_r, andb_true_r.
  destruct (check_event cb t x); cbn [length]; rewrite IH; reflexivity.
Qed.

Lemma triggered_positive (callbacks : list Callback) (t : R) (x : Tensor) :
  (0 <? triggered_events (check_events callbacks t x) (no_events callbacks))%nat
  = existsb (fun cb => check_event cb t x) callbacks.
Proof.
  rewrite triggered_no_events.
  induction callbacks as [| cb cbs IH]; [reflexivity |].
  cbn [filter existsb]. destruct (check_event cb t x); [reflexivity | exact IH].
Qed.

Lemma first_true_find (callbacks : list Callback) (t : R) (x : Tensor) :
  existsb (fun cb => check_event cb t x) callbacks = true ->
  exists i cb,
    first_true (check_events callbacks t x) = Ok i
    /\ nth_error callbacks i = Some cb
    /\ find (fun cb => check_event cb t x) callbacks = Some cb.
Proof.
  unfold check_events.
  induction callbacks as [| cb cbs IH]; intros H; [discriminate |].
  cbn [map first_true find existsb] in *.
  destruct (check_event cb t x) eqn:E.
  - exists 0%nat, cb. auto.
  - destruct (IH H) as [i [cb' [H1 [H2 H3]]]].
    exists (S i), cb'. rewrite H1. auto.
Qed.

Lemma find_none_existsb (callbacks : list Callback) (t : R) (x : Tensor) :
  existsb (fun cb => check_event cb t x) callbacks = false ->
  find (fun cb => check_event cb t x) callbacks = None.
Proof.
  induction callbacks as [| cb cbs IH]; intros H; [reflexivity |].
  cbn [find existsb] in *. destruct (check_event cb t x); [discriminate | auto].
Qed.

Lemma initial_jump_find (cfg : HybridConfig) (t : R) (x : Tensor) :
  initial_jump cfg (no_events (hcfg_callbacks cfg)) t x
  = Ok (if hcfg_priority_jump cfg
        then match find (fun cb => check_event cb t x) (hcfg_callbacks cfg) with
             | Some cb => (jump_map cb t x, 1%nat)
             | None => (x, 0%nat)
             end
        else (x, 0%nat)).
Proof.
  unfold initial_jump. destruct (hcfg_priority_jump cfg); [| reflexivity].
  rewrite triggered_positive.
  destruct (existsb _ (hcfg_callbacks cfg)) eqn:E.
  - destruct (first_true_find _ _ _ E) as [i [cb [H1 [H2 H3]]]].
    rewrite H1. cbn [bind]. rewrite H2, H3. reflexivity.
  - rewrite (find_none_existsb _ _ _ E). reflexivity.
Qed.

(** X7.  The initial-jump block of [odeint_hybrid] never raises.  With
    [priority = 'jump'] the state is replaced by the jump map of the first
    callback, in the order of the list, whose event holds at the initial time
    and state, and one jump is counted; when no event holds, or with another
    priority, the state is kept and no jump is counted. *)
Theorem initial_jump_takes_first_event :
  forall (cfg : HybridConfig) (t : R) (x : Tensor),
    initial_jump cfg (no_events (hcfg_callbacks cfg)) t x
    = Ok (if hcfg_priority_jump cfg
          then match find (fun cb => check_event cb t x) (hcfg_callbacks cfg) with
               | Some cb => (jump_map cb t x, 1%nat)
               | None => (x, 0%nat)
               end
          else (x, 0%nat)).
Proof. exact initial_jump_find. Qed.


(** ** The jump counter of [odeint_hybrid] *)

Lemma bisect_loop_j_span (j : nat) (cfg : HybridConfig) (event_states : list bool)
    (dt : R) :
  forall (fuel : nat) (b : Bisection),
    bisect_loop fuel (with_j_span j cfg) event_states dt b
    = bisect_loop fuel cfg event_states dt b.
Proof.
  induction fuel as [| fuel IH]; intros b; [reflexivity |].
  rewrite !bisect_loop_unfold.
  change (hcfg_event_tol (with_j_span j cfg)) with (hcfg_event_tol cfg).
  change (bisect_iter (with_j_span j cfg) event_states dt b)
    with (bisect_iter cfg event_states dt b).
  destruct (_ && _); [| reflexivity].
  destruct (bisect_iter cfg event_states dt b); cbn [bind]; [apply IH | |]; reflexivity.
Qed.

Lemma hybrid_iter_j_span (j : nat) (cfg : HybridConfig) (T : R) (event_states : list bool)
    (st : HybridState) :
  hybrid_iter (with_j_span j cfg) T event_states st = hybrid_iter cfg T event_states st.
Proof.
  unfold hybrid_iter.
  change (hybrid_setup (with_j_span j cfg) T st) with (hybrid_setup cfg T st).
  change (hybrid_trial (with_j_span j cfg) T st) with (hybrid_trial cfg T st).
  change (hcfg_callbacks (with_j_span j cfg)) with (hcfg_callbacks cfg).
  destruct (hybrid_setup cfg T st) as [[[dt flag] dt_old] c].
  destruct (hybrid_trial cfg T st) as [[[f_new x_new] x_err] | e |]; cbn [bind];
    [| reflexivity | reflexivity].
  destruct (0 <? _)%nat; [| reflexivity].
  unfold hybrid_event. rewrite bisect_loop_j_span. reflexivity.
Qed.

Lemma hybrid_iter_jnum (cfg : HybridConfig) (T : R) (event_states : list bool)
    (st st' : HybridState) :
  hybrid_iter cfg T event_states st = Ok st' -> h_jnum st' = h_jnum st.
Proof.
  unfold hybrid_iter. intros H.
  destruct (hybrid_setup cfg T st) as [[[dt flag] dt_old] c].
  bind_inv H. destruct a as [[f_new x_new] x_err].
  destruct (0 <? _)%nat.
  - unfold hybrid_event in H. bind_inv H. bind_inv H. bind_inv H.
    injection H as <-. reflexivity.
  - unfold hybrid_control in H. bind_inv H. bind_inv H.
    destruct (Rleb a0 1); injection H as <-; reflexivity.
Qed.

Lemma hybrid_loop_jnum (cfg : HybridConfig) (T : R) (event_states : list bool) :
  forall (fuel : nat) (st st' : HybridState),
    hybrid_loop fuel cfg T event_states st = Ok st' ->
    h_jnum st' = h_jnum st
    /\ ((h_jnum st < hcfg_j_span cfg)%nat -> ~ h_t st' < T).
Proof.
  induction fuel as [| fuel IH]; intros st st' H; simpl in H.
  - destruct (Rltb (h_t st) T) eqn:Et; destruct (h_jnum st <? hcfg_j_span cfg)%nat eqn:Ej;
      cbn [andb] in H; try discriminate; injection H as <-; (split; [reflexivity |]);
      intros Hj Hlt.
    + apply Nat.ltb_ge in Ej. lia.
    + apply Rltb_true in Hlt. congruence.
    + apply Rltb_true in Hlt. congruence.
  - destruct (Rltb (h_t st) T) eqn:Et; destruct (h_jnum st <? hcfg_j_span cfg)%nat eqn:Ej;
      cbn [andb] in H.
    + bind_inv H. apply IH in H. apply hybrid_iter_jnum in Hrun.
      rewrite Hrun in H. exact H.
    + injection H as <-. split; [reflexivity |]. intros Hj. apply Nat.ltb_ge in Ej. lia.
    + injection H as <-. split; [reflexivity |]. intros _ Hlt.
      apply Rltb_true in Hlt. congruence.
    + injection H as <-. split; [reflexivity |]. intros _ Hlt.
      apply Rltb_true in Hlt. congruence.
Qed.

Lemma hybrid_loop_j_span (j : nat) (cfg : HybridConfig) (T : R)
    (event_states : list bool) :
  forall (fuel : nat) (st : HybridState),
    (h_jnum st < 2)%nat ->
    hybrid_loop fuel (with_j_span (S (S j)) cfg) T event_states st
    = hybrid_loop fuel (with_j_span 2 cfg) T event_states st.
Proof.
  induction fuel as [| fuel IH]; intros st Hj; simpl.
  - destruct (Nat.ltb_spec (h_jnum st) (S (S j))); [| lia].
    destruct (Nat.ltb_spec (h_jnum st) 2); [| lia]. reflexivity.
  - destruct (Nat.ltb_spec (h_jnum st) (S (S j))); [| lia].
    destruct (Nat.ltb_spec (h_jnum st) 2); [| lia].
    destruct (Rltb (h_t st) T); cbn [andb]; [| reflexivity].
    rewrite !hybrid_iter_j_span.
    destruct (hybrid_iter cfg T event_states st) as [st' | e |] eqn:E; cbn [bind];
      try reflexivity.
    apply IH. rewrite (hybrid_iter_jnum _ _ _ _ _ E). exact Hj.
Qed.

(** X9.  [j_span] does not bound the number of jumps: [jnum] is
    incremented by the initial jump only and never inside the loop, so the
    test [jnum < j_span] of the loop never changes.  Every [j_span] of two or
    more gives one and the same run. *)
Theorem j_span_does_not_bound_jumps :
  forall (init_step : InitStep) (fuel : nat) (cfg : HybridConfig) (x : Tensor) (j : nat),
    odeint_hybrid init_step fuel (with_j_span (S (S j)) cfg) x
    = odeint_hybrid init_step fuel (with_j_span 2 cfg) x.
Proof.
  intros init_step fuel cfg x j. unfold odeint_hybrid.
  change (hcfg_t_span (with_j_span (S (S j)) cfg)) with (hcfg_t_span cfg).
  change (hcfg_t_span (with_j_span 2 cfg)) with (hcfg_t_span cfg).
  destruct (idx_last (hcfg_t_span cfg)) as [T | e |]; cbn [bind]; try reflexivity.
  destruct (idx (hcfg_t_span cfg) 0) as [t | e |]; cbn [bind]; try reflexivity.
  change (hcfg_callbacks (with_j_span (S (S j)) cfg)) with (hcfg_callbacks cfg).
  change (hcfg_callbacks (with_j_span 2 cfg)) with (hcfg_callbacks cfg).
  change (map (fun _ : Callback => false) (hcfg_callbacks cfg))
    with (no_events (hcfg_callbacks cfg)).
  pose proof (initial_jump_find (with_j_span (S (S j)) cfg) t x) as H1.
  pose proof (initial_jump_find (with_j_span 2 cfg) t x) as H2.
  change (hcfg_callbacks (with_j_span (S (S j)) cfg)) with (hcfg_callbacks cfg) in H1.
  change (hcfg_callbacks (with_j_span 2 cfg)) with (hcfg_callbacks cfg) in H2.
  change (hcfg_priority_jump (with_j_span (S (S j)) cfg))
    with (hcfg_priority_jump cfg) in H1.
  change (hcfg_priority_jump (with_j_span 2 cfg)) with (hcfg_priority_jump cfg) in H2.
  rewrite H1, H2. cbn [bind].
  set (r := if hcfg_priority_jump cfg then _ else _).
  assert (Hr : (snd r < 2)%nat).
  { subst r. destruct (hcfg_priority_jump cfg); [| simpl; lia].
    destruct (find _ _); simpl; lia. }
  destruct r as [x' jnum]. cbn [snd] in Hr.
  rewrite hybrid_loop_j_span by exact Hr. reflexivity.
Qed.

Lemma odeint_hybrid_DormandPrince45 (tab : Tableau) (init_step : InitStep) (fuel : nat)
    (cfg : HybridConfig) (x : Tensor) (a b : R) :
  hcfg_solver cfg = DormandPrince45 tab ->
  idx (hcfg_t_span cfg) 0 = Ok a ->
  idx_last (hcfg_t_span cfg) = Ok b ->
  a < b ->
  (2 <= hcfg_j_span cfg)%nat ->
  odeint_hybrid init_step (S fuel) cfg x = Raise ValueError.
Proof.
  intros Hs Ha Hb Hlt Hj. unfold odeint_hybrid. rewrite Hb, Ha. cbn [bind].
  change (map (fun _ : Callback => false) (hcfg_callbacks cfg))
    with (no_events (hcfg_callbacks cfg)).
  rewrite initial_jump_find. cbn [bind].
  set (r := if hcfg_priority_jump cfg then _ else _).
  assert (Hr : (snd r < 2)%nat).
  { subst r. destruct (hcfg_priority_jump cfg); [| simpl; lia].
    destruct (find _ _); simpl; lia. }
  destruct r as [x' jnum]. cbn [snd] in Hr.
  cbn [hybrid_loop h_t h_jnum]. rewrite (Rltb_true _ _ Hlt).
  destruct (Nat.ltb_spec jnum (hcfg_j_span cfg)); [| lia]. cbn [andb].
  erewrite hybrid_iter_DormandPrince45_raises; [reflexivity | exact Hs | reflexivity].
Qed.

(** X10.  [odeint_hybrid] with the adaptive solvers [DormandPrince45] and
    [Tsitouras45] of [solvers.py] raises a [ValueError] in its first round,
    whenever the grid starts before its end and [j_span] is two or more: the
    hybrid driver unpacks four values from the three that [step] returns. *)
Theorem odeint_hybrid_adaptive_solvers_raise :
  forall (tab : Tableau) (init_step : InitStep) (fuel : nat) (cfg : HybridConfig)
         (x : Tensor) (a b : R),
    hcfg_solver cfg = DormandPrince45 tab \/ hcfg_solver cfg = Tsitouras45 tab ->
    idx (hcfg_t_span cfg) 0 = Ok a ->
    idx_last (hcfg_t_span cfg) = Ok b ->
    a < b ->
    (2 <= hcfg_j_span cfg)%nat ->
    odeint_hybrid init_step (S fuel) cfg x = Raise ValueError.
Proof.
  intros tab init_step fuel cfg x a b [Hs | Hs] Ha Hb Hlt Hj;
    eapply odeint_hybrid_DormandPrince45; eassumption.
Qed.

Lemma odeint_hybrid_adaptive_solvers_raise_witness :
  odeint_hybrid (first_step 1) 1
    (mkHybridConfig zero_field [0; 1] 2 (Tsitouras45 blank_tableau) [ground_event]
       (1 / 1000) (1 / 1000) (1 / 10000) true (false, None))
    (vec [1])
  = Raise ValueError.
Proof.
  apply (odeint_hybrid_adaptive_solvers_raise blank_tableau (first_step 1) 0 _ (vec [1])
           0 1);
    [right; reflexivity | reflexivity | reflexivity | lra | simpl; lia].
Defined.

(** ** The samples of a hybrid run *)

Lemma last_snoc_R (l : list R) (a d : R) : last (l ++ [a]) d = a.
Proof. apply last_last. Qed.

Lemma hd_error_app_some {A : Type} (l more : list A) (a : A) :
  hd_error l = Some a -> hd_error (l ++ more) = Some a.
Proof. destruct l; simpl; [discriminate | auto]. Qed.

Section HybridSamples.
Variable cfg : HybridConfig.
Variable T t0 : R.
Variable event_states : list bool.

Lemma hybrid_iter_paired (st st' : HybridState) :
  hybrid_paired t0 st -> hybrid_iter cfg T event_states st = Ok st' ->
  hybrid_paired t0 st'.
Proof.
  intros [Hlen [Hhd Hlast]] H. unfold hybrid_iter in H.
  destruct (hybrid_setup cfg T st) as [[[dt flag] dt_old] c].
  bind_inv H. destruct a as [[f_new x_new] x_err].
  destruct (0 <? _)%nat.
  - unfold hybrid_event in H. bind_inv H. bind_inv H. bind_inv H.
    injection H as <-. unfold hybrid_paired. cbn [h_eval_times h_sol h_t].
    rewrite !length_app, Hlen. split; [reflexivity |]. split.
    + rewrite <- app_assoc. apply hd_error_app_some. exact Hhd.
    + apply last_snoc_R.
  - unfold hybrid_control in H. bind_inv H. bind_inv H.
    destruct (Rleb a0 1); injection H as <-; unfold hybrid_paired;
      cbn [h_eval_times h_sol h_t].
    + rewrite !length_app, Hlen. split; [reflexivity |]. split.
      * apply hd_error_app_some. exact Hhd.
      * apply last_snoc_R.
    + auto.
Qed.

Lemma hybrid_loop_paired :
  forall (fuel : nat) (st st' : HybridState),
    hybrid_paired t0 st -> hybrid_loop fuel cfg T event_states st = Ok st' ->
    hybrid_paired t0 st'.
Proof.
  induction fuel as [| fuel IH]; intros st st' Hp H; simpl in H.
  - destruct (_ && _); [discriminate | injection H as <-; exact Hp].
  - destruct (_ && _); [| injection H as <-; exact Hp].
    bind_inv H. eapply IH; [| exact H]. eapply hybrid_iter_paired; eassumption.
Qed.
End HybridSamples.

(** X11.  Whenever [odeint_hybrid] returns, it returns as many times as
    states, the first time is the first grid point, and - for [j_span] of two
    or more - the last time recorded is not before the end of the grid: the
    run goes on through all events until the time has reached [t_span[-1]]. *)
Theorem odeint_hybrid_samples :
  forall (init_step : InitStep) (fuel : nat) (cfg : HybridConfig) (x : Tensor)
         (times : list R) (states : list Tensor) (t0 T : R),
    odeint_hybrid init_step fuel cfg x = Ok (times, states) ->
    idx (hcfg_t_span cfg) 0 = Ok t0 ->
    idx_last (hcfg_t_span cfg) = Ok T ->
    length times = length states
    /\ hd_error times = Some t0
    /\ ((2 <= hcfg_j_span cfg)%nat -> ~ last times 0 < T).
Proof.
  intros init_step fuel cfg x times states t0 T H H0 HT.
  unfold odeint_hybrid in H. rewrite HT, H0 in H. cbn [bind] in H.
  change (map (fun _ : Callback => false) (hcfg_callbacks cfg))
    with (no_events (hcfg_callbacks cfg)) in H.
  rewrite initial_jump_find in H. cbn [bind] in H.
  set (r := if hcfg_priority_jump cfg then _ else _) in H.
  assert (Hr : (snd r < 2)%nat).
  { subst r. destruct (hcfg_priority_jump cfg); [| simpl; lia].
    destruct (find _ _); simpl; lia. }
  destruct r as [x' jnum]. cbn [snd] in Hr.
  bind_inv H. injection H as <- <-.
  assert (Hp : hybrid_paired t0 a).
  { eapply hybrid_loop_paired; [| exact Hrun]. repeat split. }
  destruct Hp as [Hlen [Hhd Hlast]].
  apply hybrid_loop_jnum in Hrun. destruct Hrun as [_ Hexit]. cbn [h_jnum] in Hexit.
  split; [exact Hlen |]. split; [exact Hhd |].
  intros Hj. rewrite Hlast. apply Hexit. lia.
Qed.

Lemma odeint_hybrid_still_run :
  odeint_hybrid (first_step 1) 1 still_cfg (vec [1])
  = Ok ([0; 0 + 1], [vec [1]; (vec [1] + 1 .* vec [0])%T]).
Proof.
  unfold odeint_hybrid, still_cfg. evaluate.
  rewrite Rleb_true.
  - evaluate. reflexivity.
  - apply hairer_norm_one_entry. unfold Rdiv. nra.
Qed.

Lemma odeint_hybrid_samples_witness :
  length [0; 0 + 1] = length [vec [1]; (vec [1] + 1 .* vec [0])%T]
  /\ hd_error [0; 0 + 1] = Some 0
  /\ ((2 <= hcfg_j_span still_cfg)%nat -> ~ last [0; 0 + 1] 0 < 1).
Proof.
  exact (odeint_hybrid_samples (first_step 1) 1 still_cfg (vec [1]) _ _ 0 1
           odeint_hybrid_still_run eq_refl eq_refl).
Defined.

(** ** The samples of an adaptive run *)

Lemma interpolate_checkpoints_appends (ev : R -> Tensor) (t_eval : list R) (t dt : R) :
  forall (n c : nat) (times : list R) (sol : list Tensor)
         (c1 : nat) (times1 : list R) (sol1 : list Tensor),
    interpolate_checkpoints n ev t_eval t dt c times sol = (c1, times1, sol1) ->
    exists more_t more_s,
      times1 = times ++ more_t /\ sol1 = sol ++ more_s
      /\ length more_t = length more_s.
Proof.
  induction n as [| n IH]; intros c times sol c1 times1 sol1 H; simpl in H.
  - injection H as <- <- <-. exists [], []. rewrite !app_nil_r. auto.
  - destruct (checkpoint_ahead t_eval c t dt).
    + apply IH in H. destruct H as [mt [ms [H1 [H2 H3]]]].
      exists ([nth c t_eval 0] ++ mt), ([ev (nth c t_eval 0)] ++ ms).
      rewrite H1, H2, <- !app_assoc. cbn [length app]. auto.
    + injection H as <- <- <-. exists [], []. rewrite !app_nil_r. auto.
Qed.

Lemma accept_trial_samples (cfg : AdaptiveConfig) (st : AdaptiveState) (dt : R)
    (f_new : value) (x_new : Tensor) (stages : value) (t' : R) (x' : Tensor)
    (k1' : value) (c' : nat) (times' : list R) (sol' : list Tensor) :
  accept_trial cfg st dt f_new x_new stages = Ok (t', x', k1', c', times', sol') ->
  t' = a_t st + dt
  /\ (exists more_t more_s,
        times' = a_eval_times st ++ more_t /\ sol' = a_sol st ++ more_s
        /\ length more_t = length more_s)
  /\ (cfg_return_all_eval cfg = true -> last times' 0 = t').
Proof.
  unfold accept_trial. intros H. bind_inv H. destruct a as [[c1 times1] sol1].
  assert (Hmid : exists more_t more_s,
             times1 = a_eval_times st ++ more_t /\ sol1 = a_sol st ++ more_s
             /\ length more_t = length more_s).
  { destruct (cfg_interpolator cfg) as [ip |].
    - destruct (checkpoint_ahead _ _ _ _).
      + bind_inv Hrun. injection Hrun as Hrun.
        eapply interpolate_checkpoints_appends. exact Hrun.
      + injection Hrun as <- <- <-. exists [], []. rewrite !app_nil_r. auto.
    - injection Hrun as <- <- <-. exists [], []. rewrite !app_nil_r. auto. }
  destruct Hmid as [mt [ms [H1 [H2 H3]]]].
  bind_inv H.
  destruct (Reqb (a_t st + dt) a || cfg_return_all_eval cfg) eqn:Eb;
    injection H as <- <- <- <- <- <-; (split; [reflexivity |]); split.
  - exists (mt ++ [a_t st + dt]), (ms ++ [x_new]).
    rewrite H1, H2, <- !app_assoc, !length_app, H3. auto.
  - intros _. apply last_snoc_R.
  - exists mt, ms. auto.
  - intros Hrae. rewrite Hrae, orb_true_r in Eb. discriminate.
Qed.

Section AdaptiveSamples.
Variable cfg : AdaptiveConfig.
Variable T t0 : R.
Variable x0 : Tensor.

Lemma adaptive_iter_paired (st st' : AdaptiveState) :
  adaptive_paired cfg t0 x0 st -> adaptive_iter cfg T st = Ok st' ->
  adaptive_paired cfg t0 x0 st'.
Proof.
  intros [Hlen [Hht [Hhs Hlast]]] H. unfold adaptive_iter in H.
  destruct (trial_setup cfg T st) as [[dt flag] dt_old].
  bind_inv H. destruct a as [[[f_new x_new] x_err] stages].
  bind_inv H. bind_inv H.
  destruct a0 as [[[[[t' x'] k1'] c'] times'] sol'].
  injection H as <-. unfold adaptive_paired. cbn [a_eval_times a_sol a_t].
  destruct (Rleb a 1).
  - apply accept_trial_samples in Hrun1.
    destruct Hrun1 as [-> [[mt [ms [-> [-> Hm]]]] Hl]].
    rewrite !length_app, Hlen, Hm. split; [reflexivity |].
    split; [apply hd_error_app_some; exact Hht |].
    split; [apply hd_error_app_some; exact Hhs | exact Hl].
  - injection Hrun1 as <- <- <- <- <- <-. auto.
Qed.

Lemma adaptive_loop_paired :
  forall (fuel : nat) (st st' : AdaptiveState),
    adaptive_paired cfg t0 x0 st -> adaptive_loop fuel cfg T st = Ok st' ->
    adaptive_paired cfg t0 x0 st' /\ ~ a_t st' < T.
Proof.
  induction fuel as [| fuel IH]; intros st st' Hp H; simpl in H.
  - destruct (Rltb (a_t st) T) eqn:E; [discriminate |]. injection H as <-.
    split; [exact Hp |]. intros Hlt. apply Rltb_true in Hlt. congruence.
  - destruct (Rltb (a_t st) T) eqn:E.
    + bind_inv H. eapply IH; [| exact H]. eapply adaptive_iter_paired; eassumption.
    + injection H as <-. split; [exact Hp |].
      intros Hlt. apply Rltb_true in Hlt. congruence.
Qed.
End AdaptiveSamples.

(** X13.  Whenever [_adaptive_odeint] returns - on any grid, with or
    without an interpolator, in either mode - it returns as many times as
    states, the first time is the first grid point and the first state is the
    initial state.  With [return_all_eval = True] the last time returned is
    not before the end of the grid [t_span[-1]]: it is the time at which the
    loop [while t < T] stopped. *)
Theorem adaptive_odeint_samples :
  forall (fuel : nat) (cfg : AdaptiveConfig) (k1 : value) (x : Tensor) (dt : R)
         (times : list R) (states : list Tensor) (t0 T : R),
    _adaptive_odeint fuel cfg k1 x dt = Ok (times, states) ->
    idx (cfg_t_span cfg) 0 = Ok t0 ->
    idx_last (cfg_t_span cfg) = Ok T ->
    length times = length states
    /\ hd_error times = Some t0
    /\ hd_error states = Some x
    /\ (cfg_return_all_eval cfg = true -> ~ last times 0 < T).
Proof.
  intros fuel cfg k1 x dt times states t0 T H H0 HT.
  unfold _adaptive_odeint in H. rewrite HT, H0 in H. cbn [bind] in H.
  bind_inv H. injection H as <- <-.
  assert (Hp : adaptive_paired cfg t0 x a /\ ~ a_t a < T).
  { eapply adaptive_loop_paired; [| exact Hrun]. repeat split; auto. }
  destruct Hp as [[Hlen [Hht [Hhs Hlast]]] Hexit].
  repeat split; try assumption.
  intros Hrae. rewrite (Hlast Hrae). exact Hexit.
Qed.

Lemma adaptive_odeint_still_run :
  _adaptive_odeint 1 still_all_cfg (VTensor (vec [0])) (vec [1]) 1
  = Ok ([0; 0 + 1], [vec [1]; (vec [1] + 1 .* vec [0])%T]).
Proof.
  unfold _adaptive_odeint, still_all_cfg. evaluate.
  rewrite Rleb_true.
  - evaluate. reflexivity.
  - apply hairer_norm_one_entry. unfold Rdiv. nra.
Qed.

Lemma adaptive_odeint_samples_witness :
  length [0; 0 + 1] = length [vec [1]; (vec [1] + 1 .* vec [0])%T]
  /\ hd_error [0; 0 + 1] = Some 0
  /\ hd_error [vec [1]; (vec [1] + 1 .* vec [0])%T] = Some (vec [1])
  /\ (cfg_return_all_eval still_all_cfg = true -> ~ last [0; 0 + 1] 0 < 1).
Proof.
  exact (adaptive_odeint_samples 1 still_all_cfg (VTensor (vec [0])) (vec [1]) 1 _ _ 0 1
           adaptive_odeint_still_run eq_refl eq_refl).
Defined.

(** ** Equilibria under the solvers of [solvers.py] *)

Lemma map_zero_scale (s : R) (l : list R) :
  map (Rmult s) (map (fun _ : R => 0) l) = map (fun _ : R => 0) l.
Proof. induction l as [| a l IH]; simpl; [reflexivity |]. rewrite IH. f_equal. ring. Qed.

Lemma zipWith_zero_zero (l : list R) :
  zipWith Rplus (map (fun _ : R => 0) l) (map (fun _ : R => 0) l)
  = map (fun _ : R => 0) l.
Proof. induction l as [| a l IH]; simpl; [reflexivity |]. rewrite IH. f_equal. ring. Qed.

Lemma zipWith_plus_zero (l : list R) :
  zipWith Rplus l (map (fun _ : R => 0) l) = l.
Proof. induction l as [| a l IH]; simpl; [reflexivity |]. rewrite IH. f_equal. ring. Qed.

Lemma tscale_zeros (s : R) (x : Tensor) : (s .* zeros_like x)%T = zeros_like x.
Proof.
  unfold tscale, zeros_like, tmap. cbn [shape data]. rewrite map_zero_scale. reflexivity.
Qed.

Lemma tadd_zeros_zeros (x : Tensor) : (zeros_like x + zeros_like x)%T = zeros_like x.
Proof.
  unfold tadd, tmap2, zeros_like, tmap. cbn [shape data].
  rewrite zipWith_zero_zero. reflexivity.
Qed.

Lemma tadd_zeros_r (x : Tensor) : (x + zeros_like x)%T = x.
Proof.
  unfold tadd, tmap2, zeros_like, tmap. cbn [shape data].
  rewrite zipWith_plus_zero. destruct x; reflexivity.
Qed.

Ltac at_equilibrium Hf :=
  repeat first [ rewrite tscale_zeros | rewrite tadd_zeros_zeros | rewrite tadd_zeros_r
               | rewrite Hf ].

Lemma DormandPrince45_at_rest (tab : Tableau) (f : VField) (x : Tensor) (t dt : R) :
  (forall s, f s x = zeros_like x) ->
  DormandPrince45_step tab f (VTensor x) t dt VNone
  = Ok [VTensor (zeros_like x); VTensor x; VTensor x].
Proof.
  intros Hf. unfold DormandPrince45_step. cbn [as_tensor first_stage bind].
  unfold solution_row, error_row, stage7, stage6, stage5, stage4, stage3, stage2.
  at_equilibrium Hf. reflexivity.
Qed.

(** X14.  A state at which the vector field vanishes at all times is kept
    by every solver of [solvers.py], for every tableau and step size: the
    solution [x_sol] that [Euler], [RungeKutta4], [DormandPrince45] and
    [Tsitouras45] return is the state itself.  The two embedded pairs return
    the slope [0] first and, as their third value [x_err], the state again. *)
Theorem solvers_keep_equilibria :
  forall (tab : Tableau) (f : VField) (x : Tensor) (t dt : R),
    (forall s, f s x = zeros_like x) ->
    Euler_step f (VTensor x) t dt VNone = Ok [VNone; VNone; VTensor x]
    /\ RungeKutta4_step tab f (VTensor x) t dt VNone = Ok [VNone; VNone; VTensor x]
    /\ DormandPrince45_step tab f (VTensor x) t dt VNone
       = Ok [VTensor (zeros_like x); VTensor x; VTensor x]
    /\ Tsitouras45_step tab f (VTensor x) t dt VNone
       = Ok [VTensor (zeros_like x); VTensor x; VTensor x].
Proof.
  intros tab f x t dt Hf.
  pose proof (DormandPrince45_at_rest tab f x t dt Hf) as Hdp.
  split; [| split; [| split; [exact Hdp | exact Hdp]]].
  - unfold Euler_step. cbn [as_tensor first_stage bind]. at_equilibrium Hf. reflexivity.
  - unfold RungeKutta4_step. cbn [as_tensor first_stage bind]. at_equilibrium Hf.
    reflexivity.
Qed.

Lemma solvers_keep_equilibria_witness :
  Euler_step zero_field (VTensor (vec [1])) 0 1 VNone = Ok [VNone; VNone; VTensor (vec [1])]
  /\ RungeKutta4_step blank_tableau zero_field (VTensor (vec [1])) 0 1 VNone
     = Ok [VNone; VNone; VTensor (vec [1])]
  /\ DormandPrince45_step blank_tableau zero_field (VTensor (vec [1])) 0 1 VNone
     = Ok [VTensor (zeros_like (vec [1])); VTensor (vec [1]); VTensor (vec [1])]
  /\ Tsitouras45_step blank_tableau zero_field (VTensor (vec [1])) 0 1 VNone
     = Ok [VTensor (zeros_like (vec [1])); VTensor (vec [1]); VTensor (vec [1])].
Proof.
  apply (solvers_keep_equilibria blank_tableau zero_field (vec [1]) 0 1).
  intros s. reflexivity.
Defined.

(** ** The bisection loop stops *)

Lemma HeunEuler_step_returns (f : VField) (x : value) (t h : R) (k1 : value) :
  step HeunEuler f x t h k1 <> Diverge.
Proof.
  cbn [step HeunEuler SolverTemplate]. unfold HeunEuler_step.
  destruct x as [| x | ks]; cbn [as_tensor bind]; try discriminate.
  destruct k1 as [| k | ks]; cbn [first_stage as_tensor bind]; discriminate.
Qed.

(** X15.  The bisection loop of [odeint_hybrid] always stops: for a solver
    whose [step] comes back, the loop started with [niters = 0] makes at most
    [max_iters = 100] trial steps, and it leaves either with [niters = 100]
    or with [dt_inner <= event_tol]. *)
Theorem bisection_stops_within_max_iters :
  forall (cfg : HybridConfig) (event_states : list bool) (dt : R) (b : Bisection),
    (forall f x t h k1, step (hcfg_solver cfg) f x t h k1 <> Diverge) ->
    b_niters b = 0%nat ->
    bisect_loop max_iters cfg event_states dt b <> Diverge
    /\ (forall b',
          bisect_loop max_iters cfg event_states dt b = Ok b' ->
          (b_niters b' <= max_iters)%nat
          /\ (b_niters b' = max_iters \/ b_dt_inner b' <= hcfg_event_tol cfg)).
Proof.
  intros cfg event_states dt b Hstep H0. split.
  - apply bisect_loop_terminates; [exact Hstep | lia].
  - intros b' H. apply bisect_loop_result in H. rewrite H0 in H.
    destruct H as [[_ Hle] Hexit]. split; [exact Hle |].
    destruct Hexit as [Hmax | Htol]; [left; lia | right; exact Htol].
Qed.

Lemma bisection_stops_within_max_iters_witness :
  bisect_loop max_iters skipped_cfg [false] 1
    (mkBisection 1 0 (vec [1]) (VTensor (vec [- (1) * 1])) 0 [true]) <> Diverge
  /\ (forall b',
        bisect_loop max_iters skipped_cfg [false] 1
          (mkBisection 1 0 (vec [1]) (VTensor (vec [- (1) * 1])) 0 [true]) = Ok b' ->
        (b_niters b' <= max_iters)%nat
        /\ (b_niters b' = max_iters \/ b_dt_inner b' <= hcfg_event_tol skipped_cfg)).
Proof.
  apply (bisection_stops_within_max_iters skipped_cfg [false] 1
           (mkBisection 1 0 (vec [1]) (VTensor (vec [- (1) * 1])) 0 [true])).
  - intros f x t h k1. apply HeunEuler_step_returns.
  - reflexivity.
Defined.

(** ** Multiple shooting: when [odeint_mshooting] cannot return *)

(** X16.  With [fine_steps] of [0] or [1] the sub-grid
    [torch.linspace(0, dt, fine_steps)] has fewer than two points, and the
    first fine or coarse run on it raises an [IndexError]: [odeint_mshooting]
    with a first guess [B0] raises it for every grid, every solver and every
    [maxiter >= 0]. *)
Theorem odeint_mshooting_needs_two_fine_steps :
  forall (init_step : InitStep) (fuel : nat) (f : VField) (x : Tensor) (t_span : list R)
         (solver : MShootingSolver) (B0 : Tensor) (maxiter : nat),
    odeint_mshooting init_step fuel f x t_span solver (Some B0) 0 maxiter
      = Raise IndexError
    /\ odeint_mshooting init_step fuel f x t_span solver (Some B0) 1 maxiter
      = Raise IndexError.
Proof.
  intros init_step fuel f x t_span solver B0 maxiter.
  unfold odeint_mshooting, root_solve. cbn [bind].
  destruct t_span as [| t0 [| t1 rest]]; [split; reflexivity | split; reflexivity |].
  cbn [idx nth_error bind root_solve_loop Nat.leb].
  unfold round, slice_from.
  destruct (shape B0) as [| n rest']; [split; reflexivity |].
  cbn [bind]. split; reflexivity.
Qed.

Lemma sweep_shape (odeint_func : OdeintFunc) (ms : MShootingSolver) (f : VField)
    (sub_t_span : list R) (i : nat) (B_coarse B_fine : Tensor) :
  forall (range : list nat) (B_in B_out B' : Tensor),
    sweep odeint_func ms f sub_t_span range i B_coarse B_fine B_in B_out = Ok B' ->
    shape B' = shape B_out.
Proof.
  induction range as [| m range IH]; intros B_in B_out B' H; simpl in H.
  - injection H as <-. reflexivity.
  - bind_inv H. bind_inv H. bind_inv H. bind_inv H.
    apply IH in H. rewrite H.
    unfold set_row in Hrun2. destruct (shape B_out) as [| n rest] eqn:Es; [discriminate |].
    destruct (m <? n)%nat; [| discriminate]. injection Hrun2 as <-. reflexivity.
Qed.

Lemma round_shape (odeint_func : OdeintFunc) (ms : MShootingSolver) (f : VField)
    (sub_t_span : list R) (n_subinterv i : nat) (B B' : Tensor) :
  round odeint_func ms f sub_t_span n_subinterv i B = Ok B' -> shape B' = shape B.
Proof.
  unfold round. intros H. bind_inv H. bind_inv H. bind_inv H. bind_inv H.
  apply sweep_shape in H. rewrite H. reflexivity.
Qed.

Lemma round_past_the_end (odeint_func : OdeintFunc) (ms : MShootingSolver) (f : VField)
    (sub_t_span : list R) (n_subinterv i : nat) (B B' : Tensor) :
  (tlen B < i)%nat ->
  round odeint_func ms f sub_t_span n_subinterv i B <> Ok B'.
Proof.
  intros Hi H. unfold round in H. bind_inv H. bind_inv H. bind_inv H. bind_inv H.
  unfold row in Hrun2. unfold tlen in Hi.
  destruct (shape B) as [| n rest]; [discriminate |]. cbn [hd] in Hi.
  destruct (Nat.ltb_spec (i - 1) n); [lia | discriminate].
Qed.

Lemma run_rounds_past_the_end (round_i : nat -> Tensor -> result Tensor) :
  (forall i B B', round_i i B = Ok B' -> shape B' = shape B) ->
  (forall i B B', (tlen B < i)%nat -> round_i i B <> Ok B') ->
  forall (n a : nat) (B B' : Tensor),
    (1 <= n)%nat ->
    (tlen B + 1 < a + n)%nat ->
    run_rounds round_i (seq a n) B <> Ok B'.
Proof.
  intros Hshape Hend. induction n as [| n IH]; intros a B B' Hn Hlt H; [lia |].
  cbn [seq run_rounds] in H. bind_inv H.
  destruct (Nat.lt_ge_cases (tlen B) a) as [Hpast | Hin].
  - exact (Hend _ _ _ Hpast Hrun).
  - apply Hshape in Hrun.
    apply (IH (S a) a0 B'); [lia | | exact H].
    unfold tlen in *. rewrite Hrun. lia.
Qed.

(** X17.  [MSZero.root_solve] reads [B[i-1]] in each of its rounds
    [i = 1, ..., maxiter + 1], and a round keeps the shape of [B]: when [B]
    has [maxiter] boundary states or fewer, the run never returns - the round
    [len(B) + 1], if not an earlier one, raises.  With the default
    [maxiter = 4] a grid needs five points or more. *)
Theorem root_solve_needs_more_states_than_maxiter :
  forall (ms : MShootingSolver) (odeint_func : OdeintFunc) (f : VField) (x : Tensor)
         (t_span : list R) (B : Tensor) (fine_steps maxiter : nat) (B' : Tensor),
    (tlen B <= maxiter)%nat ->
    root_solve ms odeint_func f x t_span B fine_steps maxiter <> Ok B'.
Proof.
  intros ms odeint_func f x t_span B fine_steps maxiter B' Hlen.
  destruct t_span as [| t0 [| t1 rest]]; [discriminate | discriminate |].
  rewrite root_solve_rounds.
  apply run_rounds_past_the_end; [| | lia | lia].
  - intros i B1 B2. apply round_shape.
  - intros i B1 B2. apply round_past_the_end.
Qed.

Lemma root_solve_needs_more_states_than_maxiter_witness :
  ~ exists B',
      root_solve (MSZero_dopri5 blank_tableau) _fixed_odeint zero_field (vec [1])
        [0; 1; 2] three_states 2 3 = Ok B'.
Proof.
  intros [B' H].
  apply (root_solve_needs_more_states_than_maxiter (MSZero_dopri5 blank_tableau)
           _fixed_odeint zero_field (vec [1]) [0; 1; 2] three_states 2 3 B');
    [unfold tlen, three_states; simpl; lia | exact H].
Defined.

(** ** Multiple shooting: what a round of [MSZero.root_solve] keeps *)

Lemma well_formed_rows (x : Tensor) :
  well_formed x -> length (data x) = (tlen x * row_size x)%nat \/ shape x = [].
Proof.
  unfold well_formed, tlen, row_size. destruct (shape x) as [| n rest]; [auto |].
  intros H. left. exact H.
Qed.

Lemma firstn_prefix_app {A : Type} (k : nat) (l1 l2 : list A) :
  (k <= length l1)%nat -> firstn k (l1 ++ l2) = firstn k l1.
Proof.
  intros H. rewrite firstn_app.
  replace (k - length l1)%nat with 0%nat by lia. cbn [firstn]. apply app_nil_r.
Qed.

Lemma firstn_firstn_le {A : Type} (k j : nat) (l : list A) :
  (k <= j)%nat -> firstn k (firstn j l) = firstn k l.
Proof. intros H. rewrite firstn_firstn. f_equal. lia. Qed.

Section RoundPrefix.
Variable odeint_func : OdeintFunc.
Variable ms : MShootingSolver.
Variable f : VField.
Variable sub_t_span : list R.

(** The first [k] entries of [B_out] survive the writes of [sweep], which
    are all at rows [m >= i]. *)
Lemma sweep_keeps_prefix (i k : nat) (B_coarse B_fine : Tensor) :
  forall (range : list nat) (B_in B_out B' : Tensor),
    (forall m, In m range -> (k <= m * row_size B_out)%nat) ->
    (k <= length (data B_out))%nat ->
    sweep odeint_func ms f sub_t_span range i B_coarse B_fine B_in B_out = Ok B' ->
    firstn k (data B') = firstn k (data B_out) /\ (k <= length (data B'))%nat.
Proof.
  induction range as [| m range IH]; intros B_in B_out B' Hm Hk H; simpl in H.
  - injection H as <-. auto.
  - bind_inv H. bind_inv H. bind_inv H. bind_inv H.
    assert (Hset : shape a2 = shape B_out
                   /\ firstn k (data a2) = firstn k (data B_out)
                   /\ (k <= length (data a2))%nat).
    { unfold set_row in Hrun2. destruct (shape B_out) as [| n rest] eqn:Es; [discriminate |].
      destruct (m <? n)%nat; [| discriminate]. injection Hrun2 as <-.
      cbn [shape data]. split; [reflexivity |].
      assert (Hkm : (k <= m * row_size B_out)%nat) by (apply Hm; left; reflexivity).
      assert (Hlen : (k <= length (firstn (m * row_size B_out) (data B_out)))%nat).
      { rewrite length_firstn. lia. }
      split.
      - rewrite firstn_prefix_app by exact Hlen. apply firstn_firstn_le. exact Hkm.
      - rewrite length_app. lia. }
    destruct Hset as [Hs [Hf Hl]].
    apply IH in H.
    + destruct H as [H1 H2]. rewrite H1. auto.
    + intros m' Hin. unfold row_size. rewrite Hs. apply Hm. right. exact Hin.
    + exact Hl.
Qed.

Lemma round_keeps_prefix (n_subinterv i k : nat) (B B' : Tensor) :
  (k <= Nat.min i (tlen B) * row_size B)%nat ->
  (k <= length (data B))%nat ->
  round odeint_func ms f sub_t_span n_subinterv i B = Ok B' ->
  shape B' = shape B
  /\ firstn k (data B') = firstn k (data B)
  /\ (k <= length (data B'))%nat.
Proof.
  intros Hk Hlen H. pose proof (round_shape _ _ _ _ _ _ _ _ H) as Hs.
  split; [exact Hs |].
  unfold round in H. bind_inv H. bind_inv H. bind_inv H. bind_inv H.
  set (B_out := set_prefix i B (zeros_like B)) in H.
  assert (Hs0 : shape B_out = shape B) by reflexivity.
  assert (Hrs : row_size B_out = row_size B) by reflexivity.
  assert (Htl : tlen (zeros_like B) = tlen B) by reflexivity.
  assert (Hrz : row_size (zeros_like B) = row_size B) by reflexivity.
  assert (H0 : firstn k (data B_out) = firstn k (data B)
               /\ (k <= length (data B_out))%nat).
  { subst B_out. unfold set_prefix. cbn [data]. rewrite Htl, Hrz.
    assert (Hl : (k <= length (firstn (Nat.min i (tlen B) * row_size B) (data B)))%nat).
    { rewrite length_firstn. lia. }
    split.
    - rewrite firstn_prefix_app by exact Hl. apply firstn_firstn_le. exact Hk.
    - rewrite length_app. lia. }
  destruct H0 as [H0 H0l].
  apply (sweep_keeps_prefix i k) in H.
  - destruct H as [H1 H2]. rewrite H1. auto.
  - intros m Hin. apply in_seq in Hin. rewrite Hrs.
    assert (Nat.min i (tlen B) * row_size B <= m * row_size B)%nat
      by (apply Nat.mul_le_mono_r; lia).
    lia.
  - exact H0l.
Qed.
End RoundPrefix.

Lemma run_rounds_keep_first_row (round_i : nat -> Tensor -> result Tensor) (B : Tensor) :
  (forall i B1 B2,
      (1 <= i)%nat ->
      shape B1 = shape B ->
      (row_size B <= length (data B1))%nat ->
      round_i i B1 = Ok B2 ->
      shape B2 = shape B1
      /\ firstn (row_size B) (data B2) = firstn (row_size B) (data B1)
      /\ (row_size B <= length (data B2))%nat) ->
  forall (n a : nat) (B1 B' : Tensor),
    (1 <= a)%nat ->
    shape B1 = shape B ->
    (row_size B <= length (data B1))%nat ->
    run_rounds round_i (seq a n) B1 = Ok B' ->
    shape B' = shape B
    /\ firstn (row_size B) (data B') = firstn (row_size B) (data B1).
Proof.
  intros Hround. induction n as [| n IH]; intros a B1 B' Ha Hs Hl H.
  - simpl in H. injection H as <-. auto.
  - cbn [seq run_rounds] in H. bind_inv H.
    destruct (Hround a B1 a0 Ha Hs Hl Hrun) as [Hs' [Hf' Hl']].
    apply IH in H; [| lia | congruence | exact Hl'].
    destruct H as [H1 H2]. rewrite H2. auto.
Qed.

(** X18.  A round [i] of [MSZero.root_solve] leaves the first [i] boundary
    states as they are ([B_out[:i] = B[:i]], and the sweep writes rows
    [m >= i] only); the run as a whole, whatever the number of rounds, returns
    the first boundary state [B[0]] unchanged. *)
Theorem root_solve_keeps_first_state :
  (forall (odeint_func : OdeintFunc) (ms : MShootingSolver) (f : VField)
          (sub_t_span : list R) (n_subinterv i : nat) (B B' : Tensor),
      well_formed B ->
      (1 <= i)%nat ->
      round odeint_func ms f sub_t_span n_subinterv i B = Ok B' ->
      slice0 (Some (Z.of_nat i)) B' = slice0 (Some (Z.of_nat i)) B)
  /\ (forall (ms : MShootingSolver) (odeint_func : OdeintFunc) (f : VField) (x : Tensor)
             (t_span : list R) (B : Tensor) (fine_steps maxiter : nat) (B' : Tensor),
        well_formed B ->
        root_solve ms odeint_func f x t_span B fine_steps maxiter = Ok B' ->
        row 0 B' = row 0 B).
Proof.
  split.
  - intros odeint_func ms f sub n_sub i B B' Hwf Hi H.
    unfold slice0.
    destruct (well_formed_rows B Hwf) as [Hlen | Hnil].
    + destruct (round_keeps_prefix odeint_func ms f sub n_sub i
                  (Nat.min i (tlen B) * row_size B) B B') as [Hs [Hf _]];
        [lia | rewrite Hlen; apply Nat.mul_le_mono_r; lia | exact H |].
      rewrite Hs. destruct (shape B) as [| n rest] eqn:Es; [reflexivity |].
      assert (Hrs : row_size B' = row_size B) by (unfold row_size; rewrite Hs, Es; reflexivity).
      unfold slice_stop. destruct (Z.ltb_spec (Z.of_nat i) 0) as [Hneg | _]; [lia |].
      rewrite Nat2Z.id, Hrs.
      unfold tlen in Hf. rewrite Es in Hf. cbn [hd] in Hf. rewrite Hf. reflexivity.
    + apply round_shape in H. rewrite H, Hnil. reflexivity.
  - intros ms odeint_func f x t_span B fine_steps maxiter B' Hwf H.
    destruct t_span as [| t0 [| t1 rest]]; [discriminate | discriminate |].
    rewrite root_solve_rounds in H.
    destruct (shape B) as [| [| n] rest'] eqn:Es.
    + cbn [seq run_rounds] in H. bind_inv H.
      unfold round, slice_from in Hrun. rewrite Es in Hrun. discriminate.
    + cbn [seq run_rounds] in H. bind_inv H.
      unfold round in Hrun. bind_inv Hrun. bind_inv Hrun. bind_inv Hrun. bind_inv Hrun.
      unfold row in Hrun3. rewrite Es in Hrun3. discriminate.
    + assert (Hrs : (row_size B <= length (data B))%nat).
      { destruct (well_formed_rows B Hwf) as [Hlen | Hnil]; [| congruence].
        rewrite Hlen. unfold tlen. rewrite Es. cbn [hd]. lia. }
      destruct (run_rounds_keep_first_row
                  (round odeint_func ms f (linspace 0 (t1 - t0) fine_steps)
                     (S (length rest))) B) with (n := S maxiter) (a := 1%nat)
                  (B1 := B) (B' := B') as [Hs Hf]; [| lia | reflexivity | exact Hrs | exact H |].
      * intros i B1 B2 Hi Hs1 Hl1 Hr.
        assert (Hrs1 : row_size B1 = row_size B) by (unfold row_size; rewrite Hs1; reflexivity).
        rewrite <- Hrs1.
        apply (round_keeps_prefix odeint_func ms f (linspace 0 (t1 - t0) fine_steps)
                 (S (length rest)) i (row_size B1) B1 B2);
          [| rewrite Hrs1; exact Hl1 | exact Hr].
        unfold tlen. rewrite Hs1, Es. cbn [hd].
        destruct i as [| i]; [lia |].
        destruct (Nat.min (S i) (S n)) eqn:Em; [lia |]. lia.
      * unfold row. rewrite Hs, Es.
        assert (Hrs' : row_size B' = row_size B) by (unfold row_size; rewrite Hs; reflexivity).
        rewrite Hrs'. cbn [Nat.mul skipn]. rewrite Hf. reflexivity.
Qed.

Lemma well_formed_three_states : well_formed three_states.
Proof. reflexivity. Qed.

Lemma root_solve_one_round_run :
  exists B',
    root_solve (MSZero_dopri5 blank_tableau) _fixed_odeint zero_field (vec [1]) [0; 1; 2]
      three_states 2 0 = Ok B'.
Proof. eexists. run. reflexivity. Qed.

Lemma root_solve_keeps_first_state_witness :
  exists B',
    root_solve (MSZero_dopri5 blank_tableau) _fixed_odeint zero_field (vec [1]) [0; 1; 2]
      three_states 2 0 = Ok B'
    /\ row 0 B' = row 0 three_states.
Proof.
  destruct root_solve_one_round_run as [B' H]. exists B'. split; [exact H |].
  exact (proj2 root_solve_keeps_first_state (MSZero_dopri5 blank_tableau) _fixed_odeint
           zero_field (vec [1]) [0; 1; 2] three_states 2%nat 0%nat B'
           well_formed_three_states H).
Defined.

(** ** Multiple shooting: the last boundary state *)

Lemma zipWith_length (g : R -> R -> R) (l1 l2 : list R) :
  length (zipWith g l1 l2) = Nat.min (length l1) (length l2).
Proof.
  revert l2. induction l1 as [| a l1 IH]; intros [| b l2]; simpl; try reflexivity.
  rewrite IH. reflexivity.
Qed.

Lemma row_size_shape (x : Tensor) (n : nat) (rest : list nat) :
  shape x = n :: rest -> row_size x = fold_right Nat.mul 1%nat rest.
Proof. unfold row_size. intros ->. reflexivity. Qed.

Lemma row_entries (x r : Tensor) (n k : nat) (rest : list nat) :
  shape x = n :: rest ->
  ((k + 1) * row_size x <= length (data x))%nat ->
  row k x = Ok r ->
  shape r = rest /\ length (data r) = row_size x.
Proof.
  unfold row. intros Hs Hl H. rewrite Hs in H.
  destruct (k <? n)%nat; [| discriminate]. injection H as <-. cbn [shape data].
  split; [reflexivity |]. rewrite length_firstn, length_skipn. lia.
Qed.

Lemma set_row_entries (x x' v : Tensor) (n m : nat) (rest : list nat) :
  shape x = n :: rest ->
  length (data x) = (n * row_size x)%nat ->
  length (data v) = row_size x ->
  set_row m v x = Ok x' ->
  shape x' = shape x
  /\ length (data x') = (n * row_size x)%nat
  /\ ((m < n - 1)%nat ->
      skipn ((n - 1) * row_size x) (data x') = skipn ((n - 1) * row_size x) (data x)).
Proof.
  unfold set_row. intros Hs Hl Hv H. rewrite Hs in H.
  destruct (Nat.ltb_spec m n) as [Hm | Hm]; [| discriminate].
  injection H as <-. cbn [shape data]. split; [symmetry; exact Hs |].
  set (rs := row_size x) in *.
  assert (Hm1 : (m * rs + rs <= n * rs)%nat).
  { replace (m * rs + rs)%nat with (S m * rs)%nat by lia.
    apply Nat.mul_le_mono_r. lia. }
  assert (Hf : length (firstn (m * rs) (data x)) = (m * rs)%nat).
  { rewrite length_firstn. lia. }
  split.
  - rewrite !length_app, Hf, Hv, length_skipn. lia.
  - intros Hlast.
    assert (Hm2 : (S m * rs <= (n - 1) * rs)%nat) by (apply Nat.mul_le_mono_r; lia).
    rewrite app_assoc. rewrite skipn_app.
    rewrite length_app, Hf, Hv.
    rewrite (skipn_all2 (firstn (m * rs) (data x) ++ data v))
      by (rewrite length_app, Hf, Hv; lia).
    cbn [app]. rewrite skipn_skipn. f_equal. lia.
Qed.

Lemma skipn_map_zero (k : nat) (l : list R) :
  skipn k (map (fun _ : R => 0) l) = repeat 0 (length l - k).
Proof.
  revert k. induction l as [| a l IH]; intros [| k]; simpl; try reflexivity.
  - f_equal. rewrite <- (Nat.sub_0_r (length l)). apply (IH 0%nat).
  - apply IH.
Qed.

Section LastRow.
Variable odeint_func : OdeintFunc.
Variable ms : MShootingSolver.
Variable f : VField.
Variable sub_t_span : list R.
Hypothesis Hkeep : keeps_shape odeint_func ms f sub_t_span.
Variable n rs : nat.
Variable rest : list nat.
Hypothesis Hrs : rs = fold_right Nat.mul 1%nat rest.

Lemma row_size_rs (x : Tensor) (k : nat) : shape x = k :: rest -> row_size x = rs.
Proof. intros H. rewrite Hrs. apply (row_size_shape _ _ _ H). Qed.

Lemma sweep_last_row (i : nat) (B_coarse B_fine : Tensor) :
  shape B_coarse = (n - (i - 1))%nat :: rest ->
  length (data B_coarse) = ((n - (i - 1)) * rs)%nat ->
  shape B_fine = (n - (i - 1))%nat :: rest ->
  length (data B_fine) = ((n - (i - 1)) * rs)%nat ->
  (1 <= i)%nat ->
  forall (range : list nat) (B_in B_out B' : Tensor),
    (forall m, In m range -> (i <= m < n - 1)%nat) ->
    shape B_in = rest -> length (data B_in) = rs ->
    has_rows n rest B_out ->
    sweep odeint_func ms f sub_t_span range i B_coarse B_fine B_in B_out = Ok B' ->
    has_rows n rest B'
    /\ skipn ((n - 1) * rs) (data B') = skipn ((n - 1) * rs) (data B_out).
Proof.
  intros Hcs Hcl Hfs Hfl Hi.
  induction range as [| m range IH]; intros B_in B_out B' Hm His Hil [Hos Hol] H;
    simpl in H.
  - injection H as <-. split; [split; assumption | reflexivity].
  - bind_inv H. bind_inv H. bind_inv H. bind_inv H.
    destruct (Hm m (or_introl eq_refl)) as [Hm1 Hm2].
    apply Hkeep in Hrun; [| left; reflexivity]. destruct Hrun as [Has Hal].
    rewrite <- Hrs in Hol.
    assert (Hrc : row_size B_coarse = rs) by (apply (row_size_rs _ _ Hcs)).
    assert (Hrf : row_size B_fine = rs) by (apply (row_size_rs _ _ Hfs)).
    assert (Hro : row_size B_out = rs) by (apply (row_size_rs _ _ Hos)).
    assert (Hle : ((m - i + 1) * rs <= (n - (i - 1)) * rs)%nat)
      by (apply Nat.mul_le_mono_r; lia).
    apply (row_entries _ _ _ _ _ Hcs) in Hrun0; [| rewrite Hrc, Hcl; exact Hle].
    apply (row_entries _ _ _ _ _ Hfs) in Hrun1; [| rewrite Hrf, Hfl; exact Hle].
    destruct Hrun0 as [Hbs Hbl]. destruct Hrun1 as [Hgs Hgl].
    set (v := (a - a0 + a1)%T) in *.
    assert (Hvs : shape v = rest) by (subst v; cbn; congruence).
    assert (Hvl : length (data v) = rs).
    { subst v. unfold tadd, tsub, tmap2. cbn [data].
      rewrite !zipWith_length, Hal, Hil, Hbl, Hgl, Hrc, Hrf. lia. }
    destruct (set_row_entries B_out a2 v n m rest Hos) as [Hs2 [Hl2 Hk2]];
      [rewrite Hro; exact Hol | rewrite Hro; exact Hvl | exact Hrun2 |].
    rewrite Hro in Hl2, Hk2.
    apply IH in H.
    + destruct H as [Hr Hlast]. split; [exact Hr |]. rewrite Hlast. apply Hk2. lia.
    + intros m' Hin. apply Hm. right. exact Hin.
    + exact Hvs.
    + exact Hvl.
    + split; [congruence | rewrite <- Hrs; exact Hl2].
Qed.

Lemma round_last_row (n_subinterv i : nat) (B B' : Tensor) :
  has_rows n rest B ->
  (n_subinterv < n)%nat ->
  (1 <= i)%nat ->
  round odeint_func ms f sub_t_span n_subinterv i B = Ok B' ->
  has_rows n rest B'
  /\ skipn ((n - 1) * rs) (data B')
     = if (i <? n)%nat then repeat 0 rs else skipn ((n - 1) * rs) (data B).
Proof.
  intros [Hs Hl] Hn Hi H. unfold round in H. rewrite <- Hrs in Hl.
  bind_inv H. bind_inv H. bind_inv H. bind_inv H.
  assert (Hrb : row_size B = rs) by (apply (row_size_rs _ _ Hs)).
  unfold slice_from in Hrun. rewrite Hs in Hrun. injection Hrun as <-.
  rewrite Hrb in Hrun0, Hrun1.
  apply Hkeep in Hrun0; [| left; reflexivity].
  apply Hkeep in Hrun1; [| right; reflexivity]. cbn [shape data] in Hrun0, Hrun1.
  rewrite length_skipn, Hl, <- Nat.mul_sub_distr_r in Hrun0, Hrun1.
  destruct Hrun0 as [Hcs Hcl]. destruct Hrun1 as [Hfs Hfl].
  assert (Hin : (i - 1 < n)%nat).
  { unfold row in Hrun2. rewrite Hs in Hrun2.
    destruct (Nat.ltb_spec (i - 1) n); [assumption | discriminate]. }
  apply (row_entries _ _ _ _ _ Hs) in Hrun2;
    [| rewrite Hrb, Hl; apply Nat.mul_le_mono_r; lia].
  destruct Hrun2 as [His Hil]. rewrite Hrb in Hil.
  set (B_out := set_prefix i B (zeros_like B)) in H.
  assert (Hod : data B_out
                = firstn (Nat.min i n * rs) (data B)
                  ++ skipn (Nat.min i n * rs) (map (fun _ : R => 0) (data B))).
  { subst B_out. unfold set_prefix. cbn [data].
    replace (tlen (zeros_like B)) with n by (unfold tlen; cbn; rewrite Hs; reflexivity).
    replace (row_size (zeros_like B)) with rs by (symmetry; exact Hrb).
    reflexivity. }
  assert (HK : (Nat.min i n * rs <= n * rs)%nat) by (apply Nat.mul_le_mono_r; lia).
  assert (Hout : has_rows n rest B_out).
  { split; [exact Hs |].
    rewrite <- Hrs, Hod, length_app, length_firstn, length_skipn, length_map. lia. }
  apply (sweep_last_row i a0 a1 Hcs Hcl Hfs Hfl Hi) in H;
    [| | exact His | exact Hil | exact Hout].
  - destruct H as [Hr Hlast]. split; [exact Hr |]. rewrite Hlast, Hod.
    destruct (Nat.ltb_spec i n) as [Hlt | Hge].
    + replace (Nat.min i n) with i by lia.
      assert (Hi1 : (i * rs <= (n - 1) * rs)%nat) by (apply Nat.mul_le_mono_r; lia).
      rewrite skipn_app, length_firstn.
      rewrite skipn_all2 by (rewrite length_firstn; lia). cbn [app].
      rewrite skipn_skipn, skipn_map_zero. f_equal.
      rewrite Hl.
      replace (Nat.min (i * rs) (n * rs)) with (i * rs)%nat by lia.
      replace ((n - 1) * rs - i * rs + i * rs)%nat with ((n - 1) * rs)%nat by lia.
      rewrite <- Nat.mul_sub_distr_r. replace (n - (n - 1))%nat with 1%nat by lia. lia.
    + replace (Nat.min i n) with n by lia.
      assert (E1 : firstn (n * rs) (data B) = data B) by (apply firstn_all2; lia).
      assert (E2 : skipn (n * rs) (map (fun _ : R => 0) (data B)) = [])
        by (apply skipn_all2; rewrite length_map; lia).
      rewrite E1, E2, app_nil_r. reflexivity.
  - intros m Hm. apply in_seq in Hm. lia.
Qed.

Lemma run_rounds_last_row (n_subinterv : nat) :
  (n_subinterv < n)%nat ->
  forall (k a : nat) (B B' : Tensor),
    (1 <= a)%nat ->
    has_rows n rest B ->
    skipn ((n - 1) * rs) (data B) = repeat 0 rs ->
    run_rounds (round odeint_func ms f sub_t_span n_subinterv) (seq a k) B = Ok B' ->
    has_rows n rest B' /\ skipn ((n - 1) * rs) (data B') = repeat 0 rs.
Proof.
  intros Hn. induction k as [| k IH]; intros a B B' Ha Hr Hz H.
  - simpl in H. injection H as <-. auto.
  - cbn [seq run_rounds] in H. bind_inv H.
    apply (round_last_row _ _ _ _ Hr Hn Ha) in Hrun. destruct Hrun as [Hr' Hz'].
    apply IH in H; [exact H | lia | exact Hr' |].
    rewrite Hz'. destruct (a <? n)%nat; [reflexivity | exact Hz].
Qed.
End LastRow.

Lemma steps_along_fixed_point (grid : list R) (y : Tensor) :
  last (steps_along (fun (_ _ : R) (z : Tensor) => z) y grid) y = y.
Proof.
  revert y. induction grid as [| t grid IH]; intros y; [reflexivity |].
  destruct grid as [| t' grid]; [reflexivity |].
  rewrite steps_along_cons. cbv beta.
  specialize (IH y). revert IH.
  rewrite (steps_along_head _ y (t' :: grid)). intros IH. exact IH.
Qed.

Lemma DormandPrince45_keeps_shape_at_rest (tab : Tableau) (sub_t_span : list R) :
  keeps_shape _fixed_odeint (MSZero_dopri5 tab) zero_field sub_t_span.
Proof.
  intros solver y z Hsolver H.
  assert (Hs : solver = DormandPrince45 tab) by (destruct Hsolver; assumption).
  subst solver. unfold propagate in H. bind_inv H.
  destruct sub_t_span as [| t0 [| t1 sub]]; [discriminate | discriminate |].
  rewrite (fixed_odeint_run zero_field (DormandPrince45 tab) (fun (_ _ : R) (z : Tensor) => z)) in Hrun.
  - assert (Ea : a = (t0 :: t1 :: sub,
                      steps_along (fun (_ _ : R) (z : Tensor) => z) y (t0 :: t1 :: sub)))
      by congruence.
    subst a. cbn [snd] in H.
    rewrite (steps_along_head _ y (t0 :: t1 :: sub)) in H. cbn [last_state] in H.
    assert (E : last (tl (steps_along (fun (_ _ : R) (z0 : Tensor) => z0) y (t0 :: t1 :: sub))) y = y).
    { pose proof (steps_along_fixed_point (t0 :: t1 :: sub) y) as L.
      rewrite (steps_along_head _ y (t0 :: t1 :: sub)) in L.
      destruct (tl (steps_along (fun (_ _ : R) (z0 : Tensor) => z0) y (t0 :: t1 :: sub)));
        [reflexivity | exact L]. }
    rewrite E in H. assert (Ez : z = y) by congruence. subst z. auto.
  - intros x t dt. exists (VTensor (zeros_like x)), (VTensor x).
    apply DormandPrince45_at_rest. intros s. reflexivity.
Qed.

(** X19.  The last boundary state that [MSZero.root_solve] returns is
    zero.  Every round starts from [B_out = zeros_like(B)], copies the first
    [i] states and writes the rows [i, ..., len(t_span) - 2]; the row of the
    last grid point is never written.  So for a first guess [B] with a state
    per grid point, and runs of [odeint_func] that keep the shape of their
    state, the state returned for [t_span[-1]] is [0] whatever the vector
    field and the first guess. *)
Theorem root_solve_last_state_is_zero :
  forall (ms : MShootingSolver) (odeint_func : OdeintFunc) (f : VField) (x : Tensor)
         (t_span : list R) (B : Tensor) (fine_steps maxiter : nat) (B' : Tensor),
    well_formed B ->
    (length t_span <= tlen B)%nat ->
    (forall sub_t_span, keeps_shape odeint_func ms f sub_t_span) ->
    root_solve ms odeint_func f x t_span B fine_steps maxiter = Ok B' ->
    row (tlen B - 1) B' = Ok (mkTensor (tl (shape B)) (repeat 0 (row_size B))).
Proof.
  intros ms odeint_func f x t_span B fine_steps maxiter B' Hwf Hlen Hkeep H.
  destruct t_span as [| t0 [| t1 rest_t]]; [discriminate | discriminate |].
  rewrite root_solve_rounds in H.
  unfold tlen in *.
  destruct (shape B) as [| n rest] eqn:Es; [simpl in Hlen; lia |].
  cbn [hd length] in Hlen. cbn [hd tl].
  set (rs := fold_right Nat.mul 1%nat rest).
  assert (Hrb : row_size B = rs) by (apply (row_size_shape _ _ _ Es)).
  assert (HB : has_rows n rest B).
  { split; [exact Es |]. unfold well_formed in Hwf. rewrite Es in Hwf. exact Hwf. }
  cbn [seq run_rounds] in H. bind_inv H.
  set (sub := linspace 0 (t1 - t0) fine_steps) in *.
  destruct (round_last_row odeint_func ms f sub (Hkeep sub) n rs rest eq_refl
              (S (length rest_t)) 1 B a HB) as [Ha Hz]; [lia | lia | exact Hrun |].
  destruct (Nat.ltb_spec 1 n) as [_ | Hn]; [| lia].
  destruct (run_rounds_last_row odeint_func ms f sub (Hkeep sub) n rs rest eq_refl
              (S (length rest_t)) ltac:(lia) maxiter 2 a B' ltac:(lia) Ha Hz H)
    as [[Hs' Hl'] Hz'].
  unfold row. rewrite Hs'.
  destruct (Nat.ltb_spec (n - 1) n) as [_ | Hge]; [| lia].
  assert (Hr' : row_size B' = rs) by (apply (row_size_shape _ _ _ Hs')).
  rewrite Hr', Hrb, Hz'. rewrite firstn_all2 by (rewrite repeat_length; lia).
  reflexivity.
Qed.

Lemma root_solve_last_state_is_zero_witness :
  exists B',
    root_solve (MSZero_dopri5 blank_tableau) _fixed_odeint zero_field (vec [1]) [0; 1; 2]
      three_states 2 0 = Ok B'
    /\ row (tlen three_states - 1) B'
       = Ok (mkTensor (tl (shape three_states)) (repeat 0 (row_size three_states))).
Proof.
  destruct root_solve_one_round_run as [B' H]. exists B'. split; [exact H |].
  apply (root_solve_last_state_is_zero (MSZero_dopri5 blank_tableau) _fixed_odeint
           zero_field (vec [1]) [0; 1; 2] three_states 2%nat 0%nat B').
  - exact well_formed_three_states.
  - unfold tlen, three_states. simpl. lia.
  - intros sub. apply DormandPrince45_keeps_shape_at_rest.
  - exact H.
Defined.

(** ** The adaptive driver raises nothing of its own *)

Lemma zipWith_length_same (g : R -> R -> R) (l1 l2 : list R) :
  length l2 = length l1 -> length (zipWith g l1 l2) = length l1.
Proof.
  revert l2. induction l1 as [| a l1 IH]; intros [| b l2] H; simpl in *;
    try reflexivity; try discriminate.
  f_equal. apply IH. lia.
Qed.

Lemma same_shape_tmap2 (g : R -> R -> R) (x y : Tensor) :
  same_shape x y -> same_shape x (tmap2 g x y).
Proof.
  intros [_ Hl]. split; [reflexivity |]. simpl. apply zipWith_length_same. exact Hl.
Qed.

Lemma same_shape_tmap (g : R -> R) (x y : Tensor) :
  same_shape x y -> same_shape x (tmap g y).
Proof.
  intros [Hs Hl]. split; [exact Hs |]. simpl. rewrite length_map. exact Hl.
Qed.

Lemma same_shape_trans (x y z : Tensor) :
  same_shape x y -> same_shape y z -> same_shape x z.
Proof. intros [H1 H2] [H3 H4]. split; congruence. Qed.

(** The Heun-Euler pair follows the convention for a field that returns
    an array of the shape of its state. *)
Lemma HeunEuler_four_values (f : VField) :
  (forall t x, same_shape x (f t x)) -> four_values HeunEuler f.
Proof.
  intros Hf x t h k Hk.
  assert (Hs : exists s, first_stage f t x k = Ok s /\ same_shape x s).
  { destruct Hk as [-> | [s [-> Hs]]].
    - exists (f t x). split; [reflexivity | apply Hf].
    - exists s. split; [reflexivity | exact Hs]. }
  destruct Hs as [s [Hfirst Hs]].
  assert (Hnew : same_shape x (x + h .* s)%T).
  { apply same_shape_tmap2. apply same_shape_tmap. exact Hs. }
  exists (VTensor (f (t + h) (x + h .* s)%T)), (x + h .* s)%T,
    ((h / 2) .* (f (t + h)%R (x + h .* s) - s))%T,
    [s; f (t + h) (x + h .* s)%T].
  split; [| split; [exact Hnew | split]].
  - change (step HeunEuler) with HeunEuler_step. unfold HeunEuler_step.
    cbn [as_tensor bind]. rewrite Hfirst. reflexivity.
  - assert (Hk2 : same_shape x (f (t + h) (x + h .* s)%T)).
    { eapply same_shape_trans; [exact Hnew | apply Hf]. }
    apply same_shape_tmap. eapply same_shape_trans; [exact Hk2 |].
    apply same_shape_tmap2. destruct Hk2 as [H1 H2]. destruct Hs as [H3 H4].
    split; congruence.
  - right. eexists. split; [reflexivity | apply Hf].
Qed.

Section CounterInRange.
Variable cfg : AdaptiveConfig.
Variable T t0 : R.
Variable te : list R.
Hypothesis Hspan : cfg_t_span cfg = t0 :: te.
Hypothesis HT : T = last (t0 :: te) 0.
Hypothesis Hsolver : four_values (cfg_solver cfg) (cfg_f cfg).
Hypothesis Hsemi : fst (cfg_seminorm cfg) = false.
Hypothesis Hip : cfg_interpolator cfg = None.

Lemma last_requested_time (c : nat) :
  S c = length te -> nth_error te c = Some T.
Proof.
  intros Hc. destruct te as [| b l]; [discriminate |].
  simpl in Hc. injection Hc as ->. rewrite HT.
  change (last (t0 :: b :: l) 0) with (last (b :: l) 0).
  apply nth_error_last_R.
Qed.

(** An accepted step moves the counter only when it ends on the requested
    time the counter points at; past the last requested time, which is [T],
    nothing is left to integrate. *)
Lemma accept_trial_in_range (st : AdaptiveState) (dt : R) (f_new : value)
    (x_new : Tensor) (stages : value) :
  (a_ckpt_counter st < length te)%nat ->
  exists c' times' sol',
    accept_trial cfg st dt f_new x_new stages
    = Ok (a_t st + dt, x_new, f_new, c', times', sol')
    /\ ((c' < length te)%nat \/ ~ a_t st + dt < T).
Proof.
  intros Hc. unfold accept_trial. rewrite Hspan, Hip. unfold t_eval_of. cbn [tl bind].
  unfold idx. destruct (nth_error te (a_ckpt_counter st)) as [tau |] eqn:En;
    [| apply nth_error_None in En; lia].
  cbn [bind].
  destruct (Reqb (a_t st + dt) tau) eqn:Eg; cbn [orb].
  - do 3 eexists. split; [reflexivity |].
    destruct (Nat.eq_dec (S (a_ckpt_counter st)) (length te)) as [E | E]; [| left; lia].
    right. rewrite (last_requested_time _ E) in En. injection En as <-.
    apply Reqb_spec in Eg. lra.
  - destruct (cfg_return_all_eval cfg); do 3 eexists; (split; [reflexivity |]);
      left; exact Hc.
Qed.

Lemma adaptive_iter_in_range (st : AdaptiveState) :
  counter_in_range cfg T st ->
  a_t st < T ->
  exists st', adaptive_iter cfg T st = Ok st' /\ counter_in_range cfg T st'.
Proof.
  intros [Hk Hc] Hlt. destruct Hc as [Hc | Hc]; [| contradiction].
  rewrite Hspan in Hc. unfold t_eval_of in Hc. cbn [tl] in Hc.
  unfold adaptive_iter.
  unfold trial_step, trial_dt.
  destruct (trial_setup cfg T st) as [[dt flag] dt_old]. cbn [fst].
  destruct (Hsolver (a_x st) (a_t st) dt (a_k1 st) Hk)
    as [f_new [x_new [x_err [ks [-> [_ [_ Hk']]]]]]].
  cbn [bind unpack4 as_tensor].
  unfold error_ratio, error_scaled. rewrite Hsemi. cbn [bind].
  unfold counter_in_range. rewrite Hspan. unfold t_eval_of. cbn [tl].
  destruct (Rleb _ 1).
  - destruct (accept_trial_in_range st dt f_new x_new (VStages ks) Hc)
      as [c' [times' [sol' [-> Hr]]]].
    cbn [bind]. eexists. split; [reflexivity |]. cbn [a_k1 a_x a_ckpt_counter a_t].
    split; assumption.
  - cbn [bind]. eexists. split; [reflexivity |]. cbn [a_k1 a_x a_ckpt_counter a_t].
    split; [exact Hk | left; exact Hc].
Qed.

Lemma adaptive_loop_in_range :
  forall (fuel : nat) (st : AdaptiveState) (e : exn),
    counter_in_range cfg T st ->
    adaptive_loop fuel cfg T st <> Raise e.
Proof.
  induction fuel as [| fuel IH]; intros st e Hr; simpl.
  - destruct (Rltb (a_t st) T); discriminate.
  - destruct (Rltb (a_t st) T) eqn:Et; [| discriminate].
    apply Rltb_spec in Et.
    destruct (adaptive_iter_in_range st Hr Et) as [st' [-> Hr']]. cbn [bind].
    apply IH. exact Hr'.
Qed.
End CounterInRange.

(** X20.  [_adaptive_odeint] raises nothing of its own: with a solver
    whose [step] returns the four values the driver unpacks, the new state,
    its slope and the error estimate of the shape of the state, without a
    seminorm and without an interpolator, a run on a non-empty grid -
    increasing or not, in either mode - never ends in an exception.  In
    particular [t_eval[ckpt_counter]] is never read out of range: the counter
    moves only when a step ends on the requested time it points at, and past
    the last requested time nothing is left to integrate. *)
Theorem adaptive_odeint_never_raises :
  forall (fuel : nat) (cfg : AdaptiveConfig) (k1 : value) (x : Tensor) (dt : R) (e : exn),
    four_values (cfg_solver cfg) (cfg_f cfg) ->
    slope_or_none x k1 ->
    fst (cfg_seminorm cfg) = false ->
    cfg_interpolator cfg = None ->
    cfg_t_span cfg <> [] ->
    _adaptive_odeint fuel cfg k1 x dt <> Raise e.
Proof.
  intros fuel cfg k1 x dt e Hsolver Hk Hsemi Hip Hne.
  unfold _adaptive_odeint.
  destruct (cfg_t_span cfg) as [| t0 te] eqn:Hspan; [contradiction |].
  cbn [idx_last idx nth_error bind].
  pose proof (adaptive_loop_in_range cfg (last (t0 :: te) 0) t0 te Hspan eq_refl Hsolver
                Hsemi Hip fuel
                (mkAdaptiveState t0 x dt k1 0 false 0 [t0] [x]) e) as Hloop.
  destruct (adaptive_loop fuel cfg (last (t0 :: te) 0) _) as [st | e' |] eqn:El;
    cbn [bind]; try discriminate.
  intros H. injection H as ->. apply Hloop; [| reflexivity].
  split; [exact Hk |]. cbn [a_ckpt_counter a_t].
  rewrite Hspan. unfold t_eval_of. cbn [tl].
  destruct te as [| b l]; [right; cbn; lra | left; cbn; lia].
Qed.

Lemma zero_field_same_shape (t : R) (x : Tensor) : same_shape x (zero_field t x).
Proof. split; [reflexivity |]. unfold zero_field, zeros_like, tmap. simpl. apply length_map. Qed.

Lemma adaptive_odeint_never_raises_witness :
  ~ exists e : exn,
      _adaptive_odeint 1 still_all_cfg (VTensor (vec [0])) (vec [1]) 1 = Raise e.
Proof.
  intros [e H].
  apply (adaptive_odeint_never_raises 1 still_all_cfg (VTensor (vec [0])) (vec [1]) 1 e).
  - apply HeunEuler_four_values. exact zero_field_same_shape.
  - right. eexists. split; [reflexivity | split; reflexivity].
  - reflexivity.
  - reflexivity.
  - discriminate.
  - exact H.
Defined.

(** ** [_jagged_fixed_odeint] on one sub-problem *)

Lemma steps_along_removelast (phi : R -> R -> Tensor -> Tensor) :
  forall (grid : list R) (x : Tensor) (t0 t1 : R),
    firstn (length (t0 :: grid)) (steps_along phi x (t0 :: grid ++ [t1]))
    = steps_along phi x (t0 :: grid).
Proof.
  induction grid as [| t grid IH]; intros x t0 t1.
  - reflexivity.
  - change (t0 :: (t :: grid) ++ [t1]) with (t0 :: t :: grid ++ [t1]).
    rewrite !steps_along_cons. cbn [length firstn]. f_equal.
    apply (IH (phi t0 (t - t0) x) t t1).
Qed.

Lemma removelast_snoc {A : Type} (l : list A) (a : A) : removelast (l ++ [a]) = l.
Proof. apply removelast_last. Qed.

Section OneSegment.
Variable f : SegmentField.
Variable step : SegmentStep.
Variable phi : R -> R -> Tensor -> Tensor.
Variable row_shape : list nat.
Hypothesis Hstep :
  forall t dt x, exists a b,
    step f (VTensor x) [t] [dt] = Ok [a; b; VTensor (phi t dt x)].
Hypothesis Hshape : forall t dt x, shape (phi t dt x) = shape x.
Variable g : list R.
Variable T : R.

Lemma row_first (x : Tensor) : shape x = 1%nat :: row_shape -> row 0 x = Ok (first_row x).
Proof. unfold row, first_row. intros ->. reflexivity. Qed.

Lemma not_converged_at (v : R) :
  1 / 1000000 < Rabs (v - T) -> any (not_converged [v] [T]) = true.
Proof.
  intros H. unfold any, not_converged. cbn [combine map existsb fst snd].
  rewrite Rleb_false by lra. reflexivity.
Qed.

Lemma converged_at : any (not_converged [T] [T]) = false.
Proof.
  unfold any, not_converged. cbn [combine map existsb fst snd].
  rewrite Rleb_true; [reflexivity |].
  replace (T - T) with 0 by ring. rewrite Rabs_R0. lra.
Qed.

Lemma jagged_march :
  forall (vs : list R) (fuel steps : nat) (x : Tensor) (v dt : R) (sol_ : list Tensor),
    skipn steps g = vs ->
    shape x = 1%nat :: row_shape ->
    dt = match vs with [] => 0 | v' :: _ => v' - v end ->
    (forall tau, In tau (removelast (v :: vs)) -> 1 / 1000000 < Rabs (tau - T)) ->
    last (v :: vs) 0 = T ->
    (length vs <= fuel)%nat ->
    jagged_loop fuel f step [g] [T] (VTensor x) [v] [dt] steps [sol_]
    = Ok [sol_ ++ map first_row (tl (steps_along phi x (v :: vs)))].
Proof.
  induction vs as [| v' vs IH]; intros fuel steps x v dt sol_ Hskip Hx Hdt Haway Hlast Hfuel.
  - cbn [last] in Hlast. subst v.
    destruct fuel; cbn [jagged_loop]; rewrite converged_at; cbn [steps_along tl map];
      rewrite app_nil_r; reflexivity.
  - destruct fuel as [| fuel]; [simpl in Hfuel; lia |].
    cbn [jagged_loop].
    rewrite not_converged_at by (apply Haway; left; reflexivity).
    subst dt. destruct (Hstep v (v' - v) x) as [a [b ->]]. cbn [bind unpack3].
    set (x' := phi v (v' - v) x).
    assert (Hx' : shape x' = 1%nat :: row_shape) by (subst x'; rewrite Hshape; exact Hx).
    cbn [append_rows item]. rewrite (row_first x' Hx'). cbn [bind].
    cbn [zipWith]. replace (v + (v' - v)) with v' by ring.
    pose proof (skipn_cons_length _ _ _ _ Hskip) as Hlen.
    apply skipn_cons_nth_error in Hskip. destruct Hskip as [_ Hskip].
    cbn [combine for_each next_step].
    assert (Hnext : (if (length g <=? S steps)%nat
                     then Ok 0
                     else v0 <- idx g (S steps) ;; Ok (v0 - v'))
                    = Ok (match vs with [] => 0 | v'' :: _ => v'' - v' end)).
    { destruct vs as [| v'' vs].
      - destruct (Nat.leb_spec (length g) (S steps)); [reflexivity | simpl in Hlen; lia].
      - destruct (Nat.leb_spec (length g) (S steps)); [simpl in Hlen; lia |].
        apply skipn_cons_nth_error in Hskip. destruct Hskip as [Hn _].
        unfold idx. rewrite Hn. reflexivity. }
    rewrite Hnext. cbn [bind].
    rewrite (IH fuel (S steps) x' v' _ (sol_ ++ [first_row x'])); try reflexivity.
    + rewrite steps_along_cons. cbn [tl]. fold x'.
      rewrite (steps_along_head phi x' (v' :: vs)) at 2. cbn [map].
      rewrite <- app_assoc. reflexivity.
    + exact Hskip.
    + exact Hx'.
    + intros tau Hin. apply Haway.
      change (removelast (v :: v' :: vs)) with (v :: removelast (v' :: vs)).
      right. exact Hin.
    + exact Hlast.
    + simpl in Hfuel. lia.
Qed.
End OneSegment.

Lemma Euler_step_segments_update (f : SegmentField) (t dt : R) (x : Tensor) :
  exists a b,
    Euler_step_segments f (VTensor x) [t] [dt]
    = Ok [a; b; VTensor (x + scale_rows [dt] (f [t] x))%T].
Proof. exists VNone, VNone. reflexivity. Qed.

Lemma steps_along_marched (phi : R -> R -> Tensor -> Tensor) (x : Tensor) (t0 t1 t2 : R)
    (rest : list R) :
  firstn (length (t0 :: t1 :: t2 :: rest))
    (steps_along phi x (t0 :: t1 :: t1 :: t2 :: rest))
  = steps_along phi x (removelast (marched (t0 :: t1 :: t2 :: rest))).
Proof.
  cbn [marched].
  destruct (exists_last (l := t2 :: rest)) as [front [tn E]]; [discriminate |].
  rewrite E.
  assert (Er : removelast (t0 :: t1 :: t1 :: front ++ [tn]) = t0 :: t1 :: t1 :: front).
  { change (t0 :: t1 :: t1 :: front ++ [tn]) with ((t0 :: t1 :: t1 :: front) ++ [tn]).
    apply removelast_last. }
  rewrite Er.
  rewrite <- (steps_along_removelast phi (t1 :: t1 :: front) x t0 tn).
  f_equal. cbn [length]. rewrite length_app. cbn [length]. lia.
Qed.

(** The run of [_jagged_fixed_odeint] on one sub-problem: the first round
    by hand, the rest by [jagged_march]. *)
Lemma jagged_odeint_run :
  forall (f : SegmentField) (step : SegmentStep) (phi : R -> R -> Tensor -> Tensor)
         (row_shape : list nat) (x : Tensor) (t0 t1 : R) (rest : list R) (fuel : nat),
    (forall t dt x, exists a b,
        step f (VTensor x) [t] [dt] = Ok [a; b; VTensor (phi t dt x)]) ->
    (forall t dt x, shape (phi t dt x) = shape x) ->
    shape x = 1%nat :: row_shape ->
    (forall tau, In tau (t0 :: removelast (t1 :: rest)) ->
                 1 / 1000000 < Rabs (tau - last (t1 :: rest) 0)) ->
    (length (t0 :: t1 :: rest) <= fuel)%nat ->
    _jagged_fixed_odeint fuel f x [t0 :: t1 :: rest] step
    = Returns [map first_row
                 (steps_along phi x (removelast (marched (t0 :: t1 :: rest))))].
Proof.
  intros f step phi row_shape x t0 t1 rest fuel Hstep Hshape Hx Haway Hfuel.
  set (T := last (t1 :: rest) 0) in *.
  unfold _jagged_fixed_odeint.
  cbn [for_each idx nth_error bind idx_last combine fst snd].
  change (last (t0 :: t1 :: rest) 0) with T.
  assert (Hu : unbind x = Ok [first_row x]).
  { unfold unbind, first_row. rewrite Hx. reflexivity. }
  rewrite Hu. cbn [bind map].
  destruct fuel as [| fuel]; [simpl in Hfuel; lia |].
  cbn [jagged_loop].
  rewrite (not_converged_at T t0) by (apply Haway; left; reflexivity).
  destruct (Hstep t0 (t1 - t0) x) as [a [b ->]]. cbn [bind unpack3].
  set (x1 := phi t0 (t1 - t0) x).
  assert (Hx1 : shape x1 = 1%nat :: row_shape) by (subst x1; rewrite Hshape; exact Hx).
  cbn [append_rows item]. rewrite (row_first row_shape x1 Hx1). cbn [bind].
  cbn [zipWith]. replace (t0 + (t1 - t0)) with t1 by ring.
  cbn [combine for_each next_step length Nat.leb idx nth_error bind app].
  destruct rest as [| t2 rest].
  - change T with t1.
    destruct fuel; cbn [jagged_loop]; rewrite (converged_at t1); cbn [lift bind];
      reflexivity.
  - rewrite (jagged_march f step phi row_shape Hstep Hshape (t0 :: t1 :: t2 :: rest) T
               (t1 :: t2 :: rest) fuel 1 x1 t1 (t1 - t1) [first_row x; first_row x1]).
    + cbn [bind lift]. f_equal. unfold prune. cbn [combine map fst snd]. f_equal.
      change ([first_row x; first_row x1]
              ++ map first_row (tl (steps_along phi x1 (t1 :: t1 :: t2 :: rest))))
        with (map first_row
                (x :: x1 :: tl (steps_along phi x1 (t1 :: t1 :: t2 :: rest)))).
      rewrite <- (steps_along_head phi x1 (t1 :: t1 :: t2 :: rest)).
      change (x :: steps_along phi x1 (t1 :: t1 :: t2 :: rest))
        with (steps_along phi x (t0 :: t1 :: t1 :: t2 :: rest)).
      rewrite firstn_map. f_equal. apply steps_along_marched.
    + reflexivity.
    + exact Hx1.
    + reflexivity.
    + intros tau Hin. apply Haway.
      change (removelast (t1 :: t1 :: t2 :: rest))
        with (t1 :: removelast (t1 :: t2 :: rest)) in Hin.
      destruct Hin as [<- | Hin].
      * right. left. reflexivity.
      * right. exact Hin.
    + reflexivity.
    + simpl in Hfuel. simpl. lia.
Qed.

(** X21.  [_jagged_fixed_odeint] on one sub-problem, with a solver that
    returns its state in the third slot (as those of [solvers.py] do) and
    keeps the shape of the state, and a grid [t_0, t_1, ..., t_n] whose points
    before the last are away from the last by more than [1e-6]: the states
    returned are those of a march along [t_0, t_1, t_1, t_2, ..., t_(n-1)].
    After the first round the step size is [t_[1] - t] with [t = t_[1]], so
    [t_1] is visited twice; the run goes on to [t_n], and pruning to
    [len(t_)] states then drops the state at [t_n].  On a grid of two points
    the states are those at [t_0] and [t_1]. *)
Theorem jagged_odeint_marches_along :
  forall (f : SegmentField) (step : SegmentStep) (phi : R -> R -> Tensor -> Tensor)
         (row_shape : list nat) (x : Tensor) (t0 t1 : R) (rest : list R) (fuel : nat),
    (forall t dt x, exists a b,
        step f (VTensor x) [t] [dt] = Ok [a; b; VTensor (phi t dt x)]) ->
    (forall t dt x, shape (phi t dt x) = shape x) ->
    shape x = 1%nat :: row_shape ->
    (forall tau, In tau (t0 :: removelast (t1 :: rest)) ->
                 1 / 1000000 < Rabs (tau - last (t1 :: rest) 0)) ->
    (length (t0 :: t1 :: rest) <= fuel)%nat ->
    _jagged_fixed_odeint fuel f x [t0 :: t1 :: rest] step
    = Returns [map first_row
                 (steps_along phi x (removelast (marched (t0 :: t1 :: rest))))].
Proof. exact jagged_odeint_run. Qed.

Lemma away_from_two (tau : R) : In tau [0; 1] -> 1 / 1000000 < Rabs (tau - 2).
Proof.
  intros [<- | [<- | []]]; rewrite Rabs_left by lra; lra.
Qed.

Lemma jagged_odeint_marches_along_witness :
  _jagged_fixed_odeint 3 growth_field one_segment_state [[0; 1; 2]] Euler_step_segments
  = Returns [map first_row
               (steps_along (euler_segment_update growth_field) one_segment_state
                  (removelast (marched [0; 1; 2])))].
Proof.
  apply (jagged_odeint_marches_along growth_field Euler_step_segments
           (euler_segment_update growth_field) [1%nat; 1%nat] one_segment_state 0 1 [2] 3).
  - intros t dt x. apply Euler_step_segments_update.
  - intros t dt x. reflexivity.
  - reflexivity.
  - exact away_from_two.
  - simpl. lia.
Defined.

(** X22.  The state at the second grid point is returned twice, and the
    state at the last grid point not at all: on a grid of three points or
    more, when the step of size zero that the driver takes at [t_1] leaves
    the state as it is, the states returned for the grid points [t_1] and
    [t_2] are one and the same, and as many states are returned as the grid
    has points. *)
Theorem jagged_odeint_repeats_second_state :
  forall (f : SegmentField) (step : SegmentStep) (phi : R -> R -> Tensor -> Tensor)
         (row_shape : list nat) (x : Tensor) (t0 t1 t2 : R) (rest : list R) (fuel : nat),
    (forall t dt x, exists a b,
        step f (VTensor x) [t] [dt] = Ok [a; b; VTensor (phi t dt x)]) ->
    (forall t dt x, shape (phi t dt x) = shape x) ->
    shape x = 1%nat :: row_shape ->
    (forall tau, In tau (t0 :: removelast (t1 :: t2 :: rest)) ->
                 1 / 1000000 < Rabs (tau - last (t1 :: t2 :: rest) 0)) ->
    (length (t0 :: t1 :: t2 :: rest) <= fuel)%nat ->
    phi t1 (t1 - t1) (phi t0 (t1 - t0) x) = phi t0 (t1 - t0) x ->
    exists states,
      _jagged_fixed_odeint fuel f x [t0 :: t1 :: t2 :: rest] step = Returns [states]
      /\ length states = length (t0 :: t1 :: t2 :: rest)
      /\ nth_error states 1 = Some (first_row (phi t0 (t1 - t0) x))
      /\ nth_error states 2 = Some (first_row (phi t0 (t1 - t0) x)).
Proof.
  intros f step phi row_shape x t0 t1 t2 rest fuel Hstep Hshape Hx Haway Hfuel Hzero.
  eexists. split; [| split; [| split]].
  - apply (jagged_odeint_run f step phi row_shape x t0 t1 (t2 :: rest) fuel);
      assumption.
  - rewrite length_map. rewrite <- steps_along_marched.
    rewrite length_firstn.
    rewrite steps_along_length by discriminate. cbn [length]. lia.
  - rewrite <- steps_along_marched. cbn [length firstn].
    rewrite !steps_along_cons. reflexivity.
  - rewrite <- steps_along_marched. cbn [length firstn].
    rewrite !steps_along_cons. cbn [firstn map nth_error]. rewrite Hzero. reflexivity.
Qed.

Lemma jagged_odeint_repeats_second_state_witness :
  exists states,
    _jagged_fixed_odeint 3 growth_field one_segment_state [[0; 1; 2]] Euler_step_segments
    = Returns [states]
    /\ length states = length [0; 1; 2]
    /\ nth_error states 1
       = Some (first_row (euler_segment_update growth_field 0 (1 - 0) one_segment_state))
    /\ nth_error states 2
       = Some (first_row (euler_segment_update growth_field 0 (1 - 0) one_segment_state)).
Proof.
  apply (jagged_odeint_repeats_second_state growth_field Euler_step_segments
           (euler_segment_update growth_field) [1%nat; 1%nat] one_segment_state 0 1 2 [] 3).
  - intros t dt x. apply Euler_step_segments_update.
  - intros t dt x. reflexivity.
  - reflexivity.
  - exact away_from_two.
  - simpl. lia.
  - unfold euler_segment_update, growth_field, one_segment_state, scale_rows, tadd, tmap2.
    cbn. f_equal. f_equal. ring.
Defined.

(** ** [_jagged_fixed_odeint] on any number of sub-problems *)

Lemma for_each_cases {A B : Type} (g : A -> result B) (e : exn) :
  (forall a, g a = Raise e \/ exists b, g a = Ok b) ->
  forall l, for_each g l = Raise e \/ exists bs, for_each g l = Ok bs.
Proof.
  intros Hg. induction l as [| a l IH]; cbn [for_each].
  - right. exists []. reflexivity.
  - destruct (Hg a) as [-> | [b ->]]; [left; reflexivity |].
    destruct IH as [-> | [bs ->]]; [left | right; exists (b :: bs)]; reflexivity.
Qed.

Lemma for_each_app_raise {A B : Type} (g : A -> result B) (e : exn) (a : A) :
  (forall a', g a' = Raise e \/ exists b, g a' = Ok b) ->
  g a = Raise e ->
  forall (pre post : list A), for_each g (pre ++ a :: post) = Raise e.
Proof.
  intros Hg Ha. induction pre as [| a' pre IH]; intros post.
  - cbn [app for_each]. rewrite Ha. reflexivity.
  - cbn [app for_each].
    destruct (Hg a') as [-> | [b ->]]; [reflexivity |].
    cbn [bind]. rewrite IH. reflexivity.
Qed.

Lemma for_each_length {A B : Type} (g : A -> result B) :
  forall (l : list A) (bs : list B), for_each g l = Ok bs -> length bs = length l.
Proof.
  induction l as [| a l IH]; intros bs H; cbn [for_each] in H.
  - injection H as <-. reflexivity.
  - bind_inv H. bind_inv H. injection H as <-. cbn [length]. f_equal.
    apply IH. assumption.
Qed.

Lemma idx_cases (i : nat) (t_sub : list R) :
  idx t_sub i = Raise IndexError \/ exists b, idx t_sub i = Ok b.
Proof.
  unfold idx. destruct (nth_error t_sub i) as [b |]; [right; exists b | left]; reflexivity.
Qed.

Lemma idx_last_cases (t_sub : list R) :
  idx_last t_sub = Raise IndexError \/ exists b, idx_last t_sub = Ok b.
Proof. destruct t_sub as [| b l]; [left | right; eexists]; reflexivity. Qed.

Lemma first_step_cases (p : list R * R) :
  (t1 <- idx (fst p) 1 ;; Ok (t1 - snd p)) = Raise IndexError
  \/ exists b, (t1 <- idx (fst p) 1 ;; Ok (t1 - snd p)) = Ok b.
Proof.
  destruct (idx_cases 1 (fst p)) as [-> | [b ->]]; [left | right; eexists]; reflexivity.
Qed.

Lemma combine_app_cons {A B : Type} (pre post : list A) (a : A) (bs : list B) :
  length bs = length (pre ++ a :: post) ->
  exists pre' b post',
    combine (pre ++ a :: post) bs = pre' ++ (a, b) :: post'.
Proof.
  revert bs. induction pre as [| a' pre IH]; intros bs H.
  - destruct bs as [| b bs]; [discriminate |]. exists [], b, (combine post bs). reflexivity.
  - destruct bs as [| b' bs]; [discriminate |].
    cbn [app length] in H. injection H as H.
    destruct (IH bs H) as [pre' [b [post' E]]].
    exists ((a', b') :: pre'), b, post'. cbn [app combine]. rewrite E. reflexivity.
Qed.

Lemma jagged_short_grid (fuel : nat) (f : SegmentField) (x : Tensor) (step : SegmentStep)
    (pre post : list (list R)) (t_sub : list R) :
  (length t_sub < 2)%nat ->
  _jagged_fixed_odeint fuel f x (pre ++ t_sub :: post) step = Raises (Builtin IndexError).
Proof.
  intros Hlen. unfold _jagged_fixed_odeint.
  destruct (for_each_cases (fun t_sub0 => idx t_sub0 0) IndexError (idx_cases 0)
              (pre ++ t_sub :: post)) as [-> | [t E0]]; [reflexivity |].
  rewrite E0.
  destruct (for_each_cases idx_last IndexError idx_last_cases (pre ++ t_sub :: post))
    as [-> | [T ->]]; [reflexivity |].
  destruct (combine_app_cons pre post t_sub t (for_each_length _ _ _ E0))
    as [pre' [t0 [post' ->]]].
  rewrite (for_each_app_raise _ IndexError (t_sub, t0) first_step_cases).
  - destruct pre; reflexivity.
  - destruct t_sub as [| a [| b l]]; [| | cbn [length] in Hlen; lia]; reflexivity.
Qed.

Lemma extends_refl (sol : list (list Tensor)) : extends sol sol.
Proof.
  induction sol as [| s sol IH]; constructor; [| exact IH].
  exists []. symmetry. apply app_nil_r.
Qed.

Lemma extends_trans (sol2 sol1 sol : list (list Tensor)) :
  extends sol2 sol1 -> extends sol1 sol -> extends sol2 sol.
Proof.
  intros H21. revert sol. induction H21 as [| s2 s1 sol2 sol1 [tl2 ->] _ IH]; intros sol H1.
  - inversion H1. constructor.
  - inversion H1 as [| ? s ? sol' [tl1 ->] H1' ]; subst.
    constructor; [| apply IH; exact H1'].
    exists (tl1 ++ tl2). symmetry. apply app_assoc.
Qed.

Lemma append_rows_extends (x : value) :
  forall (sol : list (list Tensor)) (n : nat) (sol' : list (list Tensor)),
    append_rows n sol x = Ok sol' -> extends sol' sol.
Proof.
  induction sol as [| s sol IH]; intros n sol' H; cbn [append_rows] in H.
  - injection H as <-. constructor.
  - bind_inv H. bind_inv H. injection H as <-.
    constructor; [eexists; reflexivity | eapply IH; eassumption].
Qed.

Lemma jagged_loop_extends (f : SegmentField) (step : SegmentStep) (t_span : list (list R))
    (T : list R) :
  forall (fuel : nat) (x : value) (t dt : list R) (steps : nat)
         (sol sol' : list (list Tensor)),
    jagged_loop fuel f step t_span T x t dt steps sol = Ok sol' -> extends sol' sol.
Proof.
  induction fuel as [| fuel IH]; intros x t dt steps sol sol' H; cbn [jagged_loop] in H;
    destruct (any (not_converged t T)).
  - discriminate.
  - injection H as <-. apply extends_refl.
  - bind_inv H. bind_inv H. destruct a0 as [[? ?] x']. bind_inv H. bind_inv H.
    apply IH in H. eapply extends_trans; [exact H |].
    eapply append_rows_extends; eassumption.
  - injection H as <-. apply extends_refl.
Qed.

Lemma for_each_first_nonempty :
  forall (t_span : list (list R)) (t : list R),
    for_each (fun t_sub => idx t_sub 0) t_span = Ok t -> Forall (fun t_ => t_ <> []) t_span.
Proof.
  induction t_span as [| t_ t_span IH]; intros t H; cbn [for_each] in H.
  - constructor.
  - bind_inv H. bind_inv H. constructor; [| eapply IH; eassumption].
    intros ->. discriminate.
Qed.

Lemma prune_extends :
  forall (sol' : list (list Tensor)) (rows : list Tensor) (t_span : list (list R)),
    extends sol' (map (fun x_ => [x_]) rows) ->
    Forall (fun t_ => t_ <> []) t_span ->
    Forall2 (fun sol_ p => hd_error sol_ = Some (fst p)
                           /\ (length sol_ <= length (snd p))%nat)
      (prune sol' t_span) (combine rows t_span).
Proof.
  unfold prune. induction sol' as [| s' sol' IH]; intros rows t_span He Hne.
  - inversion He as [E |]. destruct rows; [| discriminate]. constructor.
  - destruct rows as [| r rows]; [inversion He |].
    cbn [map] in He. inversion He as [| ? ? ? ? [tail ->] He']; subst.
    destruct t_span as [| t_ t_span]; [constructor |].
    inversion Hne as [| ? ? Ht Hne']; subst.
    cbn [combine map fst snd]. constructor; [| apply IH; assumption].
    split.
    + destruct t_ as [| a l]; [contradiction |]. reflexivity.
    + rewrite length_firstn. apply Nat.le_min_l.
Qed.

(** X23.  [_jagged_fixed_odeint] needs a sub-problem, and two grid points
    for each: on the empty list [t_span = []] it raises a [RuntimeError]
    (at [torch.stack] of nothing), and when a sub-grid has fewer than two
    points, wherever it stands in the list and whatever the other sub-grids
    are, the run raises an [IndexError] before the solver is called. *)
Theorem jagged_odeint_needs_two_grid_points (fuel : nat) (f : SegmentField) (x : Tensor)
    (step : SegmentStep) (pre post : list (list R)) (t0 : R) :
  _jagged_fixed_odeint fuel f x [] step = Raises RuntimeError
  /\ _jagged_fixed_odeint fuel f x (pre ++ [] :: post) step = Raises (Builtin IndexError)
  /\ _jagged_fixed_odeint fuel f x (pre ++ [t0] :: post) step = Raises (Builtin IndexError).
Proof.
  split; [reflexivity |].
  split; apply jagged_short_grid; cbn [length]; lia.
Qed.

(** X24.  Whenever [_jagged_fixed_odeint] returns, what it returns is paired
    with the rows of [x] and the sub-grids of [t_span], in order and as far
    as both go: the list of states of sub-problem [n] starts with [x[n]],
    its initial state, and holds at most [len(t_span[n])] states. *)
Theorem jagged_odeint_starts_at_initial_state (fuel : nat) (f : SegmentField) (x : Tensor)
    (t_span : list (list R)) (step : SegmentStep) (sols : list (list Tensor)) :
  _jagged_fixed_odeint fuel f x t_span step = Returns sols ->
  exists rows,
    unbind x = Ok rows
    /\ Forall2 (fun sol_ p => hd_error sol_ = Some (fst p)
                              /\ (length sol_ <= length (snd p))%nat)
         sols (combine rows t_span).
Proof.
  unfold _jagged_fixed_odeint. intros H.
  destruct (for_each (fun t_sub => idx t_sub 0) t_span) as [t | e |] eqn:E0;
    [| discriminate | discriminate].
  destruct (for_each idx_last t_span) as [T | e |] eqn:E1; [| discriminate | discriminate].
  assert (Hrun : (dt <- for_each (fun p => t1 <- idx (fst p) 1 ;; Ok (t1 - snd p))
                          (combine t_span t) ;;
                  sol <- unbind x ;;
                  sol <- jagged_loop fuel f step t_span T (VTensor x) t dt 0
                           (map (fun x_ => [x_]) sol) ;;
                  Ok (prune sol t_span)) = Ok sols).
  { destruct t_span; [discriminate |].
    match type of H with lift ?r = _ => destruct r; [| discriminate | discriminate] end.
    cbn [lift] in H. congruence. }
  clear H. bind_inv Hrun. bind_inv Hrun. bind_inv Hrun. injection Hrun as <-.
  exists a0. split; [assumption |].
  apply prune_extends.
  - eapply jagged_loop_extends; eassumption.
  - eapply for_each_first_nonempty; eassumption.
Qed.
Lemma jagged_growth_run :
  _jagged_fixed_odeint 3 growth_field one_segment_state [[0; 1; 2]] Euler_step_segments
  = Returns [map first_row
               (steps_along (euler_segment_update growth_field) one_segment_state
                  (removelast (marched [0; 1; 2])))].
Proof.
  apply (jagged_odeint_run growth_field Euler_step_segments
           (euler_segment_update growth_field) [1%nat; 1%nat] one_segment_state 0 1 [2] 3).
  - intros t dt x. apply Euler_step_segments_update.
  - intros t dt x. reflexivity.
  - reflexivity.
  - exact away_from_two.
  - simpl. lia.
Qed.

Lemma jagged_odeint_starts_at_initial_state_witness :
  exists rows,
    unbind one_segment_state = Ok rows
    /\ Forall2 (fun sol_ p => hd_error sol_ = Some (fst p)
                              /\ (length sol_ <= length (snd p))%nat)
         [map first_row
            (steps_along (euler_segment_update growth_field) one_segment_state
               (removelast (marched [0; 1; 2])))]
         (combine rows [[0; 1; 2]]).
Proof.
  apply (jagged_odeint_starts_at_initial_state 3 growth_field one_segment_state [[0; 1; 2]]
           Euler_step_segments).
  exact jagged_growth_run.
Defined.

(** ** [AsynchronousLeapfrog.step] *)

Lemma pieces_S (n rs : nat) (d : list R) :
  pieces (S n) rs d = firstn rs d :: pieces n rs (skipn rs d).
Proof.
  unfold pieces. rewrite <- cons_seq, <- seq_shift. cbn [map]. rewrite map_map.
  f_equal. apply map_ext. intros k. rewrite skipn_skipn. do 2 f_equal. lia.
Qed.

Lemma length_pieces (n rs : nat) (d : list R) : length (pieces n rs d) = n.
Proof. unfold pieces. rewrite length_map. apply length_seq. Qed.

Lemma concat_pieces (rs : nat) :
  forall (n : nat) (d : list R), length d = (n * rs)%nat -> concat (pieces n rs d) = d.
Proof.
  induction n as [| n IH]; intros d Hd.
  - destruct d; [reflexivity | discriminate].
  - rewrite pieces_S. cbn [concat]. rewrite IH.
    + apply firstn_skipn.
    + rewrite length_skipn. lia.
Qed.

Lemma pieces_lengths (rs : nat) :
  forall (n : nat) (d : list R),
    length d = (n * rs)%nat -> Forall (fun r => length r = rs) (pieces n rs d).
Proof.
  induction n as [| n IH]; intros d Hd.
  - constructor.
  - rewrite pieces_S. constructor.
    + rewrite length_firstn. lia.
    + apply IH. rewrite length_skipn. lia.
Qed.

Lemma pieces_concat (rs : nat) :
  forall rows : list (list R),
    Forall (fun r => length r = rs) rows -> pieces (length rows) rs (concat rows) = rows.
Proof.
  induction rows as [| r rows IH]; intros H.
  - reflexivity.
  - inversion H as [| ? ? Hr Hrows]; subst.
    cbn [length concat]. rewrite pieces_S. f_equal.
    + rewrite firstn_app, Nat.sub_diag, firstn_O, app_nil_r. apply firstn_all.
    + rewrite skipn_app, Nat.sub_diag, skipn_all. cbn [app skipn]. apply IH. exact Hrows.
Qed.

Lemma length_concat_rows (rs : nat) :
  forall rows : list (list R),
    Forall (fun r => length r = rs) rows -> length (concat rows) = (length rows * rs)%nat.
Proof.
  induction rows as [| r rows IH]; intros H.
  - reflexivity.
  - inversion H; subst. cbn [concat length]. rewrite length_app, IH by assumption. lia.
Qed.

Lemma numel_app (s : list nat) (a : nat) : numel (s ++ [a]) = (numel s * a)%nat.
Proof.
  unfold numel. induction s as [| d s IH]; cbn [app fold_right].
  - lia.
  - rewrite IH. lia.
Qed.

(** *** Broadcasting two tensors of one shape *)

Lemma broadcast_rev_same (s : list nat) : broadcast_rev s s = Some s.
Proof.
  induction s as [| d s IH]; [reflexivity |].
  cbn [broadcast_rev]. rewrite IH, Nat.eqb_refl. reflexivity.
Qed.

Lemma broadcast_shapes_same (s : list nat) : broadcast_shapes s s = Some s.
Proof.
  unfold broadcast_shapes. rewrite broadcast_rev_same. cbn [option_map].
  rewrite rev_involutive. reflexivity.
Qed.

Lemma pad_shape_same (s : list nat) : pad_shape (length s) s = s.
Proof. unfold pad_shape. rewrite Nat.sub_diag. reflexivity. Qed.

Lemma expand_same :
  forall (s : list nat) (d : list R), length d = numel s -> expand s s d = d.
Proof.
  induction s as [| n s IH]; intros d Hd; [reflexivity |].
  cbn [expand]. rewrite Nat.eqb_refl.
  change (numel (n :: s)) with (n * numel s)%nat in Hd.
  rewrite <- (concat_pieces (numel s) n d Hd) at 2. f_equal.
  rewrite <- (map_id (pieces n (numel s) d)) at 2.
  apply map_ext_in. intros r Hr. apply IH.
  pose proof (pieces_lengths (numel s) n d Hd) as Hall.
  rewrite Forall_forall in Hall. apply Hall. exact Hr.
Qed.

Lemma bmap2_same (g : R -> R -> R) (x y : Tensor) :
  shape y = shape x -> fits x -> fits y -> bmap2 g x y = Returns (tmap2 g x y).
Proof.
  unfold fits, bmap2, tmap2. intros Hs Hx Hy.
  rewrite Hs, broadcast_shapes_same, pad_shape_same.
  rewrite !expand_same by congruence. reflexivity.
Qed.

Lemma fits_tmap2 (g : R -> R -> R) (x y : Tensor) :
  shape y = shape x -> fits x -> fits y -> fits (tmap2 g x y).
Proof.
  unfold fits, tmap2. cbn [shape data]. intros Hs Hx Hy.
  rewrite zipWith_length. rewrite Hx, Hy, Hs. apply Nat.min_id.
Qed.

Lemma fits_tscale (c : R) (x : Tensor) : fits x -> fits (c .* x)%T.
Proof. unfold fits, tscale, tmap. cbn [shape data]. rewrite length_map. auto. Qed.
(** *** Splitting and joining the last axis *)

Lemma last_axis_shape (x : Tensor) (batch : list nat) (L : nat) :
  shape x = batch ++ [L] -> last_axis x = pieces (numel batch) L (data x).
Proof.
  intros Hs. unfold last_axis. rewrite Hs, removelast_last, last_last. reflexivity.
Qed.

Lemma half_double (h : nat) : ((h + h) / 2 = h)%nat.
Proof.
  replace (h + h)%nat with (h * 2)%nat by lia. apply Nat.div_mul. discriminate.
Qed.

Lemma map_firstn_lengths (h : nat) (rows : list (list R)) :
  Forall (fun r => length r = (h + h)%nat) rows ->
  Forall (fun r => length r = h) (map (firstn h) rows).
Proof.
  intros H. rewrite Forall_map. eapply Forall_impl; [| exact H].
  cbn beta. intros r Hr. rewrite length_firstn. lia.
Qed.

Lemma map_skipn_lengths (h : nat) (rows : list (list R)) :
  Forall (fun r => length r = (h + h)%nat) rows ->
  Forall (fun r => length r = h) (map (skipn h) rows).
Proof.
  intros H. rewrite Forall_map. eapply Forall_impl; [| exact H].
  cbn beta. intros r Hr. rewrite length_skipn. lia.
Qed.

Lemma zip_app_split (h : nat) (rows : list (list R)) :
  map (fun p => fst p ++ snd p) (combine (map (firstn h) rows) (map (skipn h) rows)) = rows.
Proof.
  induction rows as [| r rows IH]; [reflexivity |].
  cbn [map combine fst snd]. rewrite IH, firstn_skipn. reflexivity.
Qed.

Lemma zip_app_firstn (h : nat) :
  forall A B : list (list R),
    Forall (fun r => length r = h) A -> length A = length B ->
    map (firstn h) (map (fun p => fst p ++ snd p) (combine A B)) = A.
Proof.
  induction A as [| a A IH]; intros [| b B] HA Hlen; try reflexivity; try discriminate.
  inversion HA as [| ? ? Ha HA']; subst.
  cbn [combine map fst snd]. rewrite IH by (auto; cbn [length] in Hlen; lia).
  rewrite firstn_app, Nat.sub_diag, firstn_O, app_nil_r, firstn_all. reflexivity.
Qed.

Lemma zip_app_skipn (h : nat) :
  forall A B : list (list R),
    Forall (fun r => length r = h) A -> length A = length B ->
    map (skipn h) (map (fun p => fst p ++ snd p) (combine A B)) = B.
Proof.
  induction A as [| a A IH]; intros [| b B] HA Hlen; try reflexivity; try discriminate.
  inversion HA as [| ? ? Ha HA']; subst.
  cbn [combine map fst snd]. rewrite IH by (auto; cbn [length] in Hlen; lia).
  rewrite skipn_app, Nat.sub_diag, skipn_all. reflexivity.
Qed.

Lemma zip_app_lengths (h : nat) :
  forall A B : list (list R),
    Forall (fun r => length r = h) A -> Forall (fun r => length r = h) B ->
    Forall (fun r => length r = (h + h)%nat) (map (fun p => fst p ++ snd p) (combine A B)).
Proof.
  induction A as [| a A IH]; intros [| b B] HA HB; try constructor.
  - inversion HA; inversion HB; subst. cbn [fst snd]. rewrite length_app. lia.
  - inversion HA; inversion HB; subst. apply IH; assumption.
Qed.

Lemma length_zip_app (A B : list (list R)) :
  length A = length B ->
  length (map (fun p => fst p ++ snd p) (combine A B)) = length A.
Proof. intros H. rewrite length_map, length_combine, <- H. apply Nat.min_id. Qed.

Section Halves.

Variable batch : list nat.
Variable h : nat.

(** The two halves of a state with a last axis of even length. *)
Lemma slice_last_to_half (xv : Tensor) :
  shape xv = batch ++ [(h + h)%nat] -> fits xv ->
  shape (slice_last_to h xv) = batch ++ [h] /\ fits (slice_last_to h xv).
Proof.
  unfold fits. intros Hs Hx. unfold slice_last_to.
  rewrite (last_axis_shape xv batch (h + h) Hs). cbn [shape data].
  rewrite Hs, removelast_last, last_last. rewrite Hs, numel_app in Hx.
  replace (Nat.min h (h + h)) with h by lia. split; [reflexivity |].
  rewrite (length_concat_rows h).
  - rewrite length_map, length_pieces, numel_app. reflexivity.
  - apply map_firstn_lengths, pieces_lengths. exact Hx.
Qed.

Lemma slice_last_from_half (xv : Tensor) :
  shape xv = batch ++ [(h + h)%nat] -> fits xv ->
  shape (slice_last_from h xv) = batch ++ [h] /\ fits (slice_last_from h xv).
Proof.
  unfold fits. intros Hs Hx. unfold slice_last_from.
  rewrite (last_axis_shape xv batch (h + h) Hs). cbn [shape data].
  rewrite Hs, removelast_last, last_last. rewrite Hs, numel_app in Hx.
  replace (h + h - h)%nat with h by lia. split; [reflexivity |].
  rewrite (length_concat_rows h).
  - rewrite length_map, length_pieces, numel_app. reflexivity.
  - apply map_skipn_lengths, pieces_lengths. exact Hx.
Qed.

Lemma join_last_halves (xv : Tensor) :
  shape xv = batch ++ [(h + h)%nat] -> fits xv ->
  join_last (slice_last_to h xv) (slice_last_from h xv) = xv.
Proof.
  intros Hs Hx.
  destruct (slice_last_to_half xv Hs Hx) as [Hsa _].
  destruct (slice_last_from_half xv Hs Hx) as [Hsb _].
  unfold join_last.
  rewrite (last_axis_shape _ batch h Hsa), (last_axis_shape _ batch h Hsb), Hsa, Hsb.
  rewrite removelast_last, !last_last.
  unfold slice_last_to, slice_last_from. cbn [data].
  rewrite (last_axis_shape xv batch (h + h) Hs).
  unfold fits in Hx. rewrite Hs, numel_app in Hx.
  pose proof (pieces_lengths (h + h) (numel batch) (data xv) Hx) as Hrows.
  set (rows := pieces (numel batch) (h + h) (data xv)) in *.
  assert (Hn : length rows = numel batch) by apply length_pieces.
  assert (Ea : pieces (numel batch) h (concat (map (firstn h) rows)) = map (firstn h) rows).
  { replace (numel batch) with (length (map (firstn h) rows))
      by (rewrite length_map; exact Hn).
    apply pieces_concat, map_firstn_lengths. exact Hrows. }
  assert (Eb : pieces (numel batch) h (concat (map (skipn h) rows)) = map (skipn h) rows).
  { replace (numel batch) with (length (map (skipn h) rows))
      by (rewrite length_map; exact Hn).
    apply pieces_concat, map_skipn_lengths. exact Hrows. }
  rewrite Ea, Eb, zip_app_split. subst rows. rewrite concat_pieces by exact Hx.
  destruct xv as [sx dx]. cbn [shape data] in *. rewrite Hs. reflexivity.
Qed.

Lemma join_last_shape (a b : Tensor) :
  shape a = batch ++ [h] -> shape b = batch ++ [h] -> fits a -> fits b ->
  shape (join_last a b) = batch ++ [(h + h)%nat] /\ fits (join_last a b)
  /\ last_axis (join_last a b)
     = map (fun p => fst p ++ snd p) (combine (last_axis a) (last_axis b)).
Proof.
  unfold fits. intros Ha Hb Hfa Hfb.
  rewrite Ha, numel_app in Hfa. rewrite Hb, numel_app in Hfb.
  pose proof (pieces_lengths h (numel batch) (data a) Hfa) as HA.
  pose proof (pieces_lengths h (numel batch) (data b) Hfb) as HB.
  assert (Hs : shape (join_last a b) = batch ++ [(h + h)%nat]).
  { unfold join_last. cbn [shape]. rewrite Ha, Hb, removelast_last, !last_last.
    reflexivity. }
  assert (Hd : data (join_last a b)
               = concat (map (fun p => fst p ++ snd p)
                           (combine (pieces (numel batch) h (data a))
                              (pieces (numel batch) h (data b))))).
  { unfold join_last. cbn [data].
    rewrite (last_axis_shape a batch h Ha), (last_axis_shape b batch h Hb). reflexivity. }
  set (rows := map (fun p => fst p ++ snd p)
                 (combine (pieces (numel batch) h (data a)) (pieces (numel batch) h (data b)))) in *.
  assert (Hrows : Forall (fun r => length r = (h + h)%nat) rows)
    by (apply zip_app_lengths; assumption).
  assert (Hn : length rows = numel batch).
  { unfold rows. rewrite length_zip_app by (rewrite !length_pieces; reflexivity).
    apply length_pieces. }
  split; [exact Hs |]. split.
  - rewrite Hs, Hd, numel_app, (length_concat_rows (h + h)) by exact Hrows.
    rewrite Hn. reflexivity.
  - rewrite (last_axis_shape _ batch (h + h) Hs), Hd, <- Hn.
    rewrite (last_axis_shape a batch h Ha), (last_axis_shape b batch h Hb).
    apply pieces_concat. exact Hrows.
Qed.

Lemma slice_last_to_join (a b : Tensor) :
  shape a = batch ++ [h] -> shape b = batch ++ [h] -> fits a -> fits b ->
  slice_last_to h (join_last a b) = a.
Proof.
  intros Ha Hb Hfa Hfb.
  destruct (join_last_shape a b Ha Hb Hfa Hfb) as [Hs [_ Hrows]].
  unfold slice_last_to. rewrite Hrows, Hs, removelast_last, last_last.
  replace (Nat.min h (h + h)) with h by lia.
  rewrite (last_axis_shape a batch h Ha), (last_axis_shape b batch h Hb).
  unfold fits in Hfa, Hfb. rewrite Ha, numel_app in Hfa. rewrite Hb, numel_app in Hfb.
  rewrite zip_app_firstn.
  - rewrite concat_pieces by exact Hfa. destruct a as [sa da]. cbn [shape data] in *.
    rewrite Ha. reflexivity.
  - apply pieces_lengths. exact Hfa.
  - rewrite !length_pieces. reflexivity.
Qed.

Lemma slice_last_from_join (a b : Tensor) :
  shape a = batch ++ [h] -> shape b = batch ++ [h] -> fits a -> fits b ->
  slice_last_from h (join_last a b) = b.
Proof.
  intros Ha Hb Hfa Hfb.
  destruct (join_last_shape a b Ha Hb Hfa Hfb) as [Hs [_ Hrows]].
  unfold slice_last_from. rewrite Hrows, Hs, removelast_last, last_last.
  replace (h + h - h)%nat with h by lia.
  rewrite (last_axis_shape a batch h Ha), (last_axis_shape b batch h Hb).
  unfold fits in Hfa, Hfb. rewrite Ha, numel_app in Hfa. rewrite Hb, numel_app in Hfb.
  rewrite zip_app_skipn.
  - rewrite concat_pieces by exact Hfb. destruct b as [sb db]. cbn [shape data] in *.
    rewrite Hb. reflexivity.
  - apply pieces_lengths. exact Hfa.
  - rewrite !length_pieces. reflexivity.
Qed.

(** [torch.cat] of two halves of one shape. *)
Lemma cat_last_halves (a b : Tensor) :
  shape a = batch ++ [h] -> shape b = batch ++ [h] -> fits a -> fits b ->
  cat_last a b = Returns (join_last a b).
Proof.
  intros Ha Hb Hfa Hfb. unfold cat_last.
  assert (Hgen : (if shape_eqb (removelast (shape a)) (removelast (shape b))
                  then Returns (join_last a b) else Raises RuntimeError)
                 = Returns (join_last a b)).
  { rewrite Ha, Hb. unfold shape_eqb.
    destruct (list_eq_dec Nat.eq_dec (removelast (batch ++ [h])) (removelast (batch ++ [h])));
      [reflexivity | contradiction]. }
  assert (Hempty : batch = [] -> h = 0%nat -> b = join_last a b).
  { intros -> ->. unfold join_last, last_axis. rewrite Ha, Hb.
    destruct b as [sb db]. cbn [shape data] in *. unfold fits in Hfb.
    cbn [shape data] in Hfb. rewrite Hb in Hfb.
    destruct db; [| discriminate]. subst sb. reflexivity. }
  assert (Hempty' : batch = [] -> h = 0%nat -> a = join_last a b).
  { intros -> ->. unfold join_last, last_axis. rewrite Ha, Hb.
    destruct a as [sa da]. cbn [shape data] in *. unfold fits in Hfa.
    cbn [shape data] in Hfa. rewrite Ha in Hfa.
    destruct da; [| discriminate]. subst sa. reflexivity. }
  unfold join_last in *. rewrite Ha, Hb in *.
  destruct batch as [| s0 batch'].
  - cbn [app] in *. destruct h as [| h'].
    + rewrite <- Hempty; reflexivity.
    + exact Hgen.
  - cbn [app] in *. destruct (batch' ++ [h]) as [| s1 batch''] eqn:E.
    + destruct batch'; discriminate.
    + destruct s0; exact Hgen.
Qed.

End Halves.
(** *** The step on the two halves *)

Lemma zipWith_add_back (c c' : R) :
  c + c' = 0 ->
  forall a b : list R,
    length a = length b ->
    zipWith Rplus (zipWith Rplus a (map (Rmult c) b)) (map (Rmult c') b) = a.
Proof.
  intros Hc. induction a as [| u a IH]; intros [| w b] Hlen; try reflexivity;
    try discriminate.
  cbn [map zipWith]. rewrite IH by (cbn [length] in Hlen; lia). f_equal.
  replace c' with (- c) by lra. ring.
Qed.

Lemma zipWith_reflect_back :
  forall w v : list R,
    length w = length v ->
    zipWith Rplus
      (map (Rmult (2 * 1))
         (zipWith Rminus w (zipWith Rplus (map (Rmult (2 * 1)) (zipWith Rminus w v)) v)))
      (zipWith Rplus (map (Rmult (2 * 1)) (zipWith Rminus w v)) v)
    = v.
Proof.
  induction w as [| a w IH]; intros [| b v] Hlen; try reflexivity; try discriminate.
  cbn [map zipWith]. rewrite IH by (cbn [length] in Hlen; lia). f_equal. ring.
Qed.

Lemma tensor_eq (x y : Tensor) : shape x = shape y -> data x = data y -> x = y.
Proof.
  destruct x as [sx dx], y as [sy dy]. cbn [shape data]. intros -> ->. reflexivity.
Qed.

Lemma fits_length (x y : Tensor) :
  shape y = shape x -> fits x -> fits y -> length (data x) = length (data y).
Proof. unfold fits. intros Hs Hx Hy. rewrite Hx, Hy, Hs. reflexivity. Qed.

Lemma match_nonempty {A B : Type} (l : list A) (a b : B) :
  l <> [] -> match l with [] => a | _ :: _ => b end = b.
Proof. destruct l; [contradiction | reflexivity]. Qed.

Section Leapfrog.

Variable f : VField.
Hypothesis Hf : keeps_shapes f.

Lemma leapfrog_shapes (t dt : R) (x v : Tensor) :
  shape v = shape x -> fits x -> fits v ->
  shape (fst (leapfrog f t dt (x, v))) = shape x
  /\ shape (snd (leapfrog f t dt (x, v))) = shape x
  /\ fits (fst (leapfrog f t dt (x, v)))
  /\ fits (snd (leapfrog f t dt (x, v))).
Proof.
  intros Hs Hx Hv. cbn [leapfrog fst snd].
  set (x1 := (x + (1 / 2 * dt) .* v)%T).
  assert (Hx1 : fits x1) by (apply fits_tmap2; [exact Hs | exact Hx | apply fits_tscale, Hv]).
  destruct (Hf (t + 1 / 2 * dt) x1 Hx1) as [Hs1 Hf1].
  set (vt1 := f (t + 1 / 2 * dt) x1) in *.
  assert (Hsv : shape v = shape vt1) by (rewrite Hs1; exact Hs).
  assert (Hd : fits (vt1 - v)%T) by (apply fits_tmap2; assumption).
  set (v1 := ((2 * 1) .* (vt1 - v) + v)%T).
  assert (Hv1 : fits v1) by (apply fits_tmap2; [exact Hsv | apply fits_tscale, Hd | exact Hv]).
  assert (Hsv1 : shape v1 = shape x) by (cbn [v1 tadd tmap2 tscale tmap tsub shape]; congruence).
  repeat split.
  - exact Hsv1.
  - apply fits_tmap2; [exact Hsv1 | exact Hx1 | apply fits_tscale, Hv1].
  - exact Hv1.
Qed.

(** One step forward and one step back from there. *)
Lemma leapfrog_back (t dt : R) (x v : Tensor) :
  shape v = shape x -> fits x -> fits v ->
  leapfrog f (t + dt) (- dt) (leapfrog f t dt (x, v)) = (x, v).
Proof.
  intros Hs Hx Hv. cbn [leapfrog].
  set (x1 := (x + (1 / 2 * dt) .* v)%T).
  assert (Hx1 : fits x1) by (apply fits_tmap2; [exact Hs | exact Hx | apply fits_tscale, Hv]).
  destruct (Hf (t + 1 / 2 * dt) x1 Hx1) as [Hs1 Hf1].
  set (vt1 := f (t + 1 / 2 * dt) x1) in *.
  assert (Hsv : shape v = shape vt1) by (rewrite Hs1; exact Hs).
  assert (Hd : fits (vt1 - v)%T) by (apply fits_tmap2; assumption).
  set (v1 := ((2 * 1) .* (vt1 - v) + v)%T).
  assert (Hv1 : fits v1) by (apply fits_tmap2; [exact Hsv | apply fits_tscale, Hd | exact Hv]).
  assert (Hsv1 : shape v1 = shape x) by (cbn [v1 tadd tmap2 tscale tmap tsub shape]; congruence).
  assert (Ex1 : (x1 + (1 / 2 * dt) .* v1 + (1 / 2 * - dt) .* v1)%T = x1).
  { apply tensor_eq; [reflexivity |].
    cbn [tadd tmap2 tscale tmap data]. apply zipWith_add_back; [lra |].
    apply fits_length; assumption. }
  rewrite Ex1.
  replace (t + dt + 1 / 2 * - dt) with (t + 1 / 2 * dt) by lra.
  fold vt1.
  assert (Ev : ((2 * 1) .* (vt1 - v1) + v1)%T = v).
  { apply tensor_eq; [cbn [tadd tmap2 tscale tmap tsub shape]; congruence |].
    cbn [v1 tadd tmap2 tscale tmap tsub data]. apply zipWith_reflect_back.
    apply fits_length; [congruence | assumption | assumption]. }
  rewrite Ev. f_equal.
  apply tensor_eq; [reflexivity |].
  cbn [x1 tadd tmap2 tscale tmap data]. apply zipWith_add_back; [lra |].
  apply fits_length; assumption.
Qed.

(** The step on a state whose last axis has an even length. *)
Lemma AsynchronousLeapfrog_step_run (cls : stepping) (batch : list nat) (h : nat)
    (xv : Tensor) (t dt : R) (k1 : value) :
  shape xv = batch ++ [(h + h)%nat] -> fits xv ->
  AsynchronousLeapfrog_step cls f xv t dt k1
  = Returns [VNone;
             match cls with
             | fixed => VNone
             | adaptive =>
                 VTensor (join_last (zeros_like (slice_last_to h xv)) (slice_last_from h xv))
             end;
             VTensor (join_last
                        (fst (leapfrog f t dt (slice_last_to h xv, slice_last_from h xv)))
                        (snd (leapfrog f t dt (slice_last_to h xv, slice_last_from h xv))))].
Proof.
  intros Hshape Hfits.
  destruct (slice_last_to_half batch h xv Hshape Hfits) as [Hsx Hx].
  destruct (slice_last_from_half batch h xv Hshape Hfits) as [Hsv Hv].
  assert (Hs : shape (slice_last_from h xv) = shape (slice_last_to h xv)) by congruence.
  destruct (leapfrog_shapes t dt _ _ Hs Hx Hv) as [Hs2 [Hs1 [Hx2 Hv1]]].
  unfold AsynchronousLeapfrog_step.
  rewrite match_nonempty by (rewrite Hshape; destruct batch; discriminate).
  rewrite Hshape, last_last, half_double.
  cbn [leapfrog fst snd] in *.
  set (x := slice_last_to h xv) in *. set (v := slice_last_from h xv) in *.
  set (x1 := (x + (1 / 2 * dt) .* v)%T) in *.
  assert (Hx1 : fits x1) by (apply fits_tmap2; [exact Hs | exact Hx | apply fits_tscale, Hv]).
  destruct (Hf (t + 1 / 2 * dt) x1 Hx1) as [Hsf Hf1].
  set (vt1 := f (t + 1 / 2 * dt) x1) in *.
  unfold badd, bsub.
  rewrite (bmap2_same Rplus x ((1 / 2 * dt) .* v)%T) by (auto using fits_tscale).
  cbn [obind]. fold (tadd x ((1 / 2 * dt) .* v)%T). fold x1. fold vt1.
  assert (Hsv' : shape v = shape vt1) by (rewrite Hsf; exact Hs).
  rewrite (bmap2_same Rminus vt1 v) by assumption.
  cbn [obind]. fold (tsub vt1 v).
  assert (Hd : fits (vt1 - v)%T) by (apply fits_tmap2; assumption).
  rewrite (bmap2_same Rplus ((2 * 1) .* (vt1 - v))%T v) by (auto using fits_tscale).
  cbn [obind]. fold (tadd ((2 * 1) .* (vt1 - v))%T v).
  set (v1 := ((2 * 1) .* (vt1 - v) + v)%T) in *.
  rewrite (bmap2_same Rplus x1 ((1 / 2 * dt) .* v1)%T)
    by (try (cbn [tscale tmap shape]; rewrite Hs1; reflexivity); auto using fits_tscale).
  cbn [obind]. fold (tadd x1 ((1 / 2 * dt) .* v1)%T).
  rewrite (cat_last_halves batch h) by congruence.
  cbn [obind].
  destruct cls; [reflexivity |].
  rewrite (cat_last_halves batch h); [reflexivity | exact Hsx | exact Hsv | | exact Hv].
  unfold fits, zeros_like, tmap. cbn [shape data]. rewrite length_map. exact Hx.
Qed.

End Leapfrog.
Lemma broadcast_shapes_odd (batch : list nat) (h : nat) :
  broadcast_shapes (batch ++ [(h + 2)%nat]) (batch ++ [(h + 3)%nat]) = None.
Proof.
  unfold broadcast_shapes. rewrite !rev_unit. cbn [broadcast_rev].
  rewrite broadcast_rev_same.
  replace (h + 2 =? h + 3)%nat with false by (symmetry; apply Nat.eqb_neq; lia).
  replace (h + 2 =? 1)%nat with false by (symmetry; apply Nat.eqb_neq; lia).
  replace (h + 3 =? 1)%nat with false by (symmetry; apply Nat.eqb_neq; lia).
  reflexivity.
Qed.

Lemma half_odd (h : nat) : ((h + h + 5) / 2 = h + 2)%nat.
Proof.
  replace (h + h + 5)%nat with (1 + (h + 2) * 2)%nat by lia.
  rewrite Nat.div_add by discriminate. reflexivity.
Qed.

Lemma spring_field_keeps_shapes : keeps_shapes spring_field.
Proof.
  intros t x Hx. split; [reflexivity |].
  unfold fits, spring_field, tneg, tmap in *. cbn [shape data]. rewrite length_map. exact Hx.
Qed.

(** X25.  [AsynchronousLeapfrog.step] can be undone by a step back: for a
    state whose last axis has an even length and a vector field that returns
    arrays of the shape of its argument, the step from [t] with [dt] returns
    a state [x_sol] of the shape of [xv], and the step from [t + dt] with
    [- dt] taken at [x_sol] returns [xv] itself, positions and velocities
    alike, in either stepping class. *)
Theorem AsynchronousLeapfrog_step_reversible (cls : stepping) (f : VField) (batch : list nat)
    (h : nat) (xv : Tensor) (t dt : R) (k1 k1' : value) :
  keeps_shapes f -> shape xv = batch ++ [(h + h)%nat] -> fits xv ->
  exists xv_err xv_err' x_sol,
    AsynchronousLeapfrog_step cls f xv t dt k1 = Returns [VNone; xv_err; VTensor x_sol]
    /\ shape x_sol = shape xv /\ fits x_sol
    /\ AsynchronousLeapfrog_step cls f x_sol (t + dt) (- dt) k1'
       = Returns [VNone; xv_err'; VTensor xv].
Proof.
  intros Hf Hshape Hfits.
  destruct (slice_last_to_half batch h xv Hshape Hfits) as [Hsx Hx].
  destruct (slice_last_from_half batch h xv Hshape Hfits) as [Hsv Hv].
  assert (Hs : shape (slice_last_from h xv) = shape (slice_last_to h xv)) by congruence.
  destruct (leapfrog_shapes f Hf t dt _ _ Hs Hx Hv) as [Hs2 [Hs1 [Hx2 Hv1]]].
  set (p := leapfrog f t dt (slice_last_to h xv, slice_last_from h xv)) in *.
  assert (Hs2' : shape (fst p) = batch ++ [h]) by congruence.
  assert (Hs1' : shape (snd p) = batch ++ [h]) by congruence.
  destruct (join_last_shape batch h (fst p) (snd p) Hs2' Hs1' Hx2 Hv1) as [Hjs [Hjf _]].
  eexists. eexists. exists (join_last (fst p) (snd p)).
  split; [| split; [| split]].
  - apply (AsynchronousLeapfrog_step_run f Hf cls batch h xv t dt k1 Hshape Hfits).
  - congruence.
  - exact Hjf.
  - rewrite (AsynchronousLeapfrog_step_run f Hf cls batch h _ (t + dt) (- dt) k1' Hjs Hjf).
    rewrite (slice_last_to_join batch h), (slice_last_from_join batch h) by assumption.
    rewrite <- (surjective_pairing p). unfold p.
    rewrite (leapfrog_back f Hf t dt _ _ Hs Hx Hv). cbn [fst snd].
    rewrite (join_last_halves batch h xv Hshape Hfits). reflexivity.
Qed.

Lemma AsynchronousLeapfrog_step_reversible_witness :
  exists xv_err xv_err' x_sol,
    AsynchronousLeapfrog_step fixed spring_field spring_state 0 1 VNone
    = Returns [VNone; xv_err; VTensor x_sol]
    /\ shape x_sol = shape spring_state /\ fits x_sol
    /\ AsynchronousLeapfrog_step fixed spring_field x_sol (0 + 1) (- 1) VNone
       = Returns [VNone; xv_err'; VTensor spring_state].
Proof.
  apply (AsynchronousLeapfrog_step_reversible fixed spring_field [1%nat] 2 spring_state
           0 1 VNone VNone).
  - exact spring_field_keeps_shapes.
  - reflexivity.
  - reflexivity.
Defined.

(** X26.  [AsynchronousLeapfrog.step] needs a last axis of even length: on a
    state whose last axis has an odd length of five or more, the halves
    [x] and [v] have last axes of lengths [h] and [h + 1], neither of them 1,
    and [x + 0.5 * dt * v] raises a [RuntimeError], for every vector field,
    time, step size and stepping class. *)
Theorem AsynchronousLeapfrog_step_odd_dimension (cls : stepping) (f : VField)
    (batch : list nat) (h : nat) (d : list R) (t dt : R) (k1 : value) :
  AsynchronousLeapfrog_step cls f (mkTensor (batch ++ [(h + h + 5)%nat]) d) t dt k1
  = Raises RuntimeError.
Proof.
  unfold AsynchronousLeapfrog_step. cbn [shape].
  rewrite match_nonempty by (destruct batch; discriminate).
  rewrite last_last, half_odd.
  unfold badd, bmap2, slice_last_to, slice_last_from, tscale, tmap. cbn [shape].
  rewrite removelast_last, last_last.
  replace (Nat.min (h + 2) (h + h + 5)) with (h + 2)%nat by lia.
  replace (h + h + 5 - (h + 2))%nat with (h + 3)%nat by lia.
  rewrite broadcast_shapes_odd. reflexivity.
Qed.
